(** * hugo-preview: a shallow embedding of [src/extension.ts]

    The extension previews one Markdown document of a Hugo site inside an
    editor panel.  This development embeds the functions of
    [src/extension.ts] (and of its older revision) in Rocq and proves
    properties of them.

    Conventions.
    - A JavaScript string is a list of code units, [jstr]; the code units
      are the 8-bit ones of [ascii].
    - A function that can throw (or an [async] function whose promise can
      reject) returns a [result].
    - Node's [path] module is the POSIX one ([path.posix]).
    - What the host decides (the editor, the configuration, child
      processes, the network) is read from a record of oracles. *)

From Stdlib Require Import Ascii String ZArith QArith Lia.
From Stdlib.Strings Require Import Byte.
From stdpp Require Import base option list gmap.

Close Scope Q_scope.
Close Scope Z_scope.


(* ================================================================= *)
(** * Part I: definitions *)
(* ================================================================= *)

(** ** JavaScript strings *)

Definition jstr := list ascii.

Inductive jlit := jnil | jcons (b : byte) (l : jlit).

Fixpoint jlit_of_bytes (l : list byte) : jlit :=
  match l with
  | [] => jnil
  | b :: t => jcons b (jlit_of_bytes t)
  end.

Fixpoint jlit_to_bytes (s : jlit) : list byte :=
  match s with
  | jnil => []
  | jcons b t => b :: jlit_to_bytes t
  end.

Definition jstr_nil : jstr := [].
Definition jstr_cons (b : byte) (s : jstr) : jstr := ascii_of_byte b :: s.

Declare Scope jstr_scope.
Delimit Scope jstr_scope with js.
Set Warnings "-via-type-mismatch,-via-type-remapping".
String Notation jstr jlit_of_bytes jlit_to_bytes
  (via jlit mapping [jstr_nil => jnil, jstr_cons => jcons]) : jstr_scope.
Set Warnings "via-type-mismatch,via-type-remapping".
Open Scope jstr_scope.
Arguments jstr_cons _ _ : simpl never.

(** Single code units used by the program. *)
Definition ch_slash : ascii := ascii_of_nat 47.
Definition ch_backslash : ascii := ascii_of_nat 92.
Definition ch_quote : ascii := ascii_of_nat 34.
Definition ch_dollar : ascii := ascii_of_nat 36.
Definition ch_amp : ascii := ascii_of_nat 38.
Definition ch_backtick : ascii := ascii_of_nat 96.
Definition ch_apos : ascii := ascii_of_nat 39.
Definition ch_comma : ascii := ascii_of_nat 44.
Definition ch_dot : ascii := ascii_of_nat 46.
Definition ch_newline : ascii := ascii_of_nat 10.
Definition ch_gt : ascii := ascii_of_nat 62.

(** Results of code that may throw. *)
Inductive result (E A : Type) : Type :=
  | Ok (a : A)
  | Throw (e : E).
Arguments Ok {E A} a.
Arguments Throw {E A} e.

(** [s.startsWith(p)] *)
Fixpoint startsWith (s p : jstr) {struct p} : bool :=
  match p, s with
  | [], _ => true
  | _ :: _, [] => false
  | a :: p', c :: s' => Ascii.eqb a c && startsWith s' p'
  end.

(** [s.includes(p)] and [/p/.test(s)] for a literal [p]. *)
Fixpoint includes (s p : jstr) : bool :=
  startsWith s p ||
  match s with
  | [] => false
  | _ :: t => includes t p
  end.

(** [s.split(sep)] for a one-unit separator; the empty string splits
    into one empty string. *)
Fixpoint js_split (sep : ascii) (s : jstr) : list jstr :=
  match s with
  | [] => [[]]
  | c :: t =>
      if Ascii.eqb c sep then [] :: js_split sep t
      else match js_split sep t with
           | h :: r => (c :: h) :: r
           | [] => [[c]]
           end
  end.

(** The white space and line terminators of [String.prototype.trim]
    among the 8-bit code units: TAB, LF, VT, FF, CR, SP and NBSP. *)
Definition is_js_space (c : ascii) : bool :=
  let n := nat_of_ascii c in
  (n =? 9)%nat || (n =? 10)%nat || (n =? 11)%nat || (n =? 12)%nat
  || (n =? 13)%nat || (n =? 32)%nat || (n =? 160)%nat.

Fixpoint trimStart (s : jstr) : jstr :=
  match s with
  | [] => []
  | c :: t => if is_js_space c then trimStart t else s
  end.

(** [s.trim()] *)
Definition trim (s : jstr) : jstr := rev (trimStart (rev (trimStart s))).

(** [arr.indexOf(x)] on an array of strings; [None] stands for [-1]. *)
Fixpoint indexOf (arr : list jstr) (x : jstr) : option nat :=
  match arr with
  | [] => None
  | y :: t => if bool_decide (y = x) then Some 0%nat
              else S <$> indexOf t x
  end.

(** ** [String.prototype.replace] with a global literal pattern *)

(** [GetSubstitution] of ECMA-262 for a pattern without capture groups:
    in the replacement template, [$$] is a dollar sign, [$&] the matched
    text, [$`] the text before the match and [$'] the text after it;
    every other code unit, a lone [$] included, stands for itself. *)
Fixpoint GetSubstitution (matched before after template : jstr) : jstr :=
  match template with
  | [] => []
  | c :: t =>
      if Ascii.eqb c ch_dollar then
        match t with
        | d :: t' =>
            if Ascii.eqb d ch_dollar then ch_dollar :: GetSubstitution matched before after t'
            else if Ascii.eqb d ch_amp then matched ++ GetSubstitution matched before after t'
            else if Ascii.eqb d ch_backtick then before ++ GetSubstitution matched before after t'
            else if Ascii.eqb d ch_apos then after ++ GetSubstitution matched before after t'
            else c :: GetSubstitution matched before after t
        | [] => [c]
        end
      else c :: GetSubstitution matched before after t
  end.

(** [s.replace(/pat/g, template)] for a non-empty literal [pat]: the
    matches are found from left to right and do not overlap.  [before]
    is the text already scanned and [skip] the number of code units of
    the current match still to be passed over. *)
Fixpoint replace_go (pat template before : jstr) (skip : nat) (s : jstr) : jstr :=
  match s with
  | [] => []
  | c :: t =>
      match skip with
      | S k => replace_go pat template (before ++ [c]) k t
      | O =>
          if startsWith s pat then
            GetSubstitution pat before (drop (length pat) s) template
              ++ replace_go pat template (before ++ [c]) (length pat - 1) t
          else c :: replace_go pat template (before ++ [c]) 0 t
      end
  end.

Definition replace_all (pat template s : jstr) : jstr :=
  replace_go pat template [] 0 s.

(** ** [rewriteRootPaths] (lines 209-216) *)

(** The pattern: the attribute name, a quote and a slash; and the
    template: the attribute name, a quote, the root and a slash. *)
Definition root_pattern (attr : jstr) : jstr := attr ++ [ch_quote; ch_slash].
Definition root_template (attr rootUri : jstr) : jstr :=
  attr ++ [ch_quote] ++ rootUri ++ [ch_slash].

Definition rewrite_attr (attr rootUri html : jstr) : jstr :=
  replace_all (root_pattern attr) (root_template attr rootUri) html.

Definition rewriteRootPaths (html rootUri : jstr) : jstr :=
  rewrite_attr "action=" rootUri
    (rewrite_attr "src=" rootUri
       (rewrite_attr "href=" rootUri html)).

(** The attributes whose values are rewritten. *)
Definition root_attrs : list jstr := ["href="; "src="; "action="].

(** The rewriting in words: going through the text from its start,
    every occurrence of the pattern of one of the three attributes
    becomes the attribute name, a quote, the root and a slash; every
    other code unit stays. *)
Inductive Rewritten (rootUri : jstr) : jstr -> jstr -> Prop :=
  | Rewritten_end : Rewritten rootUri [] []
  | Rewritten_attr (attr rest rest' : jstr) :
      attr ∈ root_attrs ->
      Rewritten rootUri rest rest' ->
      Rewritten rootUri (root_pattern attr ++ rest)
        (attr ++ [ch_quote] ++ rootUri ++ [ch_slash] ++ rest')
  | Rewritten_keep (c : ascii) (rest rest' : jstr) :
      (forall attr, attr ∈ root_attrs ->
         startsWith (c :: rest) (root_pattern attr) = false) ->
      Rewritten rootUri rest rest' ->
      Rewritten rootUri (c :: rest) (c :: rest').

(** An attribute name holds no quote, no slash and no dollar sign. *)
Definition plain_attr (a : jstr) : Prop :=
  (ch_quote ∉ a) /\ (ch_slash ∉ a) /\ (ch_dollar ∉ a).

(** ** Errors *)

(** The values thrown by the program: [new Error(localize(key, args))],
    the two errors of [mapPlatform] and [mapArch], the [TypeError] of the
    JavaScript runtime, the rejection of [execFileAsync], and errors of
    the host (file system, network). *)
Inductive Error : Type :=
  | ErrLocalized (key : jstr) (args : list jstr)
  | ErrUnsupportedPlatform (p : jstr)
  | ErrUnsupportedArch (a : jstr)
  | ErrTypeError
  | ErrCommandFailed (cmd : jstr) (args : list jstr)
  | ErrHost (what : jstr).

(** ** JavaScript numbers and [isNewer] (lines 557-565) *)

(** A JavaScript number: NaN, an infinity, or a finite value.  Every
    finite double is a rational; the two zeros compare equal. *)
Inductive jsnum : Type :=
  | JNaN
  | JNegInf
  | JFin (q : Q)
  | JPosInf.

(** [a > b] and [a < b] on numbers: false as soon as one side is NaN. *)
Definition js_gt (a b : jsnum) : bool :=
  match a, b with
  | JNaN, _ | _, JNaN => false
  | JNegInf, _ => false
  | JFin _, JNegInf => true
  | JFin x, JFin y => negb (Qle_bool x y)
  | JFin _, JPosInf => false
  | JPosInf, JPosInf => false
  | JPosInf, _ => true
  end.

Definition js_lt (a b : jsnum) : bool := js_gt b a.

Definition js_zero : jsnum := JFin 0.

(** [arr[i] ?? 0]: an index past the end reads [undefined]. *)
Definition at_or_zero (arr : list jsnum) (i : nat) : jsnum :=
  default js_zero (arr !! i).

Section IsNewer.
(** [Number(s)], the conversion of a string to a number. *)
Variable Number : jstr -> jsnum.

(** [v.split(".").map(Number)] *)
Definition version_numbers (v : jstr) : list jsnum :=
  Number <$> js_split ch_dot v.

(** The loop [for (let i = 0; i < 3; i++)], with [n] iterations left. *)
Fixpoint isNewer_loop (n i : nat) (r l : list jsnum) : bool :=
  match n with
  | O => false
  | S n' =>
      if js_gt (at_or_zero r i) (at_or_zero l i) then true
      else if js_lt (at_or_zero r i) (at_or_zero l i) then false
      else isNewer_loop n' (S i) r l
  end.

Definition isNewer (remote local : jstr) : bool :=
  isNewer_loop 3 0 (version_numbers remote) (version_numbers local).

(** [(v.split(".").map(Number)[i] ?? 0)], the component the loop reads
    at index [i]. *)
Definition component (v : jstr) (i : nat) : jsnum :=
  at_or_zero (version_numbers v) i.
End IsNewer.

(** A conversion for examples: the value of a string of decimal digits
    (white space around it trimmed, the empty string being 0), and NaN
    for every other string.  It agrees with [Number] on those strings
    of digits whose value a double holds exactly. *)
Definition digit_value (c : ascii) : option Z :=
  let n := nat_of_ascii c in
  if (48 <=? n)%nat && (n <=? 57)%nat then Some (Z.of_nat (n - 48)) else None.

Fixpoint digits_value (acc : Z) (s : jstr) : option Z :=
  match s with
  | [] => Some acc
  | c :: t =>
      match digit_value c with
      | Some d => digits_value (10 * acc + d)%Z t
      | None => None
      end
  end.

Definition decimal_Number (s : jstr) : jsnum :=
  match digits_value 0 (trim s) with
  | Some z => JFin (inject_Z z)
  | None => JNaN
  end.

(** ** Platform and archive names (lines 337-355, 392-400) *)

Inductive Platform : Type := windows | darwin | linux.

#[global] Instance Platform_eq_dec : EqDecision Platform.
Proof. solve_decision. Defined.

Definition Platform_str (p : Platform) : jstr :=
  match p with
  | windows => "windows"
  | darwin => "darwin"
  | linux => "linux"
  end.

Inductive Arch : Type := amd64 | arm64.

Definition Arch_str (a : Arch) : jstr :=
  match a with
  | amd64 => "amd64"
  | arm64 => "arm64"
  end.

(** [process_platform] and [process_arch] are [process.platform] and
    [process.arch]. *)
Definition getHugoBinaryName (process_platform : jstr) : jstr :=
  if bool_decide (process_platform = "win32") then "hugo.exe" else "hugo".

Definition mapPlatform (process_platform : jstr) : result Error Platform :=
  if bool_decide (process_platform = "win32") then Ok windows
  else if bool_decide (process_platform = "darwin") then Ok darwin
  else if bool_decide (process_platform = "linux") then Ok linux
  else Throw (ErrUnsupportedPlatform process_platform).

Definition mapArch (process_arch : jstr) : result Error Arch :=
  if bool_decide (process_arch = "x64") then Ok amd64
  else if bool_decide (process_arch = "arm64") then Ok arm64
  else Throw (ErrUnsupportedArch process_arch).

(** [fileName] of [installHugoInternal]. *)
Definition archiveFileName (platform : Platform) (arch : Arch)
    (version : jstr) (useExtended : bool) : jstr :=
  let isWin := bool_decide (platform = windows) in
  let flavor : jstr := if useExtended then "hugo_extended" else "hugo" in
  if isWin
  then flavor ++ "_" ++ version ++ "_" ++ Platform_str platform ++ "-" ++ Arch_str arch ++ ".zip"
  else flavor ++ "_" ++ version ++ "_" ++ Platform_str platform ++ "-" ++ Arch_str arch ++ ".tar.gz".

Definition releaseBase (version : jstr) : jstr :=
  "https://github.com/gohugoio/hugo/releases/download/v" ++ version ++ "/".

(** ** Node's [path] module, POSIX flavour *)

(** [arr.join(sep)] *)
Fixpoint intercalate (sep : jstr) (l : list jstr) : jstr :=
  match l with
  | [] => []
  | [x] => x
  | x :: t => x ++ sep ++ intercalate sep t
  end.

(** [s.slice(start, end)] for [0 <= start] and [0 <= end <= s.length]. *)
Definition slice (s : jstr) (start stop : nat) : jstr :=
  take (stop - start) (drop start s).

(** [s.charCodeAt(i) === CHAR_FORWARD_SLASH] *)
Definition slash_at (s : jstr) (i : nat) : bool :=
  match s !! i with
  | Some c => Ascii.eqb c ch_slash
  | None => false
  end.

Definition non_empty (s : jstr) : bool :=
  match s with
  | [] => false
  | _ :: _ => true
  end.

Module path.

Definition sep : jstr := "/".

(** [normalizeString] works through the segments between slashes:
    empty segments and [.] are dropped, [..] removes the segment
    before it, or is kept when there is none to remove and the path
    may climb above its root.  [res] holds the segments kept so far,
    the last one first. *)
Fixpoint normalize_segs (allowAboveRoot : bool) (res segs : list jstr) : list jstr :=
  match segs with
  | [] => res
  | seg :: rest =>
      if bool_decide (seg = "") || bool_decide (seg = ".") then
        normalize_segs allowAboveRoot res rest
      else if bool_decide (seg = "..") then
        let kept := if allowAboveRoot then ".." :: res else res in
        match res with
        | top :: below =>
            if bool_decide (top = "..")
            then normalize_segs allowAboveRoot kept rest
            else normalize_segs allowAboveRoot below rest
        | [] => normalize_segs allowAboveRoot kept rest
        end
      else normalize_segs allowAboveRoot (seg :: res) rest
  end.

Definition normalizeString (p : jstr) (allowAboveRoot : bool) : jstr :=
  intercalate "/" (rev (normalize_segs allowAboveRoot [] (js_split ch_slash p))).

Definition isAbsolute (p : jstr) : bool := startsWith p "/".

Definition trailingSeparator (p : jstr) : bool :=
  match last p with
  | Some c => Ascii.eqb c ch_slash
  | None => false
  end.

(** [path.normalize(p)] *)
Definition normalize (p : jstr) : jstr :=
  if negb (non_empty p) then "."
  else
    let n := normalizeString p (negb (isAbsolute p)) in
    if negb (non_empty n) then
      if isAbsolute p then "/"
      else if trailingSeparator p then "./" else "."
    else
      let n := if trailingSeparator p then n ++ "/" else n in
      if isAbsolute p then "/" ++ n else n.

(** [path.join(...args)] *)
Definition join (args : list jstr) : jstr :=
  match filter (fun a => non_empty a = true) args with
  | [] => "."
  | parts => normalize (intercalate "/" parts)
  end.

(** The loop of [path.resolve] over the arguments from the last one
    to the first and then the working directory. *)
Fixpoint resolve_loop (rargs : list jstr) (resolvedPath : jstr) : jstr * bool :=
  match rargs with
  | [] => (resolvedPath, false)
  | p :: rest =>
      if negb (non_empty p) then resolve_loop rest resolvedPath
      else if isAbsolute p then (p ++ "/" ++ resolvedPath, true)
      else resolve_loop rest (p ++ "/" ++ resolvedPath)
  end.

(** [path.resolve(...args)], [cwd] being [process.cwd()]. *)
Definition resolve (cwd : jstr) (args : list jstr) : jstr :=
  let '(resolvedPath, resolvedAbsolute) := resolve_loop (rev args ++ [cwd]) "" in
  let n := normalizeString resolvedPath (negb resolvedAbsolute) in
  if resolvedAbsolute then "/" ++ n
  else if non_empty n then n else ".".

(** The segments shared at the front of two lists are dropped. *)
Fixpoint drop_common (a b : list jstr) : list jstr * list jstr :=
  match a, b with
  | x :: a', y :: b' =>
      if bool_decide (x = y) then drop_common a' b' else (a, b)
  | _, _ => (a, b)
  end.

Definition segments (p : jstr) : list jstr :=
  filter (fun s => non_empty s = true) (js_split ch_slash p).

(** [path.relative(from, to)]: both paths are resolved; the result
    climbs out of what is left of [from] past the shared directories
    and descends into what is left of [to]. *)
Definition relative (cwd from to : jstr) : jstr :=
  if bool_decide (from = to) then ""
  else
    let from' := resolve cwd [from] in
    let to' := resolve cwd [to] in
    if bool_decide (from' = to') then ""
    else
      let '(up, down) := drop_common (segments from') (segments to') in
      intercalate "/" (replicate (length up) ".." ++ down).

(** The loop of [path.dirname]: [i] runs from [p.length - 1] down to 1. *)
Fixpoint dirname_loop (p : jstr) (n : nat) (matchedSlash : bool) : option nat :=
  match n with
  | O => None
  | S i =>
      match i with
      | O => None
      | S _ =>
          if slash_at p i then
            if negb matchedSlash then Some i
            else dirname_loop p i matchedSlash
          else dirname_loop p i false
      end
  end.

(** [path.dirname(p)] *)
Definition dirname (p : jstr) : jstr :=
  if negb (non_empty p) then "."
  else
    let hasRoot := slash_at p 0 in
    match dirname_loop p (length p) true with
    | None => if hasRoot then "/" else "."
    | Some stop =>
        if hasRoot && bool_decide (stop = 1%nat) then "//"
        else slice p 0 stop
    end.

(** The state of the loops of [path.basename]; [-1] is [None]. *)
Record basename_state : Type := {
  bs_start : nat;
  bs_end : option nat;
  bs_matchedSlash : bool;
  bs_extIdx : option nat;
  bs_firstNonSlashEnd : option nat;
  bs_break : bool
}.

(** One iteration of the loop of [path.basename(p, suffix)] at
    index [i]. *)
Definition basename_suffix_step (p suffix : jstr) (i : nat)
    (st : basename_state) : basename_state :=
  if bs_break st then st
  else if slash_at p i then
    if negb (bs_matchedSlash st)
    then {| bs_start := S i; bs_end := bs_end st;
            bs_matchedSlash := bs_matchedSlash st;
            bs_extIdx := bs_extIdx st;
            bs_firstNonSlashEnd := bs_firstNonSlashEnd st;
            bs_break := true |}
    else st
  else
    let st1 :=
      match bs_firstNonSlashEnd st with
      | None =>
          {| bs_start := bs_start st; bs_end := bs_end st;
             bs_matchedSlash := false;
             bs_extIdx := bs_extIdx st;
             bs_firstNonSlashEnd := Some (S i);
             bs_break := false |}
      | Some _ => st
      end in
    match bs_extIdx st1 with
    | None => st1
    | Some e =>
        if bool_decide (p !! i = suffix !! e) then
          match e with
          | O => {| bs_start := bs_start st1; bs_end := Some i;
                    bs_matchedSlash := bs_matchedSlash st1;
                    bs_extIdx := None;
                    bs_firstNonSlashEnd := bs_firstNonSlashEnd st1;
                    bs_break := false |}
          | S e' => {| bs_start := bs_start st1; bs_end := bs_end st1;
                       bs_matchedSlash := bs_matchedSlash st1;
                       bs_extIdx := Some e';
                       bs_firstNonSlashEnd := bs_firstNonSlashEnd st1;
                       bs_break := false |}
          end
        else {| bs_start := bs_start st1;
                bs_end := bs_firstNonSlashEnd st1;
                bs_matchedSlash := bs_matchedSlash st1;
                bs_extIdx := None;
                bs_firstNonSlashEnd := bs_firstNonSlashEnd st1;
                bs_break := false |}
    end.

(** One iteration of the loop of [path.basename(p)] at index [i]. *)
Definition basename_plain_step (p : jstr) (i : nat)
    (st : basename_state) : basename_state :=
  if bs_break st then st
  else if slash_at p i then
    if negb (bs_matchedSlash st)
    then {| bs_start := S i; bs_end := bs_end st;
            bs_matchedSlash := bs_matchedSlash st;
            bs_extIdx := bs_extIdx st;
            bs_firstNonSlashEnd := bs_firstNonSlashEnd st;
            bs_break := true |}
    else st
  else
    match bs_end st with
    | None => {| bs_start := bs_start st; bs_end := Some (S i);
                 bs_matchedSlash := false;
                 bs_extIdx := bs_extIdx st;
                 bs_firstNonSlashEnd := bs_firstNonSlashEnd st;
                 bs_break := false |}
    | Some _ => st
    end.

(** [for (i = n - 1; i >= 0; --i)] *)
Fixpoint down_from (step : nat -> basename_state -> basename_state)
    (n : nat) (st : basename_state) : basename_state :=
  match n with
  | O => st
  | S i => down_from step i (step i st)
  end.

Definition basename_init (extIdx : option nat) : basename_state :=
  {| bs_start := 0; bs_end := None; bs_matchedSlash := true;
     bs_extIdx := extIdx; bs_firstNonSlashEnd := None;
     bs_break := false |}.

(** [path.basename(p, suffix)]; [suffix = None] is the call with one
    argument. *)
Definition basename (p : jstr) (suffix : option jstr) : jstr :=
  match suffix with
  | Some sfx =>
      if non_empty sfx && bool_decide (length sfx <= length p)%nat then
        if bool_decide (sfx = p) then ""
        else
          let st := down_from (basename_suffix_step p sfx) (length p)
                      (basename_init (Some (length sfx - 1)%nat)) in
          let stop :=
            if bool_decide (Some (bs_start st) = bs_end st)
            then default 0%nat (bs_firstNonSlashEnd st)
            else default (length p) (bs_end st) in
          slice p (bs_start st) stop
      else
        let st := down_from (basename_plain_step p) (length p)
                    (basename_init None) in
        match bs_end st with
        | None => ""
        | Some stop => slice p (bs_start st) stop
        end
  | None =>
      let st := down_from (basename_plain_step p) (length p)
                  (basename_init None) in
      match bs_end st with
      | None => ""
      | Some stop => slice p (bs_start st) stop
      end
  end.

End path.

(** ** Locating the generated page (lines 868-927) *)

(** [p.replace(/\\/g, "/")] *)
Definition normalize_backslashes (p : jstr) : jstr :=
  (fun c => if Ascii.eqb c ch_backslash then ch_slash else c) <$> p.

(** [s.replace(re, empty)] for the pattern [re] of one or more slashes
    at the start. *)
Fixpoint strip_leading_slashes (s : jstr) : jstr :=
  match s with
  | [] => []
  | c :: t => if Ascii.eqb c ch_slash then strip_leading_slashes t else s
  end.

Section HugoList.
(** [new URL(s).pathname]; [None] when the constructor throws. *)
Variable URL_pathname : jstr -> option jstr.

Variables (outDir contentRelPath : jstr).

(** The loop over the data rows of the listing. *)
Fixpoint scan_rows (idxPath idxPermalink : nat) (targetPath : jstr)
    (rows : list jstr) : result Error jstr :=
  match rows with
  | [] => Throw (ErrLocalized "error.htmlNotGenerated" [contentRelPath])
  | line :: rest =>
      let cols := js_split ch_comma line in
      match cols !! idxPath with
      | None => Throw ErrTypeError
      | Some col =>
          if negb (bool_decide (normalize_backslashes col = targetPath)) then
            scan_rows idxPath idxPermalink targetPath rest
          else
            match cols !! idxPermalink with
            | None | Some [] =>
                Throw (ErrLocalized "error.hugoPermalinkMissing" [contentRelPath])
            | Some permalink =>
                match URL_pathname permalink with
                | None => Throw ErrTypeError
                | Some pathname =>
                    let htmlRelPath :=
                      path.join [strip_leading_slashes pathname; "index.html"] in
                    Ok (path.join [outDir; htmlRelPath])
                end
            end
      end
  end.

(** [resolveHtmlPathByHugoList] from the output of [hugo list all] on. *)
Definition resolveHtmlPath_of_stdout (stdout : jstr) : result Error jstr :=
  let lines := js_split ch_newline (trim stdout) in
  if bool_decide (length lines < 2)%nat then
    Throw (ErrLocalized "error.hugoListEmpty" [])
  else
    let headers := js_split ch_comma (default [] (lines !! 0%nat)) in
    match indexOf headers "path", indexOf headers "permalink" with
    | Some idxPath, Some idxPermalink =>
        let targetPath := normalize_backslashes ("content/" ++ contentRelPath) in
        scan_rows idxPath idxPermalink targetPath (drop 1 lines)
    | _, _ => Throw (ErrLocalized "error.hugoListInvalidFormat" [])
    end.
End HugoList.

(** *** The listing in words *)

Definition listing_lines (stdout : jstr) : list jstr :=
  js_split ch_newline (trim stdout).

Definition listing_headers (stdout : jstr) : list jstr :=
  js_split ch_comma (default [] (listing_lines stdout !! 0%nat)).

(** The data rows: every line but the first. *)
Definition listing_rows (stdout : jstr) : list jstr :=
  drop 1 (listing_lines stdout).

(** The column of a line at an index, [None] when the line is shorter. *)
Definition row_column (i : nat) (line : jstr) : option jstr :=
  js_split ch_comma line !! i.

Definition listing_target (contentRelPath : jstr) : jstr :=
  normalize_backslashes ("content/" ++ contentRelPath).

(** The line has a path column which, with its backslashes turned into
    slashes, is the target. *)
Definition row_matches (idxPath : nat) (target line : jstr) : bool :=
  bool_decide (normalize_backslashes <$> row_column idxPath line = Some target).

Definition first_matching_row (idxPath : nat) (target : jstr)
    (rows : list jstr) : option jstr :=
  snd <$> list_find (fun line => row_matches idxPath target line = true) rows.

(** Every data row is long enough to have a path column. *)
Definition rows_have_path (stdout : jstr) : Prop :=
  forall idxPath, indexOf (listing_headers stdout) "path" = Some idxPath ->
    Forall (fun line => is_Some (row_column idxPath line)) (listing_rows stdout).

(** What the loop does at the matching row. *)
Definition at_row (URL_pathname : jstr -> option jstr) (outDir contentRelPath : jstr)
    (idxPermalink : nat) (line : jstr) : result Error jstr :=
  match row_column idxPermalink line with
  | None | Some [] =>
      Throw (ErrLocalized "error.hugoPermalinkMissing" [contentRelPath])
  | Some permalink =>
      match URL_pathname permalink with
      | None => Throw ErrTypeError
      | Some pathname =>
          Ok (path.join [outDir; path.join [strip_leading_slashes pathname; "index.html"]])
      end
  end.

(** The page of a document as the listing gives it: the permalink of
    the first matching row decides. *)
Definition located_page (URL_pathname : jstr -> option jstr)
    (outDir contentRelPath stdout : jstr) : result Error jstr :=
  if bool_decide (length (listing_lines stdout) < 2)%nat then
    Throw (ErrLocalized "error.hugoListEmpty" [])
  else
    match indexOf (listing_headers stdout) "path",
          indexOf (listing_headers stdout) "permalink" with
    | Some idxPath, Some idxPermalink =>
        match first_matching_row idxPath (listing_target contentRelPath)
                (listing_rows stdout) with
        | None => Throw (ErrLocalized "error.htmlNotGenerated" [contentRelPath])
        | Some line =>
            match row_column idxPermalink line with
            | None | Some [] =>
                Throw (ErrLocalized "error.hugoPermalinkMissing" [contentRelPath])
            | Some permalink =>
                match URL_pathname permalink with
                | None => Throw ErrTypeError
                | Some pathname =>
                    Ok (path.join [outDir; strip_leading_slashes pathname; "index.html"])
                end
            end
        end
    | _, _ => Throw (ErrLocalized "error.hugoListInvalidFormat" [])
    end.

(** The cases in which the listing gives no page. *)
Definition listing_fails (URL_pathname : jstr -> option jstr)
    (contentRelPath stdout : jstr) : Prop :=
  (length (listing_lines stdout) < 2)%nat
  \/ indexOf (listing_headers stdout) "path" = None
  \/ indexOf (listing_headers stdout) "permalink" = None
  \/ exists idxPath idxPermalink,
       indexOf (listing_headers stdout) "path" = Some idxPath
       /\ indexOf (listing_headers stdout) "permalink" = Some idxPermalink
       /\ match first_matching_row idxPath (listing_target contentRelPath)
                  (listing_rows stdout) with
          | None => True
          | Some line =>
              match row_column idxPermalink line with
              | None | Some [] => True
              | Some permalink => URL_pathname permalink = None
              end
          end.

(** The permalink that the listing gives for a document. *)
Definition listed_permalink (contentRelPath stdout : jstr) : option jstr :=
  if bool_decide (length (listing_lines stdout) < 2)%nat then None
  else
    match indexOf (listing_headers stdout) "path",
          indexOf (listing_headers stdout) "permalink" with
    | Some idxPath, Some idxPermalink =>
        first_matching_row idxPath (listing_target contentRelPath)
          (listing_rows stdout) ≫= row_column idxPermalink
    | _, _ => None
    end.

(** The older revision (lines 131-139 of its [openPreview]) computed the
    place of the page from the path of the document alone. *)
Definition htmlPath_by_layout (outDir relPath : jstr) : jstr :=
  let slug := path.basename relPath (Some ".md") in
  let sectionDir := path.dirname relPath in
  path.join [outDir; sectionDir; slug; "index.html"].

(** ** The reported version (lines 522-534) *)

Definition is_digit (c : ascii) : bool :=
  let n := nat_of_ascii c in (48 <=? n)%nat && (n <=? 57)%nat.

(** The longest run of digits at the front of [s], and what follows. *)
Fixpoint span_digits (s : jstr) : jstr * jstr :=
  match s with
  | [] => ([], [])
  | c :: t =>
      if is_digit c then let '(d, r) := span_digits t in (c :: d, r)
      else ([], s)
  end.

(** [\d+\.\d+\.\d+] at the front of [s]. *)
Definition three_numbers (s : jstr) : option jstr :=
  let '(d1, r1) := span_digits s in
  match d1, r1 with
  | _ :: _, c1 :: r1' =>
      if Ascii.eqb c1 ch_dot then
        let '(d2, r2) := span_digits r1' in
        match d2, r2 with
        | _ :: _, c2 :: r2' =>
            if Ascii.eqb c2 ch_dot then
              let '(d3, _) := span_digits r2' in
              match d3 with
              | _ :: _ => Some (d1 ++ "." ++ d2 ++ "." ++ d3)
              | [] => None
              end
            else None
        | _, _ => None
        end
      else None
  | _, _ => None
  end.

(** [stdout.match(/v(\d+\.\d+\.\d+)/)], the first group of the leftmost
    match. *)
Fixpoint match_version (stdout : jstr) : option jstr :=
  match stdout with
  | [] => None
  | c :: t =>
      if Ascii.eqb c (ascii_of_nat 118) then
        match three_numbers t with
        | Some v => Some v
        | None => match_version t
        end
      else match_version t
  end.

(** ** Marking the page (lines 184-192) *)

Definition lower (c : ascii) : ascii :=
  let n := nat_of_ascii c in
  if (65 <=? n)%nat && (n <=? 90)%nat then ascii_of_nat (n + 32) else c.

(** The text up to the first [>], and the text after it. *)
Fixpoint until_gt (s : jstr) : option (jstr * jstr) :=
  match s with
  | [] => None
  | c :: t =>
      if Ascii.eqb c ch_gt then Some ([], t)
      else '(a, r) ← until_gt t; Some (c :: a, r)
  end.

(** The replacement at the first match of the pattern [<html], any
    number of code units other than [>], [>], letter case ignored: the
    tag gets the attribute [hugo-preview] unless it has one. *)
Fixpoint mark_html (html : jstr) : jstr :=
  match html with
  | [] => []
  | c :: t =>
      if startsWith (lower <$> html) "<html" then
        match until_gt (drop 5 html) with
        | Some (attrs, rest) =>
            if includes attrs "hugo-preview="
            then "<html" ++ attrs ++ ">" ++ rest
            else "<html" ++ attrs ++ " hugo-preview=" ++ [ch_quote] ++ "true" ++ [ch_quote] ++ ">" ++ rest
        | None => html
        end
      else c :: mark_html t
  end.

(** ** The host: editor, configuration, file system, child processes *)

(** [vscode.TextDocument] *)
Record TextDocument : Type := {
  languageId : jstr;
  doc_fsPath : jstr;
  getText : jstr
}.

(** An entry of the file system. *)
Inductive Entry : Type :=
  | File (content : jstr)
  | Dir.

(** The file system maps the paths that exist to their entries. *)
Abbreviation FileSystem := (gmap jstr Entry).

(** [vscode.WebviewPanel], as far as the program uses it. *)
Record Panel : Type := {
  panel_title : jstr;
  panel_html : jstr
}.

(** [vscode.StatusBarItem] *)
Record StatusItem : Type := {
  status_text : jstr;
  status_command : jstr;
  status_visible : bool
}.

(** What the program asks of the outside, in the order it asks.
    [EvDownload url dest] is the call [downloadFile(url, dest)] that
    [installHugoInternal] makes (line 412); the requests by which
    [downloadFile] follows the redirects of the server (lines 468-474)
    are part of that call. *)
Inductive Event : Type :=
  | EvExecVersion (cmd : jstr)
  | EvShowInformationMessage (text : jstr) (buttons : list jstr)
  | EvShowWarningMessage (text : jstr)
  | EvConsoleLog
  | EvGetLatestVersion
  | EvDownload (url dest : jstr)
  | EvExtract (archive extractDir : jstr)
  | EvExecFile (cmd : jstr) (args : list jstr)
  | EvCreateWebviewPanel (title : jstr)
  | EvReveal
  | EvOnDidSaveTextDocument.

(** The state the program reads and writes. *)
Record World : Type := {
  fs : FileSystem;
  previewPanel : option Panel;
  hugoStatusItem : StatusItem;
  isHugoServerRunning : bool;
  trace : list Event
}.

(** The inputs of a run.  The answers of the outside may depend on the
    state reached when the question is asked. *)
Record Host : Type := {
  activeTextEditor : option TextDocument;
  workspaceFolder : option jstr;
  globalStoragePath : jstr;
  cfg_hugoPath : option jstr;
  cfg_hugoVersion : option jstr;
  cfg_autoDownload : option bool;
  cfg_useExtended : option bool;
  process_platform : jstr;
  process_arch : jstr;
  process_cwd : jstr;
  (** [vscode.l10n.t] *)
  localize : jstr -> list jstr -> jstr;
  (** [Number] *)
  host_Number : jstr -> jsnum;
  (** [new URL(s).pathname] *)
  host_URL_pathname : jstr -> option jstr;
  (** [webview.asWebviewUri(vscode.Uri.file(p)).toString()] *)
  asWebviewUri : jstr -> jstr;
  (** [execFile(cmd, ["version"])]: its output, [None] on an error. *)
  exec_version : World -> jstr -> option jstr;
  (** The button picked in a message, [None] when it is dismissed. *)
  pick_button : World -> jstr -> list jstr -> option jstr;
  (** [getLatestHugoVersion()] *)
  latest_version : World -> result Error jstr;
  (** [downloadFile(url, dest)] (lines 464-488) as a whole, the
      redirects that it follows included: the file system after it. *)
  download : World -> jstr -> jstr -> result Error FileSystem;
  (** Unpacking the archive into a directory and finding the binary in
      it: the file system after it and the path found. *)
  extract : World -> jstr -> jstr -> result Error (FileSystem * option jstr);
  (** [execFile(cmd, args)] of Hugo: its output and the file system
      after it, [None] on an error. *)
  exec_hugo : World -> jstr -> list jstr -> option (jstr * FileSystem)
}.

(** ** The file system calls of [fs] *)

Definition is_file (e : option Entry) : bool :=
  match e with
  | Some (File _) => true
  | _ => false
  end.

Definition is_dir (e : option Entry) : bool :=
  match e with
  | Some Dir => true
  | _ => false
  end.

(** [fs.existsSync(p)] *)
Definition existsSync (m : FileSystem) (p : jstr) : bool :=
  bool_decide (is_Some (m !! p)).

(** The directories on the way to [p], and [p] itself. *)
Fixpoint dir_chain (before s : jstr) : list jstr :=
  match s with
  | [] => [before]
  | c :: t =>
      (if Ascii.eqb c ch_slash && non_empty before then [before] else [])
        ++ dir_chain (before ++ [c]) t
  end.

(** [fs.mkdirSync(p, { recursive: true })] *)
Definition mkdirSync (m : FileSystem) (p : jstr) : result Error FileSystem :=
  let chain := dir_chain [] p in
  if existsb (fun q => is_file (m !! q)) chain
  then Throw (ErrHost "EEXIST")
  else Ok (foldr (fun q acc => <[q := Dir]> acc) m chain).

(** The root and the working directory always exist. *)
Definition dir_exists (m : FileSystem) (d : jstr) : bool :=
  bool_decide (d = "/") || bool_decide (d = ".") || is_dir (m !! d).

(** [fs.writeFileSync(p, data, "utf8")] *)
Definition writeFileSync (m : FileSystem) (p data : jstr) : result Error FileSystem :=
  if is_dir (m !! p) then Throw (ErrHost "EISDIR")
  else if negb (dir_exists m (path.dirname p)) then Throw (ErrHost "ENOENT")
  else Ok (<[p := File data]> m).

(** [fs.readFileSync(p, "utf8")] *)
Definition readFileSync (m : FileSystem) (p : jstr) : result Error jstr :=
  match m !! p with
  | Some (File c) => Ok c
  | Some Dir => Throw (ErrHost "EISDIR")
  | None => Throw (ErrHost "ENOENT")
  end.

(** [p] is [dir] or lies below it. *)
Definition within (dir p : jstr) : bool :=
  bool_decide (p = dir) || startsWith p (dir ++ "/").

(** [rmrf(p)] (lines 490-493) *)
Definition rmrf (m : FileSystem) (p : jstr) : FileSystem :=
  if negb (existsSync m p) then m
  else filter (fun kv => within p kv.1 = false) m.

(** The files of [m] below the directory [dir]. *)
Definition files_below (m : FileSystem) (dir : jstr) : FileSystem :=
  filter (fun kv => is_file (Some kv.2) = true /\ startsWith kv.1 (dir ++ "/") = true) m.

(** ** The program *)

(** A computation reads and writes the world and returns or throws. *)
Definition M (A : Type) : Type := World -> result Error A * World.

Definition ret {A : Type} (a : A) : M A := fun w => (Ok a, w).

Definition throw {A : Type} (e : Error) : M A := fun w => (Throw e, w).

Definition bind {A B : Type} (m : M A) (k : A -> M B) : M B :=
  fun w =>
    match m w with
    | (Ok a, w') => k a w'
    | (Throw e, w') => (Throw e, w')
    end.

Notation "'let*' x ':=' m 'in' k" := (bind m (fun x => k))
  (at level 10, x pattern, m at level 100, k at level 200).
Notation "m ';;' k" := (bind m (fun _ => k))
  (at level 100, k at level 200, right associativity).

(** [try { m } catch { handler }] *)
Definition try_catch {A : Type} (m : M A) (handler : Error -> M A) : M A :=
  fun w =>
    match m w with
    | (Ok a, w') => (Ok a, w')
    | (Throw e, w') => handler e w'
    end.

Definition add_event (ev : Event) (w : World) : World :=
  {| fs := fs w; previewPanel := previewPanel w;
     hugoStatusItem := hugoStatusItem w;
     isHugoServerRunning := isHugoServerRunning w;
     trace := trace w ++ [ev] |}.

Definition with_fs (m : FileSystem) (w : World) : World :=
  {| fs := m; previewPanel := previewPanel w;
     hugoStatusItem := hugoStatusItem w;
     isHugoServerRunning := isHugoServerRunning w;
     trace := trace w |}.

Definition with_panel (p : option Panel) (w : World) : World :=
  {| fs := fs w; previewPanel := p;
     hugoStatusItem := hugoStatusItem w;
     isHugoServerRunning := isHugoServerRunning w;
     trace := trace w |}.

Definition with_status (s : StatusItem) (w : World) : World :=
  {| fs := fs w; previewPanel := previewPanel w;
     hugoStatusItem := s;
     isHugoServerRunning := isHugoServerRunning w;
     trace := trace w |}.

Definition emit (ev : Event) : M unit := fun w => (Ok tt, add_event ev w).

Definition get_world : M World := fun w => (Ok w, w).

Definition put_fs (m : FileSystem) : M unit := fun w => (Ok tt, with_fs m w).

Definition put_panel (p : option Panel) : M unit := fun w => (Ok tt, with_panel p w).

Definition put_status (s : StatusItem) : M unit := fun w => (Ok tt, with_status s w).

(** A file system call: its error is thrown, its result becomes the
    file system. *)
Definition fs_call (f : FileSystem -> result Error FileSystem) : M unit :=
  let* w := get_world in
  match f (fs w) with
  | Ok m => put_fs m
  | Throw e => throw e
  end.

Definition lift {A : Type} (r : result Error A) : M A :=
  match r with
  | Ok a => ret a
  | Throw e => throw e
  end.

Section Program.
Variable h : Host.

(** [cfg.get<string>(key)], the empty string when there is none,
    trimmed. *)
Definition cfg_trimmed (v : option jstr) : jstr := trim (default [] v).

Definition err (key : jstr) (args : list jstr) : Error := ErrLocalized key args.

(** [checkHugo(cmd)] (lines 331-335) *)
Definition checkHugo (cmd : jstr) : M bool :=
  let* w := get_world in
  emit (EvExecVersion cmd);;
  ret (bool_decide (is_Some (exec_version h w cmd))).

(** [getLocalHugoVersion(hugoPath)] (lines 522-534) *)
Definition getLocalHugoVersion (hugoPath : jstr) : M (option jstr) :=
  let* w := get_world in
  emit (EvExecVersion hugoPath);;
  match exec_version h w hugoPath with
  | None => ret None
  | Some stdout => ret (match_version stdout)
  end.

(** [getLatestHugoVersion()] (lines 536-555) *)
Definition getLatestHugoVersion : M jstr :=
  let* w := get_world in
  emit EvGetLatestVersion;;
  lift (latest_version h w).

(** [vscode.window.showInformationMessage(text, ...buttons)] *)
Definition showInformationMessage (text : jstr) (buttons : list jstr) : M (option jstr) :=
  let* w := get_world in
  emit (EvShowInformationMessage text buttons);;
  ret (pick_button h w text buttons).

Definition binDir : jstr := path.join [globalStoragePath h; "bin"].
Definition tmpDir : jstr := path.join [globalStoragePath h; "tmp"].
Definition hugoBin : jstr := path.join [binDir; getHugoBinaryName (process_platform h)].

(** [fs.existsSync(p) && (await checkHugo(p))] *)
Definition exists_and_runs (p : jstr) : M bool :=
  let* w := get_world in
  if existsSync (fs w) p then checkHugo p else ret false.

(** [installHugoInternal(context, version, useExtended)] (lines 379-448) *)
Definition installHugoInternal (version : jstr) (useExtended : bool) : M unit :=
  let* platform := lift (mapPlatform (process_platform h)) in
  let* arch := lift (mapArch (process_arch h)) in
  fs_call (fun m => mkdirSync m binDir);;
  fs_call (fun m => mkdirSync m tmpDir);;
  let binPath := path.join [binDir; getHugoBinaryName (process_platform h)] in
  let isWin := bool_decide (platform = windows) in
  let fileName := archiveFileName platform arch version useExtended in
  let url := releaseBase version ++ fileName in
  let archivePath := path.join [tmpDir; fileName] in
  (* downloadFile(url, archivePath) *)
  let* w := get_world in
  emit (EvDownload url archivePath);;
  let* m := lift (download h w url archivePath) in
  put_fs m;;
  let extractDir := path.join [tmpDir; "extract"] in
  fs_call (fun m => Ok (rmrf m extractDir));;
  fs_call (fun m => mkdirSync m extractDir);;
  let* w := get_world in
  emit (EvExtract archivePath extractDir);;
  let* unpacked := lift (extract h w archivePath extractDir) in
  put_fs unpacked.1;;
  match unpacked.2 with
  | None => throw (err "error.hugoBinaryNotFound" [fileName])
  | Some src =>
      fs_call (fun m =>
        match readFileSync m src with
        | Ok data => writeFileSync m binPath data
        | Throw e => Throw e
        end);;
      let* ok := checkHugo binPath in
      if negb ok then throw (err "error.hugoNotExecutable" [])
      else ret tt
  end.

(** [installHugo(context)] (lines 357-377) *)
Definition installHugo : M unit :=
  let version := cfg_trimmed (cfg_hugoVersion h) in
  let* version :=
    if negb (non_empty version) then
      try_catch getLatestHugoVersion
        (fun _ =>
           emit (EvShowWarningMessage (localize h "warn.hugoLatestVersionFailed" []));;
           ret "0.152.2")
    else ret version in
  let useExtended := default true (cfg_useExtended h) in
  installHugoInternal version useExtended.

(** [ensureHugo(context, forceInstall)] (lines 252-300) *)
Definition ensureHugo (forceInstall : bool) : M jstr :=
  let userPath := cfg_trimmed (cfg_hugoPath h) in
  let autoDownload := default true (cfg_autoDownload h) in
  if non_empty userPath then
    let* ok := checkHugo userPath in
    if ok then ret userPath
    else throw (err "error.hugoInvalid" [userPath])
  else
    let* onPath := if negb forceInstall then checkHugo "hugo" else ret false in
    if onPath then ret "hugo"
    else
      let* managed := if negb forceInstall then exists_and_runs hugoBin else ret false in
      if managed then ret hugoBin
      else if negb autoDownload && negb forceInstall then
        throw (err "error.hugoNotFound" [])
      else
        let installLabel := localize h "button.install" [] in
        let cancelLabel := localize h "button.cancel" [] in
        let* choice := showInformationMessage (localize h "info.confirmInstall" [])
                         [installLabel; cancelLabel] in
        if negb (bool_decide (choice = Some installLabel)) then
          throw (err "error.installCanceled" [])
        else
          installHugo;;
          let* ok := exists_and_runs hugoBin in
          if ok then ret hugoBin
          else throw (err "error.installFailed" []).

(** [resolveInstalledHugo(context)] (lines 495-520) *)
Definition resolveInstalledHugo : M (option jstr) :=
  let userPath := cfg_trimmed (cfg_hugoPath h) in
  let* configured := if non_empty userPath then checkHugo userPath else ret false in
  if configured then ret (Some userPath)
  else
    let* onPath := checkHugo "hugo" in
    if onPath then ret (Some "hugo")
    else
      let* managed := exists_and_runs hugoBin in
      if managed then ret (Some hugoBin) else ret None.

(** [ensurePinnedHugoOnStartup(context)] (lines 302-329) *)
Definition ensurePinnedHugoOnStartup : M unit :=
  let pinned := cfg_trimmed (cfg_hugoVersion h) in
  if negb (non_empty pinned) then ret tt
  else
    let* hugoPath := resolveInstalledHugo in
    match hugoPath with
    | None => installHugoInternal pinned (default true (cfg_useExtended h))
    | Some hugoPath =>
        let* localVer := getLocalHugoVersion hugoPath in
        match localVer with
        | Some v =>
            if negb (bool_decide (v = pinned))
            then installHugoInternal pinned (default true (cfg_useExtended h))
            else ret tt
        | None => installHugoInternal pinned (default true (cfg_useExtended h))
        end
    end.

(** [isHugoProject(workspace)] (lines 858-866) *)
Definition isHugoProject (m : FileSystem) (workspace : jstr) : bool :=
  existsb (fun f => existsSync m (path.join [workspace; f]))
    ["config.toml"; "config.yaml"; "config.yml"; "hugo.toml"].

(** [!workspace] is true for [undefined] and for the empty string. *)
Definition open_workspace : option jstr :=
  match workspaceFolder h with
  | Some ws => if non_empty ws then Some ws else None
  | None => None
  end.

(** [updateHugoStatus()] (lines 607-634) *)
Definition updateHugoStatus : M unit :=
  let* w := get_world in
  let hidden := {| status_text := status_text (hugoStatusItem w);
                   status_command := status_command (hugoStatusItem w);
                   status_visible := false |} in
  match open_workspace with
  | None => put_status hidden
  | Some workspace =>
      if negb (isHugoProject (fs w) workspace) then put_status hidden
      else
        let* hugoPath := resolveInstalledHugo in
        match hugoPath with
        | None =>
            put_status {| status_text := "$(warning) Hugo Install Needed";
                          status_command := "hugoPreview.installHugo";
                          status_visible := true |}
        | Some hugoPath =>
            let* ver := getLocalHugoVersion hugoPath in
            let versionText := default "Detected" ver in
            let* w := get_world in
            put_status {| status_text :=
                            if isHugoServerRunning w
                            then "$(sync~spin) Hugo " ++ versionText
                            else "$(rocket) Hugo " ++ versionText;
                          status_command := "hugoPreview.showControls";
                          status_visible := true |}
        end
  end.

(** [checkHugoUpdateOnStartup(context)] (lines 567-605) *)
Definition checkHugoUpdateOnStartup : M unit :=
  let pinnedVersion := cfg_trimmed (cfg_hugoVersion h) in
  if non_empty pinnedVersion then emit EvConsoleLog
  else
    let* hugoPath := resolveInstalledHugo in
    match hugoPath with
    | None => ret tt
    | Some hugoPath =>
        let* localVer := getLocalHugoVersion hugoPath in
        match localVer with
        | None => ret tt
        | Some localVer =>
            let* latestVer := getLatestHugoVersion in
            if negb (isNewer (host_Number h) latestVer localVer) then ret tt
            else
              let updateLabel := localize h "button.update" [] in
              let laterLabel := localize h "button.later" [] in
              let* choice :=
                showInformationMessage
                  (localize h "info.hugoUpdateAvailable" [latestVer; localVer])
                  [updateLabel; laterLabel] in
              if negb (bool_decide (choice = Some updateLabel)) then ret tt
              else
                installHugoInternal latestVer (default true (cfg_useExtended h));;
                emit (EvShowInformationMessage
                        (localize h "info.hugoUpdated" [latestVer]) []);;
                updateHugoStatus
        end
    end.

(** [execFileAsync(cmd, args)] (lines 231-245), resolved to its
    standard output. *)
Definition execFileAsync (cmd : jstr) (args : list jstr) : M jstr :=
  let* w := get_world in
  emit (EvExecFile cmd args);;
  match exec_hugo h w cmd args with
  | None => throw (ErrCommandFailed cmd args)
  | Some (stdout, m) => put_fs m;; ret stdout
  end.

(** [resolveHtmlPathByHugoList(opts)] (lines 868-927) *)
Definition resolveHtmlPathByHugoList (hugo workspace outDir contentRelPath : jstr) : M jstr :=
  let* stdout := execFileAsync hugo ["--source"; workspace; "list"; "all"] in
  lift (resolveHtmlPath_of_stdout (host_URL_pathname h) outDir contentRelPath stdout).

(** What [openPreview] has at hand when it starts the build. *)
Record PreviewJob : Type := {
  job_hugo : jstr;
  job_workspace : jstr;
  job_contentDir : jstr;
  job_outDir : jstr;
  job_relPath : jstr;
  job_dstMdPath : jstr
}.

Definition runRoot : jstr := path.join [globalStoragePath h; "run"].
Definition contentDir : jstr := path.join [runRoot; "content"].
Definition outDir : jstr := path.join [runRoot; "public"].

(** [norm] of [openPreview] *)
Definition norm (p : jstr) : jstr := path.resolve (process_cwd h) [p].

(** The test of lines 116-119: the document is the content directory
    or lies below it. *)
Definition in_content (workspace docPath : jstr) : bool :=
  let contentRoot := path.join [workspace; "content"] in
  startsWith (norm docPath) (norm contentRoot ++ path.sep)
  || bool_decide (norm docPath = norm contentRoot).

(** [openPreview] up to and including the copy of the document
    (lines 81-128). *)
Definition openPreview_copy : M PreviewJob :=
  match activeTextEditor h with
  | None => throw (err "error.noMarkdown" [])
  | Some doc =>
      if negb (bool_decide (languageId doc = "markdown")) then
        throw (err "error.notMarkdown" [])
      else
        match open_workspace with
        | None => throw (err "error.noWorkspace" [])
        | Some workspace =>
            let* hugo := ensureHugo false in
            fs_call (fun m => mkdirSync m contentDir);;
            fs_call (fun m => mkdirSync m outDir);;
            let contentRoot := path.join [workspace; "content"] in
            let docPath := doc_fsPath doc in
            if negb (in_content workspace docPath) then
              throw (err "error.notContent" [])
            else
              let relPath := path.relative (process_cwd h) contentRoot docPath in
              let dstMdPath := path.join [contentDir; relPath] in
              fs_call (fun m => mkdirSync m (path.dirname dstMdPath));;
              fs_call (fun m => writeFileSync m dstMdPath (getText doc));;
              ret {| job_hugo := hugo; job_workspace := workspace;
                     job_contentDir := contentDir; job_outDir := outDir;
                     job_relPath := relPath; job_dstMdPath := dstMdPath |}
        end
  end.

(** [openPreview] from the build on (lines 133-206). *)
Definition openPreview_show (job : PreviewJob) : M unit :=
  execFileAsync (job_hugo job)
    ["--source"; job_workspace job; "--contentDir"; job_contentDir job;
     "--destination"; job_outDir job;
     "--buildDrafts"; "--buildFuture"; "--buildExpired"];;
  let* htmlPath :=
    resolveHtmlPathByHugoList (job_hugo job) (job_workspace job)
      (job_outDir job) (job_relPath job) in
  let* w := get_world in
  if negb (existsSync (fs w) htmlPath) then
    throw (err "error.htmlNotGenerated" [htmlPath])
  else
    let* html := lift (readFileSync (fs w) htmlPath) in
    let fileName := path.basename (job_relPath job) None in
    (match previewPanel w with
     | None =>
         emit (EvCreateWebviewPanel fileName);;
         put_panel (Some {| panel_title := fileName; panel_html := [] |})
     | Some p =>
         put_panel (Some {| panel_title := fileName; panel_html := panel_html p |});;
         emit EvReveal
     end);;
    let rootUri := asWebviewUri h (job_outDir job) in
    let html := rewriteRootPaths html rootUri in
    let html := mark_html html in
    put_panel (Some {| panel_title := fileName; panel_html := html |});;
    emit EvOnDidSaveTextDocument.

(** [openPreview(context)] (lines 81-207) *)
Definition openPreview : M unit :=
  let* job := openPreview_copy in
  openPreview_show job.
End Program.

(** ** The Hugo server process (lines 703-856) *)

(** [startHugoServer] is an [async] function that tests
    [hugoServerProcess], then awaits [ensureHugo], then spawns the
    child.  While it awaits, and while a child that was sent a signal
    has not exited yet, other calls and other events run.  The state
    below holds the variable of the program and the child processes of
    the operating system; a label is one uninterrupted piece of the
    program, run in answer to a call or to an event. *)
Module Server.

Record State : Type := {
  (** the variable [hugoServerProcess], a child being named by its
      number *)
  hugoServerProcess : option nat;
  (** the children that were spawned and have not exited *)
  alive : list nat;
  (** the number of children spawned so far *)
  spawned : nat;
  (** the calls of [startHugoServer] that await [ensureHugo] *)
  starting : nat;
  (** the children whose exit a [restartHugoServer] awaits *)
  restarting : list nat
}.

Inductive Outcome : Type :=
  | CleanFailed      (* [cleanPublicDir] throws *)
  | SpawnThrew       (* [spawn] throws *)
  | Spawned.         (* [spawn] returns a child *)

Inductive Label : Type :=
  | CallStart                         (* [startHugoServer], lines 704-715 *)
  | EnsureHugoRejected                (* the awaited [ensureHugo] throws *)
  | EnsureHugoResolved (o : Outcome)  (* [startHugoServer], lines 716-825 *)
  | CallStop                          (* [stopHugoServer], lines 827-851 *)
  | CallRestart                       (* [restartHugoServer], line 854 *)
  | ProcessExit (p : nat)             (* the event [exit] of child [p] *)
  | ProcessError (p : nat).           (* the event [error] of child [p] *)

Definition init : State :=
  {| hugoServerProcess := None; alive := []; spawned := 0;
     starting := 0; restarting := [] |}.

Definition set_process (v : option nat) (st : State) : State :=
  {| hugoServerProcess := v; alive := alive st; spawned := spawned st;
     starting := starting st; restarting := restarting st |}.

(** Lines 704-715: the guard, then the call is suspended.  A
    workspace folder is taken to be open. *)
Definition startHugoServer_enter (st : State) : State :=
  match hugoServerProcess st with
  | Some _ => st
  | None =>
      {| hugoServerProcess := None; alive := alive st;
         spawned := spawned st; starting := S (starting st);
         restarting := restarting st |}
  end.

(** Lines 716-825, run when [ensureHugo] has returned. *)
Definition startHugoServer_resume (o : Outcome) (st : State) : State :=
  match o with
  | CleanFailed =>
      {| hugoServerProcess := hugoServerProcess st; alive := alive st;
         spawned := spawned st; starting := pred (starting st);
         restarting := restarting st |}
  | SpawnThrew =>
      {| hugoServerProcess := None; alive := alive st;
         spawned := spawned st; starting := pred (starting st);
         restarting := restarting st |}
  | Spawned =>
      {| hugoServerProcess := Some (spawned st);
         alive := spawned st :: alive st;
         spawned := S (spawned st); starting := pred (starting st);
         restarting := restarting st |}
  end.

(** Lines 827-851 up to [proc.kill()]: the variable is cleared and the
    child is sent a signal; it is alive until it exits. *)
Definition stopHugoServer (st : State) : State :=
  match hugoServerProcess st with
  | None => st
  | Some _ => set_process None st
  end.

(** Line 854: [await stopHugoServer()]; with no child the promise is
    resolved at once and [startHugoServer] is entered. *)
Definition restartHugoServer (st : State) : State :=
  match hugoServerProcess st with
  | None => startHugoServer_enter st
  | Some p =>
      {| hugoServerProcess := None; alive := alive st;
         spawned := spawned st; starting := starting st;
         restarting := p :: restarting st |}
  end.

Fixpoint enter_times (n : nat) (st : State) : State :=
  match n with
  | O => st
  | S n' => enter_times n' (startHugoServer_enter st)
  end.

(** The handlers of [exit] (lines 793-824 and 840-847): the variable
    is cleared; every [restartHugoServer] that awaited this child
    enters [startHugoServer]. *)
Definition on_exit (p : nat) (st : State) : State :=
  let waiting := length (filter (fun q => q = p) (restarting st)) in
  enter_times waiting
    {| hugoServerProcess := None;
       alive := filter (fun q => q <> p) (alive st);
       spawned := spawned st; starting := starting st;
       restarting := filter (fun q => q <> p) (restarting st) |}.

(** The handler of [error] (lines 783-791). *)
Definition on_error (p : nat) (st : State) : State := set_process None st.

(** A label can be run when what it answers is there. *)
Definition enabled (st : State) (l : Label) : bool :=
  match l with
  | CallStart | CallStop | CallRestart => true
  | EnsureHugoRejected | EnsureHugoResolved _ => bool_decide (0 < starting st)%nat
  | ProcessExit p | ProcessError p => bool_decide (p ∈ alive st)
  end.

Definition step (st : State) (l : Label) : State :=
  match l with
  | CallStart => startHugoServer_enter st
  | EnsureHugoRejected =>
      {| hugoServerProcess := hugoServerProcess st; alive := alive st;
         spawned := spawned st; starting := pred (starting st);
         restarting := restarting st |}
  | EnsureHugoResolved o => startHugoServer_resume o st
  | CallStop => stopHugoServer st
  | CallRestart => restartHugoServer st
  | ProcessExit p => on_exit p st
  | ProcessError p => on_error p st
  end.

(** The state after a run, [None] when a label could not be run. *)
Fixpoint run (st : State) (ls : list Label) : option State :=
  match ls with
  | [] => Some st
  | l :: rest => if enabled st l then run (step st l) rest else None
  end.

Definition reachable (st : State) : Prop :=
  exists ls, run init ls = Some st.

End Server.

(** ** Segments of paths *)

(** A segment that [normalize_segs] keeps on its way. *)
Definition kept_segment (seg : jstr) : Prop := seg <> "" /\ seg <> ".".

(** A segment that names a file or a directory. *)
Definition name_segment (seg : jstr) : Prop :=
  seg <> "" /\ seg <> "." /\ seg <> "..".

(** A segment without a slash in it that is not empty. *)
Definition clean_segment (seg : jstr) : Prop := seg <> [] /\ ch_slash ∉ seg.

(** The path that [path.normalize] makes of the segments it kept, the
    last one first. *)
Definition render (absolute trailing : bool) (res : list jstr) : jstr :=
  let n := intercalate "/" (rev res) in
  if negb (non_empty n) then
    if absolute then "/"
    else if trailing then "./" else "."
  else
    let n := if trailing then n ++ "/" else n in
    if absolute then "/" ++ n else n.

(** The shape of a path joined from arguments of which the last is a
    name. *)
Record named_path (absolute : bool) (dirs : list jstr) (name p : jstr) : Prop := {
  named_eq : p = (if absolute then "/" else []) ++ intercalate "/" (dirs ++ [name]);
  named_clean : Forall clean_segment (dirs ++ [name]);
  named_normal : path.normalize_segs (negb absolute) [] (dirs ++ [name]) = name :: rev dirs
}.

(** The arguments of [path.join] that count. *)
Definition join_parts (args : list jstr) : list jstr :=
  filter (fun a => non_empty a = true) args.

(** Whether [path.join] of the arguments is absolute, and whether it
    ends in a separator: the first and the last argument that count
    decide. *)
Definition join_absolute (args : list jstr) : bool :=
  default false (path.isAbsolute <$> head (join_parts args)).

Definition join_trailing (args : list jstr) : bool :=
  default false (path.trailingSeparator <$> last (join_parts args)).

(** ** Predicates of the statements *)

Definition is_download (ev : Event) : bool :=
  match ev with
  | EvDownload _ _ => true
  | _ => false
  end.

(** The events by which the program builds the site or changes the
    preview panel. *)
Definition builds_or_shows (ev : Event) : bool :=
  match ev with
  | EvExecFile _ _ | EvCreateWebviewPanel _ | EvReveal
  | EvOnDidSaveTextDocument => true
  | _ => false
  end.

(** From [w] to [w'] the preview panel stays as it is, and the events
    added to the trace all satisfy [P]. *)
Definition advances (P : Event -> Prop) (w w' : World) : Prop :=
  previewPanel w' = previewPanel w
  /\ exists evs, trace w' = trace w ++ evs /\ Forall P evs.

(** Every run of [m] advances the world in that way. *)
Definition emits_only {A : Type} (P : Event -> Prop) (m : M A) : Prop :=
  forall w, advances P w (m w).2.

(** The directory [dir] of [m] holds no file but, perhaps, one at
    [dst]. *)
Definition no_other_file (m : FileSystem) (dir dst : jstr) : Prop :=
  forall p, p <> dst -> files_below m dir !! p = None.

(** A world and a host for examples: a Linux machine with Hugo 0.152.2
    on the [PATH], the site in [/w], the document
    [/w/content/posts/a.md] in the editor, and nothing configured. *)
Definition empty_world : World :=
  {| fs := ∅; previewPanel := None;
     hugoStatusItem := {| status_text := []; status_command := [];
                          status_visible := false |};
     isHugoServerRunning := false; trace := [] |}.

Definition demo_host : Host :=
  {| activeTextEditor :=
       Some {| languageId := "markdown";
               doc_fsPath := "/w/content/posts/a.md";
               getText := "# A" |};
     workspaceFolder := Some "/w";
     globalStoragePath := "/s";
     cfg_hugoPath := None;
     cfg_hugoVersion := None;
     cfg_autoDownload := None;
     cfg_useExtended := None;
     process_platform := "linux";
     process_arch := "x64";
     process_cwd := "/";
     localize := fun key _ => key;
     host_Number := decimal_Number;
     host_URL_pathname := fun _ => None;
     asWebviewUri := fun p => "https://file+.vscode-resource.vscode-cdn.net" ++ p;
     exec_version := fun _ cmd =>
       if bool_decide (cmd = "hugo")
       then Some "hugo v0.152.2+extended linux/amd64"
       else None;
     pick_button := fun _ _ _ => None;
     latest_version := fun _ => Throw (ErrHost "offline");
     download := fun w _ _ => Ok (fs w);
     extract := fun w _ _ => Ok (fs w, None);
     exec_hugo := fun w _ _ => Some ([], fs w) |}.

(** A listing of one page, and a host whose Hugo prints it and whose
    [URL] knows its permalink. *)
Definition demo_listing : jstr :=
  "path,permalink" ++ [ch_newline]
  ++ "content/posts/a.md,https://example.org/posts/a/" ++ [ch_newline].

Definition listing_host : Host :=
  {| activeTextEditor := activeTextEditor demo_host;
     workspaceFolder := workspaceFolder demo_host;
     globalStoragePath := globalStoragePath demo_host;
     cfg_hugoPath := None;
     cfg_hugoVersion := None;
     cfg_autoDownload := None;
     cfg_useExtended := None;
     process_platform := process_platform demo_host;
     process_arch := process_arch demo_host;
     process_cwd := process_cwd demo_host;
     localize := localize demo_host;
     host_Number := host_Number demo_host;
     host_URL_pathname := fun permalink =>
       if bool_decide (permalink = "https://example.org/posts/a/")
       then Some "/posts/a/" else None;
     asWebviewUri := asWebviewUri demo_host;
     exec_version := exec_version demo_host;
     pick_button := pick_button demo_host;
     latest_version := latest_version demo_host;
     download := download demo_host;
     extract := extract demo_host;
     exec_hugo := fun w _ _ => Some (demo_listing, fs w) |}.

(** A listing whose first data row is shorter than its header. *)
Definition short_row_listing : jstr :=
  "permalink,path" ++ [ch_newline]
  ++ "x" ++ [ch_newline]
  ++ "https://example.org/a/,content/a.md".

(** [demo_host] with another document in the editor. *)
Definition with_document (doc : TextDocument) (h : Host) : Host :=
  {| activeTextEditor := Some doc;
     workspaceFolder := workspaceFolder h;
     globalStoragePath := globalStoragePath h;
     cfg_hugoPath := cfg_hugoPath h;
     cfg_hugoVersion := cfg_hugoVersion h;
     cfg_autoDownload := cfg_autoDownload h;
     cfg_useExtended := cfg_useExtended h;
     process_platform := process_platform h;
     process_arch := process_arch h;
     process_cwd := process_cwd h;
     localize := localize h;
     host_Number := host_Number h;
     host_URL_pathname := host_URL_pathname h;
     asWebviewUri := asWebviewUri h;
     exec_version := exec_version h;
     pick_button := pick_button h;
     latest_version := latest_version h;
     download := download h;
     extract := extract h;
     exec_hugo := exec_hugo h |}.

Definition document_b : TextDocument :=
  {| languageId := "markdown";
     doc_fsPath := "/w/content/posts/b.md";
     getText := "# B" |}.

(** The job of the preview of [posts/a.md] on [demo_host], and the
    world that its copy step leaves. *)
Definition demo_job : PreviewJob :=
  {| job_hugo := "hugo";
     job_workspace := "/w";
     job_contentDir := "/s/run/content";
     job_outDir := "/s/run/public";
     job_relPath := "posts/a.md";
     job_dstMdPath := "/s/run/content/posts/a.md" |}.

Definition demo_copied : World := (openPreview_copy demo_host empty_world).2.

(** [demo_host] with other settings. *)
Definition with_settings (hugoPath hugoVersion : option jstr) (h : Host) : Host :=
  {| activeTextEditor := activeTextEditor h;
     workspaceFolder := workspaceFolder h;
     globalStoragePath := globalStoragePath h;
     cfg_hugoPath := hugoPath;
     cfg_hugoVersion := hugoVersion;
     cfg_autoDownload := cfg_autoDownload h;
     cfg_useExtended := cfg_useExtended h;
     process_platform := process_platform h;
     process_arch := process_arch h;
     process_cwd := process_cwd h;
     localize := localize h;
     host_Number := host_Number h;
     host_URL_pathname := host_URL_pathname h;
     asWebviewUri := asWebviewUri h;
     exec_version := exec_version h;
     pick_button := pick_button h;
     latest_version := latest_version h;
     download := download h;
     extract := extract h;
     exec_hugo := exec_hugo h |}.

(** From [w] to [w'] the program has only run commands with the
    argument [version]: the file system is the same. *)
Definition only_asked_versions (w w' : World) : Prop :=
  fs w' = fs w
  /\ exists evs, trace w' = trace w ++ evs
       /\ Forall (fun e => exists cmd, e = EvExecVersion cmd) evs.

(** ** Searching a directory (lines 218-229 and 450-462) *)

(** What [fs.readdirSync(dir, { withFileTypes: true })] returns: the
    entries of a directory in the order of the listing, each a file, a
    directory with its own entries, or something else (a symbolic
    link, a socket). *)
#[local] Unset Elimination Schemes.
Inductive Dirent : Type :=
  | DirentFile (name : jstr)
  | DirentDirectory (name : jstr) (entries : list Dirent)
  | DirentOther (name : jstr).
#[local] Set Elimination Schemes.

(** [findFirstFile(dir, filename)] calls itself on the directories
    among the entries of [dir].  [findFirstFile_at] is one pass of its
    loop, at the entry [e] of [dir]: the value that the pass returns,
    [None] when the loop goes on; the inner loop is the call for a
    directory.  [if (found)] is false for [null] and for the empty
    string. *)
Fixpoint findFirstFile_at (dir filename : jstr) (e : Dirent) {struct e} : option jstr :=
  match e with
  | DirentFile name =>
      let p := path.join [dir; name] in
      if bool_decide (name = filename) then Some p else None
  | DirentDirectory name sub =>
      let p := path.join [dir; name] in
      let found :=
        (fix loop (entries : list Dirent) : option jstr :=
           match entries with
           | [] => None
           | e' :: rest =>
               match findFirstFile_at p filename e' with
               | Some found => Some found
               | None => loop rest
               end
           end) sub in
      match found with
      | Some found => if non_empty found then Some found else None
      | None => None
      end
  | DirentOther _ => None
  end.

(** [findFirstFile(dir, filename)], [entries] being the listing of
    [dir]. *)
Fixpoint findFirstFile (dir filename : jstr) (entries : list Dirent) : option jstr :=
  match entries with
  | [] => None
  | e :: rest =>
      match findFirstFile_at dir filename e with
      | Some found => Some found
      | None => findFirstFile dir filename rest
      end
  end.

(** [findHugoBinary(dir, isWin)], in the same way. *)
Fixpoint findHugoBinary_at (dir : jstr) (isWin : bool) (e : Dirent) {struct e} : option jstr :=
  let target : jstr := if isWin then "hugo.exe" else "hugo" in
  match e with
  | DirentFile name =>
      let p := path.join [dir; name] in
      if bool_decide (name = target) then Some p else None
  | DirentDirectory name sub =>
      let p := path.join [dir; name] in
      let found :=
        (fix loop (entries : list Dirent) : option jstr :=
           match entries with
           | [] => None
           | e' :: rest =>
               match findHugoBinary_at p isWin e' with
               | Some found => Some found
               | None => loop rest
               end
           end) sub in
      match found with
      | Some found => if non_empty found then Some found else None
      | None => None
      end
  | DirentOther _ => None
  end.

Fixpoint findHugoBinary (dir : jstr) (isWin : bool) (entries : list Dirent) : option jstr :=
  match entries with
  | [] => None
  | e :: rest =>
      match findHugoBinary_at dir isWin e with
      | Some found => Some found
      | None => findHugoBinary dir isWin rest
      end
  end.

(** ** Cleaning the directory [public] (lines 692-701) *)

(** [fs.rmSync(p, { recursive: true, force: true })] *)
Definition rmSync (m : FileSystem) (p : jstr) : FileSystem :=
  filter (fun kv => within p kv.1 = false) m.

(** A name that an entry of a directory can have. *)
Definition entry_name (name : jstr) : bool :=
  non_empty name && negb (bool_decide (name = ".")) && negb (bool_decide (name = ".."))
  && negb (bool_decide (ch_slash ∈ name)).

(** The name under which the path [k] is an entry of the directory
    [dir], when it is one. *)
Definition child_name (dir k : jstr) : option jstr :=
  if startsWith k (dir ++ "/") then
    let name := drop (length dir + 1) k in
    if entry_name name then Some name else None
  else None.

(** [fs.readdirSync(dir)]: the names of the entries of [dir].  The
    paths of the file system are taken to be normalized. *)
Definition readdirSync (m : FileSystem) (dir : jstr) : result Error (list jstr) :=
  match m !! dir with
  | Some Dir => Ok (omap (child_name dir) (map_to_list m).*1)
  | Some (File _) => Throw (ErrHost "ENOTDIR")
  | None => Throw (ErrHost "ENOENT")
  end.

(** [cleanPublicDir(outDir)] *)
Definition cleanPublicDir (m : FileSystem) (outDir : jstr) : result Error FileSystem :=
  if negb (existsSync m outDir) then Ok m
  else
    match readdirSync m outDir with
    | Throw e => Throw e
    | Ok entries =>
        Ok (foldl (fun acc entry => rmSync acc (path.join [outDir; entry])) m entries)
    end.

(** ** The log of the server (lines 729-761 and 793-824) *)

(** [/pattern/i.test(msg)] for a pattern of letters and spaces. *)
Definition test_i (pattern msg : jstr) : bool :=
  includes (lower <$> msg) (lower <$> pattern).

(** The line terminators among the 8-bit code units, and the
    characters of words. *)
Definition is_line_terminator (c : ascii) : bool :=
  let n := nat_of_ascii c in (n =? 10)%nat || (n =? 13)%nat.

Definition is_word_char (c : ascii) : bool :=
  let n := nat_of_ascii c in
  ((48 <=? n)%nat && (n <=? 57)%nat) || ((65 <=? n)%nat && (n <=? 90)%nat)
  || ((97 <=? n)%nat && (n <=? 122)%nat) || (n =? 95)%nat.

(** [ERROR\b] at the front of [s]. *)
Definition error_here (s : jstr) : bool :=
  startsWith s "ERROR"
  && match drop 5 s with
     | [] => true
     | c :: _ => negb (is_word_char c)
     end.

(** [/^ERROR\b/m.test(msg)]: [ERROR] at the start of a line. *)
Fixpoint error_line (line_start : bool) (msg : jstr) : bool :=
  match msg with
  | [] => false
  | c :: t => (line_start && error_here msg) || error_line (is_line_terminator c) t
  end.

(** The three tests of [onLog]. *)
Definition has_error (msg : jstr) : bool :=
  error_line true msg
  || test_i "error building site" msg
  || test_i "failed to create page" msg.

(** The variables [logBuf], [started] and [hasErrorLine] of one call
    of [startHugoServer]. *)
Record ServerLog : Type := {
  logBuf : jstr;
  started : bool;
  hasErrorLine : bool
}.

Definition new_log : ServerLog :=
  {| logBuf := ""; started := false; hasErrorLine := false |}.

(** [onLog(chunk)], [msg] being the text of the chunk: the variables
    after it, and whether the server was announced as started
    ([isHugoServerRunning] set, the status updated, the message
    [info.hugoStartServer] shown). *)
Definition onLog (msg : jstr) (st : ServerLog) : ServerLog * bool :=
  let announce := negb (started st) && test_i "Web Server is available" msg in
  ({| logBuf := logBuf st ++ msg;
      started := if announce then true else started st;
      hasErrorLine := if has_error msg then true else hasErrorLine st |},
   announce).

(** The chunks of the log one after the other: the variables after
    them and the number of announcements. *)
Fixpoint onLog_all (chunks : list jstr) (st : ServerLog) (announced : nat) : ServerLog * nat :=
  match chunks with
  | [] => (st, announced)
  | msg :: rest =>
      let '(st', announce) := onLog msg st in
      onLog_all rest st' (if announce then S announced else announced)
  end.

(** [\.md:\d+:\d+:[^\n]+] at the front of [s]. *)
Definition location_here (s : jstr) : bool :=
  startsWith s ".md:"
  && let '(line, r1) := span_digits (drop 4 s) in
     non_empty line
     && match r1 with
        | c1 :: r1' =>
            Ascii.eqb c1 (ascii_of_nat 58)
            && let '(col, r2) := span_digits r1' in
               non_empty col
               && match r2 with
                  | c2 :: c3 :: _ =>
                      Ascii.eqb c2 (ascii_of_nat 58) && negb (Ascii.eqb c3 ch_newline)
                  | _ => false
                  end
        | [] => false
        end.

(** [.+\.md:\d+:\d+:[^\n]+] at the front of [s]: a location after one
    or more characters of the line. *)
Fixpoint location_after (s : jstr) : bool :=
  match s with
  | [] => false
  | c :: t =>
      if is_line_terminator c then false
      else location_here t || location_after t
  end.

(** The text up to the first line feed. *)
Fixpoint up_to_newline (s : jstr) : jstr :=
  match s with
  | [] => []
  | c :: t => if Ascii.eqb c ch_newline then [] else c :: up_to_newline t
  end.

(** [logBuf.match(/content\/.+\.md:\d+:\d+:[^\n]+/)]: the text of the
    leftmost match.  The last part of the pattern takes all that is
    left of the line, so the match ends where the line ends, whichever
    location in the line the middle part stops at. *)
Fixpoint match_summary (s : jstr) : option jstr :=
  match s with
  | [] => None
  | c :: t =>
      if startsWith s "content/" && location_after (drop 8 s)
      then Some (up_to_newline s)
      else match_summary t
  end.

(** What the handler of [exit] tells the user: that the server failed,
    with the summary found in the log ([None] stands for the text
    [error.seeOutput]), that it exited unexpectedly, or nothing. *)
Inductive ExitReport : Type :=
  | ServerFailed (summary : option jstr)
  | ExitedUnexpectedly
  | NoReport.

(** The handler of [exit] (lines 793-824), [code] being [null] or a
    number. *)
Definition exit_report (code : option Z) (st : ServerLog) : ExitReport :=
  if negb (Z.eqb (default 0%Z code) 0) || hasErrorLine st then
    ServerFailed (match_summary (logBuf st))
  else if negb (started st) then ExitedUnexpectedly
  else NoReport.

(** ** Startup (lines 36-39) *)

(** The chain of promises of [activate]: the pinned version is seen
    to, then the check for updates, then the status bar; a rejection
    anywhere skips the rest and is dropped. *)
Definition startup (h : Host) : M unit :=
  try_catch
    (ensurePinnedHugoOnStartup h;;
     checkHugoUpdateOnStartup h;;
     updateHugoStatus h)
    (fun _ => ret tt).

(** ** The server used one step at a time *)

(** What the user does or what happens to the child, each brought to
    its end before the next begins: a start whose [ensureHugo] returns
    or throws; a stop, the child exiting at once; a restart, the child
    exiting and the new start running to its end ([None]: its
    [ensureHugo] throws); the child exiting by itself. *)
Inductive Operation : Type :=
  | OpStart (o : option Server.Outcome)
  | OpStop
  | OpRestart (o : option Server.Outcome)
  | OpCrash.

(** The end of a start that awaits [ensureHugo]. *)
Definition resume_label (o : option Server.Outcome) : Server.Label :=
  match o with
  | Some o => Server.EnsureHugoResolved o
  | None => Server.EnsureHugoRejected
  end.

(** The pieces of the program that an operation runs, in their order:
    a start returns at once when the variable holds a child. *)
Definition operation_labels (op : Operation) (st : Server.State) : list Server.Label :=
  match op, Server.hugoServerProcess st with
  | OpStart o, None => [Server.CallStart; resume_label o]
  | OpStart _, Some _ => [Server.CallStart]
  | OpStop, None => [Server.CallStop]
  | OpStop, Some p => [Server.CallStop; Server.ProcessExit p]
  | OpRestart o, None => [Server.CallRestart; resume_label o]
  | OpRestart o, Some p => [Server.CallRestart; Server.ProcessExit p; resume_label o]
  | OpCrash, None => []
  | OpCrash, Some p => [Server.ProcessExit p]
  end.

Fixpoint run_operations (ops : list Operation) (st : Server.State) : option Server.State :=
  match ops with
  | [] => Some st
  | op :: rest =>
      match Server.run st (operation_labels op st) with
      | Some st' => run_operations rest st'
      | None => None
      end
  end.

(** ** Predicates of the further statements *)

(** The last thing that happened before [w'] is that [p] was run with
    the argument [version], with success. *)
Definition just_ran (h : Host) (p : jstr) (w' : World) : Prop :=
  exists w0, w' = add_event (EvExecVersion p) w0 /\ is_Some (exec_version h w0 p).

(** From [w] to [w'] nothing was downloaded and the file system is the
    same. *)
Definition downloads_nothing (w w' : World) : Prop :=
  fs w' = fs w
  /\ exists evs, trace w' = trace w ++ evs /\ Forall (fun ev => is_download ev = false) evs.

(** From [w] to [w'] only the trace has grown. *)
Definition same_state (w w' : World) : Prop :=
  fs w' = fs w /\ previewPanel w' = previewPanel w
  /\ hugoStatusItem w' = hugoStatusItem w
  /\ isHugoServerRunning w' = isHugoServerRunning w.




(** Every run of [m] leaves the status bar item as it is. *)
Definition keeps_status {A : Type} (m : M A) : Prop :=
  forall w, hugoStatusItem (m w).2 = hugoStatusItem w.

(** A run of [m] that throws has left the status bar item as it is. *)
Definition keeps_status_when_throwing {A : Type} (m : M A) : Prop :=
  forall w, match m w with
            | (Throw _, w') => hugoStatusItem w' = hugoStatusItem w
            | (Ok _, _) => True
            end.

(** A run of decimal digits that is not empty. *)
Definition digit_run (s : jstr) : Prop :=
  s <> [] /\ Forall (fun c => is_digit c = true) s.

(** [text] holds a [v] followed by three runs of digits with dots
    between them. *)
Definition holds_version (text : jstr) : Prop :=
  exists before d1 d2 d3 after,
    text = before ++ "v" ++ d1 ++ "." ++ d2 ++ "." ++ d3 ++ after
    /\ digit_run d1 /\ digit_run d2 /\ digit_run d3.

(** The first three components of [v] are numbers: none is NaN. *)
Definition numeric_version (Number : jstr -> jsnum) (v : jstr) : Prop :=
  forall i, i < 3 -> component Number v i <> JNaN.

(** Two numbers have the same value. *)
Definition js_same (a b : jsnum) : Prop :=
  match a, b with
  | JNegInf, JNegInf | JPosInf, JPosInf => True
  | JFin x, JFin y => Qeq x y
  | _, _ => False
  end.

(** At the position [i] of [html] the pattern of the tag matches: the
    text [<html], its letters in any case, and further on a [>]. *)
Definition html_tag_at (html : jstr) (i : nat) : Prop :=
  startsWith (lower <$> drop i html) "<html" = true /\ ch_gt ∈ drop (i + 5) html.

(** The child that the variable [hugoServerProcess] holds is alive and
    is the child spawned last; the children alive are distinct and
    were spawned. *)
Definition tracks_newest_child (st : Server.State) : Prop :=
  (forall p, Server.hugoServerProcess st = Some p ->
     S p = Server.spawned st /\ p ∈ Server.alive st)
  /\ NoDup (Server.alive st)
  /\ (forall q, q ∈ Server.alive st -> q < Server.spawned st).

(** No call is under way, and the children alive are the one that the
    variable holds. *)
Definition one_child (st : Server.State) : Prop :=
  Server.starting st = 0 /\ Server.restarting st = []
  /\ Server.alive st = match Server.hugoServerProcess st with
                       | Some p => [p]
                       | None => []
                       end.

(** The directory [dir] with the listing [entries] holds, in itself or
    in a directory below it, a file named [name] at the path [p]. *)
Inductive holds_file (name : jstr) : jstr -> list Dirent -> jstr -> Prop :=
  | holds_file_here (dir : jstr) (entries : list Dirent) :
      DirentFile name ∈ entries ->
      holds_file name dir entries (path.join [dir; name])
  | holds_file_below (dir sub_name : jstr) (entries sub : list Dirent) (p : jstr) :
      DirentDirectory sub_name sub ∈ entries ->
      holds_file name (path.join [dir; sub_name]) sub p ->
      holds_file name dir entries p.

(** The file system is a tree below [dir]: what exists below [dir] is
    an entry of [dir] or lies below an entry of [dir] that exists. *)
Definition tree_below (m : FileSystem) (dir : jstr) : Prop :=
  forall q, is_Some (m !! q) -> startsWith q (dir ++ "/") = true ->
    exists name, entry_name name = true
      /\ is_Some (m !! (dir ++ "/" ++ name))
      /\ within (dir ++ "/" ++ name) q = true.

(** ** Further hosts and file systems for examples *)

(** [demo_host] with another answer to the setting [autoDownload]. *)
Definition with_autoDownload (autoDownload : option bool) (h : Host) : Host :=
  {| activeTextEditor := activeTextEditor h;
     workspaceFolder := workspaceFolder h;
     globalStoragePath := globalStoragePath h;
     cfg_hugoPath := cfg_hugoPath h;
     cfg_hugoVersion := cfg_hugoVersion h;
     cfg_autoDownload := autoDownload;
     cfg_useExtended := cfg_useExtended h;
     process_platform := process_platform h;
     process_arch := process_arch h;
     process_cwd := process_cwd h;
     localize := localize h;
     host_Number := host_Number h;
     host_URL_pathname := host_URL_pathname h;
     asWebviewUri := asWebviewUri h;
     exec_version := exec_version h;
     pick_button := pick_button h;
     latest_version := latest_version h;
     download := download h;
     extract := extract h;
     exec_hugo := exec_hugo h |}.

(** [demo_host] with other answers of the network and of the user. *)
Definition with_answers (latest : World -> result Error jstr)
    (pick : World -> jstr -> list jstr -> option jstr) (h : Host) : Host :=
  {| activeTextEditor := activeTextEditor h;
     workspaceFolder := workspaceFolder h;
     globalStoragePath := globalStoragePath h;
     cfg_hugoPath := cfg_hugoPath h;
     cfg_hugoVersion := cfg_hugoVersion h;
     cfg_autoDownload := cfg_autoDownload h;
     cfg_useExtended := cfg_useExtended h;
     process_platform := process_platform h;
     process_arch := process_arch h;
     process_cwd := process_cwd h;
     localize := localize h;
     host_Number := host_Number h;
     host_URL_pathname := host_URL_pathname h;
     asWebviewUri := asWebviewUri h;
     exec_version := exec_version h;
     pick_button := pick;
     latest_version := latest;
     download := download h;
     extract := extract h;
     exec_hugo := exec_hugo h |}.

(** A host on which the latest release is the installed one. *)
Definition up_to_date_host : Host :=
  with_answers (fun _ => Ok "0.152.2") (fun _ _ _ => None) demo_host.

(** A host on which an install succeeds: the archive holds the binary,
    and the binary runs once it is in its place. *)
Definition installing_host : Host :=
  {| activeTextEditor := activeTextEditor demo_host;
     workspaceFolder := workspaceFolder demo_host;
     globalStoragePath := globalStoragePath demo_host;
     cfg_hugoPath := None;
     cfg_hugoVersion := Some "0.152.2";
     cfg_autoDownload := None;
     cfg_useExtended := None;
     process_platform := process_platform demo_host;
     process_arch := process_arch demo_host;
     process_cwd := process_cwd demo_host;
     localize := localize demo_host;
     host_Number := host_Number demo_host;
     host_URL_pathname := host_URL_pathname demo_host;
     asWebviewUri := asWebviewUri demo_host;
     exec_version := fun w cmd =>
       if bool_decide (cmd = "/s/bin/hugo") && is_file (fs w !! cmd)
       then Some "hugo v0.152.2+extended linux/amd64"
       else None;
     pick_button := fun _ _ buttons => head buttons;
     latest_version := latest_version demo_host;
     download := fun w _ dest => Ok (<[dest := File "archive"]> (fs w));
     extract := fun w _ extractDir =>
       Ok (<[extractDir ++ "/hugo" := File "binary"]> (fs w), Some (extractDir ++ "/hugo"));
     exec_hugo := exec_hugo demo_host |}.


(** An archive of Hugo for Windows as it is unpacked, the binary in a
    directory of its own. *)
Definition unpacked_archive : list Dirent :=
  [DirentFile "LICENSE"; DirentOther "latest";
   DirentDirectory "bin" [DirentFile "README.md"; DirentFile "hugo.exe"]].

(* ================================================================= *)
(** * Part II: properties *)
(* ================================================================= *)

(** ** Strings *)

Lemma startsWith_spec (s p : jstr) : startsWith s p = true <-> exists rest, s = p ++ rest.
Proof.
  revert s. induction p as [|a p IH]; intros s; simpl.
  - split; [intros _; exists s; reflexivity | reflexivity].
  - destruct s as [|c s].
    + split; [congruence | intros (rest & Hrest); discriminate].
    + rewrite andb_true_iff, Ascii.eqb_eq, IH. split.
      * intros (-> & rest & ->). exists rest. reflexivity.
      * intros (rest & Hrest). injection Hrest as -> ->. split; [reflexivity | exists rest; reflexivity].
Qed.

(** ** Replacing a literal pattern *)

Lemma startsWith_app (p rest : jstr) : startsWith (p ++ rest) p = true.
Proof. apply startsWith_spec. exists rest. reflexivity. Qed.

Lemma startsWith_false (s p : jstr) :
  startsWith s p = false <-> forall rest, s <> p ++ rest.
Proof.
  split.
  - intros H rest ->. rewrite startsWith_app in H. discriminate.
  - intros H. destruct (startsWith s p) eqn:E; [|reflexivity].
    apply startsWith_spec in E as (rest & ->). destruct (H rest). reflexivity.
Qed.

Lemma GetSubstitution_literal (matched before after template : jstr) :
  ch_dollar ∉ template ->
  GetSubstitution matched before after template = template.
Proof.
  induction template as [|c t IH]; intros Hd; [reflexivity|].
  simpl. destruct (Ascii.eqb c ch_dollar) eqn:E.
  - apply Ascii.eqb_eq in E. subst c. destruct Hd. left.
  - rewrite IH; [reflexivity|]. intros Hin. apply Hd. right. exact Hin.
Qed.

Lemma replace_go_skip (pat template before u s : jstr) :
  replace_go pat template before (length u) (u ++ s)
  = replace_go pat template (before ++ u) 0 s.
Proof.
  revert before. induction u as [|c u IH]; intros before; simpl.
  - rewrite app_nil_r. reflexivity.
  - rewrite IH, <- app_assoc. reflexivity.
Qed.

Lemma replace_go_before (pat template before before' : jstr) (k : nat) (s : jstr) :
  ch_dollar ∉ template ->
  replace_go pat template before k s = replace_go pat template before' k s.
Proof.
  intros Hlit.
  revert before before' k. induction s as [|c t IH]; intros before before' k; [reflexivity|].
  simpl. destruct k as [|k]; [|apply IH].
  rewrite !GetSubstitution_literal by exact Hlit.
  destruct (startsWith (c :: t) pat); f_equal; apply IH.
Qed.

Lemma replace_go_match (c : ascii) (p template before s : jstr) :
  ch_dollar ∉ template ->
  replace_go (c :: p) template before 0 ((c :: p) ++ s)
  = template ++ replace_go (c :: p) template (before ++ c :: p) 0 s.
Proof.
  intros Hlit. cbn [app replace_go].
  change (startsWith (c :: p ++ s) (c :: p)) with (startsWith ((c :: p) ++ s) (c :: p)).
  rewrite startsWith_app, GetSubstitution_literal by exact Hlit.
  f_equal. replace (length (c :: p) - 1) with (length p) by (simpl; lia).
  rewrite replace_go_skip, <- app_assoc. reflexivity.
Qed.

Section ReplaceLiteral.
Variables pat template : jstr.
Hypothesis pat_non_empty : pat <> [].
Hypothesis template_literal : ch_dollar ∉ template.

Lemma replace_all_nil : replace_all pat template [] = [].
Proof. reflexivity. Qed.

Lemma replace_all_match (s : jstr) :
  replace_all pat template (pat ++ s) = template ++ replace_all pat template s.
Proof.
  unfold replace_all. destruct pat as [|c p]; [congruence|].
  rewrite replace_go_match by exact template_literal.
  f_equal. apply replace_go_before, template_literal.
Qed.

Lemma replace_all_keep (c : ascii) (t : jstr) :
  startsWith (c :: t) pat = false ->
  replace_all pat template (c :: t) = c :: replace_all pat template t.
Proof.
  intros H. unfold replace_all. cbn [replace_go]. rewrite H.
  f_equal. apply replace_go_before, template_literal.
Qed.

(** A pattern replaced by itself leaves the text as it is. *)
Lemma replace_all_same (s : jstr) :
  template = pat -> replace_all pat template s = s.
Proof.
  intros Heq. remember (length s) as n eqn:Hn. revert s Hn.
  induction n as [n IH] using lt_wf_ind. intros s Hn.
  destruct s as [|c t]; [reflexivity|].
  destruct (startsWith (c :: t) pat) eqn:E.
  - apply startsWith_spec in E as (rest & Hrest). rewrite Hrest.
    rewrite replace_all_match. f_equal; [exact Heq|].
    apply (IH (length rest)); [|reflexivity].
    subst n. rewrite Hrest, length_app.
    destruct pat; [congruence | simpl; lia].
  - rewrite replace_all_keep by exact E. f_equal.
    apply (IH (length t)); [subst n; simpl; lia | reflexivity].
Qed.
End ReplaceLiteral.

(** ** [rewriteRootPaths] *)

Lemma first_quote (a b x y : jstr) :
  ch_quote ∉ a -> ch_quote ∉ b ->
  a ++ ch_quote :: x = b ++ ch_quote :: y -> a = b /\ x = y.
Proof.
  revert b. induction a as [|a0 a IH]; intros [|b0 b] Ha Hb Heq; simpl in Heq.
  - injection Heq as ->. split; reflexivity.
  - injection Heq as <- _. destruct Hb. left.
  - injection Heq as -> _. destruct Ha. left.
  - injection Heq as -> Heq. destruct (IH b) as [-> ->]; [| |exact Heq|split; reflexivity].
    + intros Hin. apply Ha. right. exact Hin.
    + intros Hin. apply Hb. right. exact Hin.
Qed.

Lemma quote_slash_clash (b r x y : jstr) :
  ch_slash ∉ b -> ch_quote ∉ r ->
  b ++ ch_quote :: x = r ++ ch_slash :: y -> False.
Proof.
  revert r. induction b as [|b0 b IH]; intros [|r0 r] Hb Hr Heq; simpl in Heq.
  - discriminate.
  - injection Heq as <- _. destruct Hr. left.
  - injection Heq as -> _. destruct Hb. left.
  - injection Heq as _ Heq. apply (IH r); [| |exact Heq].
    + intros Hin. apply Hb. right. exact Hin.
    + intros Hin. apply Hr. right. exact Hin.
Qed.

Lemma root_pattern_non_empty (a : jstr) : root_pattern a <> [].
Proof. unfold root_pattern. destruct a; discriminate. Qed.

Lemma not_elem_of_app_3 (c : ascii) (x y z : jstr) :
  c ∉ x -> c ∉ y -> c ∉ z -> c ∉ x ++ y ++ z.
Proof. intros Hx Hy Hz. rewrite !elem_of_app. tauto. Qed.

Section OneAttribute.
Variable rootUri : jstr.
Hypothesis rootUri_quote : ch_quote ∉ rootUri.
Hypothesis rootUri_dollar : ch_dollar ∉ rootUri.

Lemma root_template_literal (a : jstr) : plain_attr a -> ch_dollar ∉ root_template a rootUri.
Proof.
  intros (_ & _ & Hd). unfold root_template. rewrite !elem_of_app.
  intros [H | [H | [H | H]]]; [tauto | | tauto | ].
  - apply list_elem_of_singleton in H. discriminate.
  - apply list_elem_of_singleton in H. discriminate.
Qed.

Lemma rewrite_attr_match (a s : jstr) :
  plain_attr a ->
  rewrite_attr a rootUri (root_pattern a ++ s)
  = root_template a rootUri ++ rewrite_attr a rootUri s.
Proof.
  intros Ha. unfold rewrite_attr.
  apply replace_all_match; [apply root_pattern_non_empty | apply root_template_literal, Ha].
Qed.

Lemma rewrite_attr_keep (a : jstr) (c : ascii) (t : jstr) :
  plain_attr a ->
  startsWith (c :: t) (root_pattern a) = false ->
  rewrite_attr a rootUri (c :: t) = c :: rewrite_attr a rootUri t.
Proof.
  intros Ha H. unfold rewrite_attr.
  apply replace_all_keep; [apply root_template_literal, Ha | exact H].
Qed.

(** Every text is empty, or starts with the pattern, or starts with a
    code unit that is kept. *)
Lemma rewrite_attr_cases (a s : jstr) :
  plain_attr a ->
  s = []
  \/ (exists rest, s = root_pattern a ++ rest
        /\ rewrite_attr a rootUri s = root_template a rootUri ++ rewrite_attr a rootUri rest)
  \/ (exists c t, s = c :: t /\ startsWith s (root_pattern a) = false
        /\ rewrite_attr a rootUri s = c :: rewrite_attr a rootUri t).
Proof.
  intros Ha. destruct s as [|c t]; [left; reflexivity | right].
  destruct (startsWith (c :: t) (root_pattern a)) eqn:E.
  - left. apply startsWith_spec in E as (rest & ->). exists rest.
    split; [reflexivity | apply rewrite_attr_match, Ha].
  - right. exists c, t. split; [reflexivity|]. split; [reflexivity|].
    apply rewrite_attr_keep; assumption.
Qed.

(** *** With a root that does not start with a slash *)

Variables (r0 : ascii) (root_tail : jstr).
Hypothesis rootUri_cons : rootUri = r0 :: root_tail.
Hypothesis rootUri_slash : r0 <> ch_slash.

(** The text that replaces a match starts no match, however the text
    goes on. *)
Lemma template_starts_no_match (a b a' : jstr) (y : jstr) :
  ch_quote ∉ a' -> ch_quote ∉ b ->
  startsWith (a' ++ [ch_quote] ++ rootUri ++ [ch_slash] ++ y) (root_pattern b) = false.
Proof.
  intros Ha' Hb. apply startsWith_false. intros rest Heq.
  unfold root_pattern in Heq. rewrite rootUri_cons in Heq.
  rewrite <- app_assoc in Heq. simpl in Heq.
  apply first_quote in Heq as [_ Heq]; [|assumption..].
  injection Heq as Heq _. apply rootUri_slash. exact Heq.
Qed.

Lemma root_starts_no_match (b r y : jstr) :
  ch_slash ∉ b -> ch_quote ∉ r ->
  startsWith (r ++ [ch_slash] ++ y) (root_pattern b) = false.
Proof.
  intros Hb Hr. apply startsWith_false. intros rest Heq.
  unfold root_pattern in Heq. rewrite <- app_assoc in Heq. simpl in Heq.
  symmetry in Heq. apply quote_slash_clash in Heq; assumption.
Qed.

Lemma rewrite_attr_through_root (b r y : jstr) :
  plain_attr b -> ch_quote ∉ r ->
  rewrite_attr b rootUri (r ++ [ch_slash] ++ y)
  = r ++ [ch_slash] ++ rewrite_attr b rootUri y.
Proof.
  intros Hb. induction r as [|c r IH]; intros Hr.
  - simpl. apply rewrite_attr_keep; [exact Hb|].
    apply (root_starts_no_match b [] y); [apply Hb | exact Hr].
  - simpl. rewrite rewrite_attr_keep; [| exact Hb |].
    + f_equal. apply IH. intros Hin. apply Hr. right. exact Hin.
    + apply (root_starts_no_match b (c :: r) y); [apply Hb | exact Hr].
Qed.

(** A pass over a text that starts with a replaced match leaves the
    replacement as it is. *)
Lemma rewrite_attr_through_template (a b y : jstr) :
  plain_attr a -> plain_attr b ->
  rewrite_attr b rootUri (root_template a rootUri ++ y)
  = root_template a rootUri ++ rewrite_attr b rootUri y.
Proof.
  intros Ha Hb. unfold root_template. rewrite <- !app_assoc.
  assert (Hgen : forall a', ch_quote ∉ a' ->
    rewrite_attr b rootUri (a' ++ [ch_quote] ++ rootUri ++ [ch_slash] ++ y)
    = a' ++ [ch_quote] ++ rootUri ++ [ch_slash] ++ rewrite_attr b rootUri y).
  { induction a' as [|c a' IH]; intros Ha'.
    - cbn [app]. rewrite rewrite_attr_keep; [| exact Hb |].
      + f_equal. apply rewrite_attr_through_root; [exact Hb | exact rootUri_quote].
      + apply (template_starts_no_match a b [] y); [exact Ha' | apply Hb].
    - cbn [app]. rewrite rewrite_attr_keep; [| exact Hb |].
      + f_equal. apply IH. intros Hin. apply Ha'. right. exact Hin.
      + apply (template_starts_no_match a b (c :: a') y); [exact Ha' | apply Hb]. }
  apply Hgen, Ha.
Qed.

Lemma rewrite_attr_head_slash (a t : jstr) :
  plain_attr a ->
  startsWith (rewrite_attr a rootUri t) [ch_slash] = true ->
  startsWith t [ch_slash] = true.
Proof.
  intros Ha H.
  destruct (rewrite_attr_cases a t Ha) as [-> | [(rest & -> & Heq) | (c & t' & -> & _ & Heq)]].
  - discriminate.
  - rewrite Heq in H. unfold root_template in H. destruct Ha as (_ & Hsl & _).
    destruct a as [|a0 a]; [discriminate|].
    cbn [app startsWith] in H. apply andb_true_iff in H as [H _]. apply Ascii.eqb_eq in H.
    destruct Hsl. rewrite H. left.
  - rewrite Heq in H. exact H.
Qed.

(** A match at the front of the rewritten text was at the front of the
    text, and was a match of another attribute. *)
Lemma rewrite_attr_head (a b s : jstr) :
  plain_attr a -> ch_quote ∉ b ->
  startsWith (rewrite_attr a rootUri s) (root_pattern b) = true ->
  startsWith s (root_pattern b) = true /\ startsWith s (root_pattern a) = false.
Proof.
  intros Ha. revert b. induction s as [|c t IH]; intros b Hb H.
  - unfold root_pattern in H. destruct b; discriminate.
  - destruct (startsWith (c :: t) (root_pattern a)) eqn:E.
    + apply startsWith_spec in E as (rest & Hrest). rewrite Hrest in H.
      rewrite rewrite_attr_match in H by exact Ha.
      unfold root_template in H. rewrite <- !app_assoc in H.
      rewrite (template_starts_no_match a b a) in H; [discriminate | apply Ha | exact Hb].
    + split; [|reflexivity].
      rewrite rewrite_attr_keep in H by assumption.
      destruct b as [|b0 b].
      * unfold root_pattern in *. cbn [app startsWith] in *.
        apply andb_true_iff in H as [Hq H]. rewrite Hq. cbn [andb].
        apply (rewrite_attr_head_slash a t Ha). exact H.
      * unfold root_pattern in *. cbn [app startsWith] in *.
        apply andb_true_iff in H as [Hq H]. rewrite Hq. cbn [andb].
        apply (IH b); [|exact H]. intros Hin. apply Hb. right. exact Hin.
Qed.
End OneAttribute.

Section OtherAttribute.
Variable rootUri : jstr.
Hypothesis rootUri_dollar : ch_dollar ∉ rootUri.

(** A pass for one attribute leaves the pattern of another one as it
    is, when the name of the first is not the end of the name of the
    second. *)
Lemma rewrite_attr_through_pattern (a b s : jstr) :
  plain_attr a -> plain_attr b -> ~ a `suffix_of` b ->
  rewrite_attr a rootUri (root_pattern b ++ s)
  = root_pattern b ++ rewrite_attr a rootUri s.
Proof.
  intros Ha Hb. unfold root_pattern at 1 2. rewrite <- !app_assoc.
  destruct Hb as (Hb & _ & _). revert Hb.
  induction b as [|c b IH]; intros Hb Hsuf.
  - cbn [app].
    assert (Hne : a <> []).
    { intros ->. apply Hsuf. exists []. reflexivity. }
    rewrite rewrite_attr_keep; [| exact rootUri_dollar | exact Ha |].
    + f_equal. apply rewrite_attr_keep; [exact rootUri_dollar | exact Ha |].
      apply startsWith_false. intros rest Heq. unfold root_pattern in Heq.
      destruct a as [|a0 a]; [congruence|]. injection Heq as Heq _.
      destruct Ha as (_ & Hsl & _). apply Hsl. rewrite <- Heq. left.
    + apply startsWith_false. intros rest Heq. unfold root_pattern in Heq.
      rewrite <- app_assoc in Heq.
      apply (first_quote [] a) in Heq as [Heq _]; [congruence | | apply Ha].
      apply not_elem_of_nil.
  - cbn [app]. rewrite rewrite_attr_keep; [| exact rootUri_dollar | exact Ha |].
    + f_equal. apply IH.
      * intros Hin. apply Hb. right. exact Hin.
      * intros Hs. apply Hsuf. apply suffix_cons_r. exact Hs.
    + apply startsWith_false. intros rest Heq. unfold root_pattern in Heq.
      rewrite <- app_assoc in Heq.
      apply (first_quote (c :: b) a) in Heq as [Heq _]; [| exact Hb | apply Ha].
      apply Hsuf. rewrite Heq. reflexivity.
Qed.
End OtherAttribute.

(** *** The three passes together *)

Lemma plain_href : plain_attr "href=".
Proof. repeat split; apply (bool_decide_unpack _); vm_compute; exact I. Qed.

Lemma plain_src : plain_attr "src=".
Proof. repeat split; apply (bool_decide_unpack _); vm_compute; exact I. Qed.

Lemma plain_action : plain_attr "action=".
Proof. repeat split; apply (bool_decide_unpack _); vm_compute; exact I. Qed.

Lemma root_attrs_plain (a : jstr) : a ∈ root_attrs -> plain_attr a.
Proof.
  unfold root_attrs. rewrite !elem_of_cons, elem_of_nil.
  intros [-> | [-> | [-> | []]]]; [apply plain_href | apply plain_src | apply plain_action].
Qed.

Lemma root_attrs_no_suffix (a b : jstr) :
  a ∈ root_attrs -> b ∈ root_attrs -> a <> b -> ~ a `suffix_of` b.
Proof.
  unfold root_attrs. rewrite !elem_of_cons, !elem_of_nil.
  intros [-> | [-> | [-> | []]]] [-> | [-> | [-> | []]]] Hne; try congruence;
    apply (bool_decide_unpack _); vm_compute; exact I.
Qed.

Lemma rewrite_attr_empty_root (a s : jstr) :
  plain_attr a -> rewrite_attr a [] s = s.
Proof.
  intros Ha. unfold rewrite_attr. apply replace_all_same.
  - apply root_pattern_non_empty.
  - apply root_template_literal; [apply not_elem_of_nil | exact Ha].
  - reflexivity.
Qed.

Lemma rewriteRootPaths_empty_root (s : jstr) : rewriteRootPaths s [] = s.
Proof.
  unfold rewriteRootPaths.
  rewrite (rewrite_attr_empty_root "href=" s plain_href).
  rewrite (rewrite_attr_empty_root "src=" s plain_src).
  apply (rewrite_attr_empty_root "action=" s plain_action).
Qed.

Lemma root_cases (rootUri : jstr) :
  startsWith rootUri "/" = false ->
  rootUri = [] \/ exists r0 root_tail, rootUri = r0 :: root_tail /\ r0 <> ch_slash.
Proof.
  intros H. destruct rootUri as [|r0 root_tail]; [left; reflexivity | right].
  exists r0, root_tail. split; [reflexivity|]. intros ->. discriminate.
Qed.

Section ThreePasses.
Variable rootUri : jstr.
Hypothesis rootUri_quote : ch_quote ∉ rootUri.
Hypothesis rootUri_slash : startsWith rootUri "/" = false.
Hypothesis rootUri_dollar : ch_dollar ∉ rootUri.

Lemma rewriteRootPaths_match (a s : jstr) :
  a ∈ root_attrs ->
  rewriteRootPaths (root_pattern a ++ s) rootUri
  = root_template a rootUri ++ rewriteRootPaths s rootUri.
Proof.
  intros Ha. destruct (root_cases rootUri rootUri_slash) as [Hroot | (r0 & root_tail & Hroot & Hr0)].
  { rewrite !Hroot, !rewriteRootPaths_empty_root. reflexivity. }
  pose proof (fun a b y => rewrite_attr_through_template rootUri rootUri_quote
                rootUri_dollar r0 root_tail Hroot Hr0 a b y) as Htpl.
  pose proof (rewrite_attr_through_pattern rootUri rootUri_dollar) as Hpat.
  pose proof (rewrite_attr_match rootUri rootUri_dollar) as Hmatch.
  unfold rewriteRootPaths, root_attrs in *.
  rewrite !elem_of_cons, elem_of_nil in Ha.
  destruct Ha as [-> | [-> | [-> | []]]].
  - rewrite Hmatch by apply plain_href.
    rewrite !Htpl; [reflexivity | apply plain_href | apply plain_action
                    | apply plain_href | apply plain_src].
  - rewrite Hpat; [| apply plain_href | apply plain_src
                   | apply (bool_decide_unpack _); vm_compute; exact I].
    rewrite Hmatch by apply plain_src.
    rewrite Htpl; [reflexivity | apply plain_src | apply plain_action].
  - rewrite Hpat; [| apply plain_href | apply plain_action
                   | apply (bool_decide_unpack _); vm_compute; exact I].
    rewrite Hpat; [| apply plain_src | apply plain_action
                   | apply (bool_decide_unpack _); vm_compute; exact I].
    rewrite Hmatch by apply plain_action. reflexivity.
Qed.

Lemma rewriteRootPaths_template (a y : jstr) :
  a ∈ root_attrs ->
  rewriteRootPaths (root_template a rootUri ++ y) rootUri
  = root_template a rootUri ++ rewriteRootPaths y rootUri.
Proof.
  intros Ha. destruct (root_cases rootUri rootUri_slash) as [Hroot | (r0 & root_tail & Hroot & Hr0)].
  { rewrite !Hroot, !rewriteRootPaths_empty_root. reflexivity. }
  pose proof (fun a b y => rewrite_attr_through_template rootUri rootUri_quote
                rootUri_dollar r0 root_tail Hroot Hr0 a b y) as Htpl.
  apply root_attrs_plain in Ha.
  unfold rewriteRootPaths.
  rewrite !Htpl; [reflexivity | exact Ha | apply plain_action | exact Ha
                  | apply plain_src | exact Ha | apply plain_href].
Qed.

Lemma rewriteRootPaths_head (b s : jstr) :
  b ∈ root_attrs ->
  startsWith (rewriteRootPaths s rootUri) (root_pattern b) = true ->
  startsWith s (root_pattern b) = true.
Proof.
  intros Hb H. destruct (root_cases rootUri rootUri_slash) as [Hroot | (r0 & root_tail & Hroot & Hr0)].
  { rewrite Hroot, rewriteRootPaths_empty_root in H. exact H. }
  pose proof (fun a b s => rewrite_attr_head rootUri rootUri_dollar r0 root_tail
                Hroot Hr0 a b s) as Hhead.
  apply root_attrs_plain in Hb. destruct Hb as (Hq & _).
  unfold rewriteRootPaths in H.
  apply Hhead in H as [H _]; [| apply plain_action | exact Hq].
  apply Hhead in H as [H _]; [| apply plain_src | exact Hq].
  apply Hhead in H as [H _]; [| apply plain_href | exact Hq].
  exact H.
Qed.

Lemma rewriteRootPaths_keep (c : ascii) (t : jstr) :
  (forall a, a ∈ root_attrs -> startsWith (c :: t) (root_pattern a) = false) ->
  rewriteRootPaths (c :: t) rootUri = c :: rewriteRootPaths t rootUri.
Proof.
  intros Hno. destruct (root_cases rootUri rootUri_slash) as [Hroot | (r0 & root_tail & Hroot & Hr0)].
  { rewrite !Hroot, !rewriteRootPaths_empty_root. reflexivity. }
  pose proof (fun a b s => rewrite_attr_head rootUri rootUri_dollar r0 root_tail
                Hroot Hr0 a b s) as Hhead.
  pose proof (rewrite_attr_keep rootUri rootUri_dollar) as Hkeep.
  assert (H1 : rewrite_attr "href=" rootUri (c :: t) = c :: rewrite_attr "href=" rootUri t).
  { apply Hkeep; [apply plain_href|]. apply Hno. apply list_elem_of_In; simpl; auto. }
  assert (H2 : rewrite_attr "src=" rootUri (c :: rewrite_attr "href=" rootUri t)
               = c :: rewrite_attr "src=" rootUri (rewrite_attr "href=" rootUri t)).
  { apply Hkeep; [apply plain_src|].
    destruct (startsWith _ (root_pattern "src=")) eqn:E; [|reflexivity].
    rewrite <- H1 in E. apply Hhead in E as [E _]; [| apply plain_href | apply plain_src].
    rewrite Hno in E; [discriminate|]. apply list_elem_of_In; simpl; auto. }
  unfold rewriteRootPaths. rewrite H1, H2.
  apply Hkeep; [apply plain_action|].
  destruct (startsWith _ (root_pattern "action=")) eqn:E; [|reflexivity].
  rewrite <- H2, <- H1 in E.
  apply Hhead in E as [E _]; [| apply plain_src | apply plain_action].
  apply Hhead in E as [E _]; [| apply plain_href | apply plain_action].
  rewrite Hno in E; [discriminate|]. apply list_elem_of_In; simpl; auto.
Qed.

(** A text is empty, or starts with one of the three patterns, or
    starts with a code unit at which none of them starts. *)
Lemma root_pattern_cases (s : jstr) :
  s = []
  \/ (exists a rest, a ∈ root_attrs /\ s = root_pattern a ++ rest)
  \/ (exists c t, s = c :: t
        /\ forall a, a ∈ root_attrs -> startsWith s (root_pattern a) = false).
Proof.
  destruct s as [|c t]; [left; reflexivity | right].
  destruct (existsb (fun a => startsWith (c :: t) (root_pattern a)) root_attrs) eqn:E.
  - left. apply existsb_exists in E as (a & Ha & Hs).
    apply startsWith_spec in Hs as (rest & Hrest).
    exists a, rest. split; [apply list_elem_of_In, Ha | exact Hrest].
  - right. exists c, t. split; [reflexivity|]. intros a Ha.
    destruct (startsWith (c :: t) (root_pattern a)) eqn:Hs; [|reflexivity].
    assert (existsb (fun a => startsWith (c :: t) (root_pattern a)) root_attrs = true).
    { apply existsb_exists. exists a. split; [apply list_elem_of_In, Ha | exact Hs]. }
    congruence.
Qed.

Lemma rewriteRootPaths_Rewritten (html : jstr) :
  Rewritten rootUri html (rewriteRootPaths html rootUri).
Proof.
  remember (length html) as n eqn:Hn. revert html Hn.
  induction n as [n IH] using lt_wf_ind. intros html Hn.
  destruct (root_pattern_cases html) as [-> | [(a & rest & Ha & ->) | (c & t & -> & Hno)]].
  - apply Rewritten_end.
  - rewrite rewriteRootPaths_match by exact Ha. unfold root_template. rewrite <- !app_assoc.
    apply Rewritten_attr; [exact Ha|].
    apply (IH (length rest)); [|reflexivity].
    subst n. rewrite length_app. unfold root_pattern. rewrite length_app. simpl. lia.
  - rewrite rewriteRootPaths_keep by exact Hno.
    apply Rewritten_keep; [exact Hno|].
    apply (IH (length t)); [subst n; simpl; lia | reflexivity].
Qed.

Lemma rewriteRootPaths_idempotent (html : jstr) :
  rewriteRootPaths (rewriteRootPaths html rootUri) rootUri = rewriteRootPaths html rootUri.
Proof.
  remember (length html) as n eqn:Hn. revert html Hn.
  induction n as [n IH] using lt_wf_ind. intros html Hn.
  destruct (root_pattern_cases html) as [-> | [(a & rest & Ha & ->) | (c & t & -> & Hno)]].
  - reflexivity.
  - rewrite rewriteRootPaths_match by exact Ha.
    rewrite rewriteRootPaths_template by exact Ha. f_equal.
    apply (IH (length rest)); [|reflexivity].
    subst n. rewrite length_app. unfold root_pattern. rewrite length_app. simpl. lia.
  - rewrite rewriteRootPaths_keep by exact Hno.
    rewrite rewriteRootPaths_keep.
    + f_equal. apply (IH (length t)); [subst n; simpl; lia | reflexivity].
    + intros a Ha.
      destruct (startsWith _ (root_pattern a)) eqn:E; [|reflexivity].
      rewrite <- rewriteRootPaths_keep in E by exact Hno.
      apply rewriteRootPaths_head in E; [|exact Ha].
      rewrite Hno in E; [discriminate | exact Ha].
Qed.
End ThreePasses.

(** C10 (amended).  For a root that holds no quote and no dollar sign
    and does not start with a slash, rewriting twice is rewriting once,
    and the rewriting replaces every occurrence of the three patterns
    (of [href], [src] and [action]) and changes nothing else. *)
Theorem rewriteRootPaths_benign (html rootUri : jstr) :
  ch_quote ∉ rootUri ->
  startsWith rootUri "/" = false ->
  ch_dollar ∉ rootUri ->
  rewriteRootPaths (rewriteRootPaths html rootUri) rootUri = rewriteRootPaths html rootUri
  /\ Rewritten rootUri html (rewriteRootPaths html rootUri).
Proof.
  intros Hq Hs Hd. split.
  - apply rewriteRootPaths_idempotent; assumption.
  - apply rewriteRootPaths_Rewritten; assumption.
Qed.

(** A link and the root of a web view. *)
Lemma rewriteRootPaths_benign_witness :
  rewriteRootPaths
    (rewriteRootPaths ("<a href=" ++ [ch_quote] ++ "/x" ++ [ch_quote] ++ ">") "https://h/p")
    "https://h/p"
  = rewriteRootPaths ("<a href=" ++ [ch_quote] ++ "/x" ++ [ch_quote] ++ ">") "https://h/p"
  /\ Rewritten "https://h/p" ("<a href=" ++ [ch_quote] ++ "/x" ++ [ch_quote] ++ ">")
       (rewriteRootPaths ("<a href=" ++ [ch_quote] ++ "/x" ++ [ch_quote] ++ ">") "https://h/p").
Proof.
  apply (rewriteRootPaths_benign ("<a href=" ++ [ch_quote] ++ "/x" ++ [ch_quote] ++ ">")
           "https://h/p").
  - apply (bool_decide_unpack _). vm_compute. exact I.
  - reflexivity.
  - apply (bool_decide_unpack _). vm_compute. exact I.
Defined.

(** C10 as stated fails: the root [$&] holds no quote and does not
    start with a slash; in a replacement text [$&] stands for the
    match, so each rewriting inserts the match once more. *)
Lemma rewriteRootPaths_dollar_root :
  (ch_quote ∉ ("$&" : jstr))
  /\ startsWith "$&" "/" = false
  /\ rewriteRootPaths ("href=" ++ [ch_quote] ++ "/") "$&"
     = "href=" ++ [ch_quote] ++ "href=" ++ [ch_quote] ++ "//"
  /\ rewriteRootPaths (rewriteRootPaths ("href=" ++ [ch_quote] ++ "/") "$&") "$&"
     = "href=" ++ [ch_quote] ++ "href=" ++ [ch_quote] ++ "href=" ++ [ch_quote] ++ "///"
  /\ rewriteRootPaths (rewriteRootPaths ("href=" ++ [ch_quote] ++ "/") "$&") "$&"
     <> rewriteRootPaths ("href=" ++ [ch_quote] ++ "/") "$&".
Proof.
  split; [apply (bool_decide_unpack _); vm_compute; exact I|].
  split; [reflexivity|].
  split; [vm_compute; reflexivity|].
  split; [vm_compute; reflexivity|].
  vm_compute. discriminate.
Qed.

(** ** [isNewer] *)

Lemma js_gt_irrefl (a : jsnum) : js_gt a a = false.
Proof.
  destruct a as [| |q|]; simpl; try reflexivity.
  apply negb_false_iff, Qle_bool_iff, Qle_refl.
Qed.

Lemma js_gt_asym (a b : jsnum) : js_gt a b = true -> js_gt b a = false.
Proof.
  destruct a as [| |x|], b as [| |y|]; simpl; try congruence.
  intros H. apply negb_true_iff in H.
  apply negb_false_iff, Qle_bool_iff.
  destruct (Qlt_le_dec y x) as [Hlt|Hle].
  - apply Qlt_le_weak, Hlt.
  - apply Qle_bool_iff in Hle. congruence.
Qed.

Lemma js_nan_unordered (a b : jsnum) :
  a = JNaN \/ b = JNaN -> js_gt a b = false /\ js_lt a b = false.
Proof.
  unfold js_lt. intros [-> | ->]; [destruct b | destruct a]; simpl; auto.
Qed.

Section IsNewerFacts.
Variable Number : jstr -> jsnum.

Lemma isNewer_loop_irrefl (n i : nat) (r : list jsnum) :
  isNewer_loop n i r r = false.
Proof.
  revert i. induction n as [|n IH]; intros i; simpl; [reflexivity|].
  unfold js_lt. rewrite js_gt_irrefl. apply IH.
Qed.

Lemma isNewer_loop_asym (n i : nat) (r l : list jsnum) :
  isNewer_loop n i r l = true -> isNewer_loop n i l r = false.
Proof.
  revert i. induction n as [|n IH]; intros i; simpl; [congruence|].
  unfold js_lt.
  destruct (js_gt (at_or_zero r i) (at_or_zero l i)) eqn:Hgt.
  - intros _. rewrite (js_gt_asym _ _ Hgt). reflexivity.
  - destruct (js_gt (at_or_zero l i) (at_or_zero r i)) eqn:Hlt; [congruence|].
    apply IH.
Qed.

Lemma isNewer_loop_ext (n i : nat) (r r' l l' : list jsnum) :
  (forall j, i <= j < i + n -> at_or_zero r j = at_or_zero r' j) ->
  (forall j, i <= j < i + n -> at_or_zero l j = at_or_zero l' j) ->
  isNewer_loop n i r l = isNewer_loop n i r' l'.
Proof.
  revert i. induction n as [|n IH]; intros i Hr Hl; simpl; [reflexivity|].
  rewrite (Hr i), (Hl i) by lia.
  rewrite (IH (S i)); [reflexivity| |]; intros j Hj; [apply Hr|apply Hl]; lia.
Qed.

Lemma at_or_zero_take (k j : nat) (xs : list jsnum) :
  j < k -> at_or_zero (take k xs) j = at_or_zero xs j.
Proof. intros Hj. unfold at_or_zero. rewrite lookup_take_lt by exact Hj. reflexivity. Qed.

Lemma isNewer_first_three (a a' b b' : jstr) :
  take 3 (js_split ch_dot a) = take 3 (js_split ch_dot a') ->
  take 3 (js_split ch_dot b) = take 3 (js_split ch_dot b') ->
  isNewer Number a b = isNewer Number a' b'.
Proof.
  intros Ha Hb. unfold isNewer, version_numbers.
  apply isNewer_loop_ext; intros j Hj.
  - rewrite <- (at_or_zero_take 3 j (Number <$> js_split ch_dot a)) by lia.
    rewrite <- (at_or_zero_take 3 j (Number <$> js_split ch_dot a')) by lia.
    rewrite <- !fmap_take, Ha. reflexivity.
  - rewrite <- (at_or_zero_take 3 j (Number <$> js_split ch_dot b)) by lia.
    rewrite <- (at_or_zero_take 3 j (Number <$> js_split ch_dot b')) by lia.
    rewrite <- !fmap_take, Hb. reflexivity.
Qed.

Lemma isNewer_loop_true (n i : nat) (r l : list jsnum) :
  isNewer_loop n i r l = true <->
  exists k, k < n /\ js_gt (at_or_zero r (i + k)) (at_or_zero l (i + k)) = true /\
    forall j, j < k ->
      js_gt (at_or_zero r (i + j)) (at_or_zero l (i + j)) = false /\
      js_lt (at_or_zero r (i + j)) (at_or_zero l (i + j)) = false.
Proof.
  revert i. induction n as [|n IH]; intros i; simpl.
  - split; [congruence|]. intros (k & Hk & _). lia.
  - destruct (js_gt (at_or_zero r i) (at_or_zero l i)) eqn:Hgt.
    + split; [intros _|reflexivity].
      exists 0. rewrite Nat.add_0_r. split; [lia|]. split; [exact Hgt|]. intros j Hj. lia.
    + destruct (js_lt (at_or_zero r i) (at_or_zero l i)) eqn:Hlt.
      * split; [congruence|]. intros (k & Hk & Hgk & Hbefore).
        destruct k as [|k].
        -- rewrite Nat.add_0_r in Hgk. congruence.
        -- destruct (Hbefore 0) as [_ H0]; [lia|]. rewrite Nat.add_0_r in H0. congruence.
      * rewrite IH. split.
        -- intros (k & Hk & Hgk & Hbefore). exists (S k).
           split; [lia|]. rewrite Nat.add_succ_r. split; [exact Hgk|].
           intros [|j] Hj.
           ++ rewrite Nat.add_0_r. auto.
           ++ rewrite Nat.add_succ_r. apply Hbefore. lia.
        -- intros (k & Hk & Hgk & Hbefore).
           destruct k as [|k].
           ++ rewrite Nat.add_0_r in Hgk. congruence.
           ++ exists k. split; [lia|]. rewrite Nat.add_succ_r in Hgk. split; [exact Hgk|].
              intros j Hj. specialize (Hbefore (S j)). rewrite Nat.add_succ_r in Hbefore.
              apply Hbefore. lia.
Qed.
End IsNewerFacts.

(** C9 (amended).  [isNewer] is a strict comparison: no version is newer
    than itself, and two versions are never each newer than the other.
    Only the first three components separated by dots count.  The
    answer is [true] exactly when, at the first of the three indices
    where the components differ in order, the remote one is greater.
    A component that is missing counts as 0; a component that [Number]
    maps to NaN is neither greater nor smaller than any other. *)
Theorem isNewer_strict (Number : jstr -> jsnum) :
  (forall v, isNewer Number v v = false)
  /\ (forall a b, isNewer Number a b && isNewer Number b a = false)
  /\ (forall a a' b b',
        take 3 (js_split ch_dot a) = take 3 (js_split ch_dot a') ->
        take 3 (js_split ch_dot b) = take 3 (js_split ch_dot b') ->
        isNewer Number a b = isNewer Number a' b')
  /\ (forall a b,
        isNewer Number a b = true <->
        exists k, k < 3
          /\ js_gt (component Number a k) (component Number b k) = true
          /\ forall j, j < k ->
               js_gt (component Number a j) (component Number b j) = false
               /\ js_lt (component Number a j) (component Number b j) = false)
  /\ (forall v i, js_split ch_dot v !! i = None -> component Number v i = js_zero)
  /\ (forall a b i,
        component Number a i = JNaN \/ component Number b i = JNaN ->
        js_gt (component Number a i) (component Number b i) = false
        /\ js_lt (component Number a i) (component Number b i) = false).
Proof.
  split; [|split; [|split; [|split; [|split]]]].
  - intros v. apply isNewer_loop_irrefl.
  - intros a b. destruct (isNewer Number a b) eqn:Hab; [|reflexivity].
    simpl. apply isNewer_loop_asym, Hab.
  - intros a a' b b'. apply isNewer_first_three.
  - intros a b. apply isNewer_loop_true.
  - intros v i H. unfold component, at_or_zero, version_numbers.
    rewrite list_lookup_fmap, H. reflexivity.
  - intros a b i H. apply js_nan_unordered, H.
Qed.

(** The comparison decides between two versions of Hugo, in one
    direction only. *)
Lemma isNewer_strict_witness :
  isNewer decimal_Number "0.153.0" "0.152.2" = true
  /\ isNewer decimal_Number "0.152.2" "0.153.0" = false.
Proof.
  destruct (isNewer_strict decimal_Number) as (_ & Hasym & _).
  specialize (Hasym "0.153.0" "0.152.2").
  assert (H : isNewer decimal_Number "0.153.0" "0.152.2" = true) by (vm_compute; reflexivity).
  rewrite H in Hasym. simpl in Hasym. split; [reflexivity | exact Hasym].
Defined.

(** C9 as stated fails: the third component of [1.0] is missing, and it
    counts as smaller than the third component of [1.0.1]. *)
Lemma isNewer_missing_component_is_zero :
  js_split ch_dot "1.0" !! 2 = None
  /\ js_gt (component decimal_Number "1.0.1" 2) (component decimal_Number "1.0" 2) = true
  /\ isNewer decimal_Number "1.0.1" "1.0" = true.
Proof. vm_compute. repeat split. Qed.

(** ** The program monad *)

Lemma bind_ret {A B : Type} (a : A) (k : A -> M B) (w : World) :
  bind (ret a) k w = k a w.
Proof. reflexivity. Qed.

Lemma bind_throw {A B : Type} (e : Error) (k : A -> M B) (w : World) :
  bind (throw e) k w = (Throw e, w).
Proof. reflexivity. Qed.

Lemma bind_get_world {B : Type} (k : World -> M B) (w : World) :
  bind get_world k w = k w w.
Proof. reflexivity. Qed.

Lemma bind_emit {B : Type} (ev : Event) (k : unit -> M B) (w : World) :
  bind (emit ev) k w = k tt (add_event ev w).
Proof. reflexivity. Qed.

Lemma bind_put_fs {B : Type} (m : FileSystem) (k : unit -> M B) (w : World) :
  bind (put_fs m) k w = k tt (with_fs m w).
Proof. reflexivity. Qed.

Lemma bind_lift {A B : Type} (r : result Error A) (k : A -> M B) (w : World) :
  bind (lift r) k w = match r with Ok a => k a w | Throw e => (Throw e, w) end.
Proof. destruct r; reflexivity. Qed.

Lemma bind_fs_call {B : Type} (f : FileSystem -> result Error FileSystem) (k : unit -> M B) (w : World) :
  bind (fs_call f) k w =
  match f (fs w) with
  | Ok m => k tt (with_fs m w)
  | Throw e => (Throw e, w)
  end.
Proof. unfold fs_call, bind, get_world. destruct (f (fs w)); reflexivity. Qed.

Lemma bind_assoc {A B C : Type} (m : M A) (k : A -> M B) (k' : B -> M C) (w : World) :
  bind (bind m k) k' w = bind m (fun a => bind (k a) k') w.
Proof. unfold bind. destruct (m w) as [[a|e] w']; reflexivity. Qed.

(** ** How a computation advances the world *)

Section Advances.
Variable P : Event -> Prop.

Lemma advances_refl (w : World) : advances P w w.
Proof. split; [reflexivity|]. exists []. split; [symmetry; apply app_nil_r | constructor]. Qed.

Lemma advances_trans (w1 w2 w3 : World) :
  advances P w1 w2 -> advances P w2 w3 -> advances P w1 w3.
Proof.
  intros [Hp1 (e1 & Ht1 & Hf1)] [Hp2 (e2 & Ht2 & Hf2)]. split; [congruence|].
  exists (e1 ++ e2). split.
  - rewrite Ht2, Ht1, app_assoc. reflexivity.
  - apply Forall_app; split; assumption.
Qed.

Lemma advances_add_event (ev : Event) (w : World) : P ev -> advances P w (add_event ev w).
Proof. intros H. split; [reflexivity|]. exists [ev]. split; [reflexivity|]. repeat constructor. exact H. Qed.

Lemma advances_with_fs (m : FileSystem) (w : World) : advances P w (with_fs m w).
Proof. split; [reflexivity|]. exists []. split; [symmetry; apply app_nil_r | constructor]. Qed.

Lemma advances_with_status (s : StatusItem) (w : World) : advances P w (with_status s w).
Proof. split; [reflexivity|]. exists []. split; [symmetry; apply app_nil_r | constructor]. Qed.

Lemma emits_only_ret {A : Type} (a : A) : emits_only P (ret a).
Proof. intros w. apply advances_refl. Qed.

Lemma emits_only_throw {A : Type} (e : Error) : emits_only P (@throw A e).
Proof. intros w. apply advances_refl. Qed.

Lemma emits_only_get_world : emits_only P get_world.
Proof. intros w. apply advances_refl. Qed.

Lemma emits_only_emit (ev : Event) : P ev -> emits_only P (emit ev).
Proof. intros H w. apply advances_add_event, H. Qed.

Lemma emits_only_put_fs (m : FileSystem) : emits_only P (put_fs m).
Proof. intros w. apply advances_with_fs. Qed.

Lemma emits_only_put_status (s : StatusItem) : emits_only P (put_status s).
Proof. intros w. apply advances_with_status. Qed.

Lemma emits_only_bind {A B : Type} (m : M A) (k : A -> M B) :
  emits_only P m -> (forall a, emits_only P (k a)) -> emits_only P (bind m k).
Proof.
  intros Hm Hk w. unfold bind. specialize (Hm w).
  destruct (m w) as [[a|e] w']; simpl in *.
  - eapply advances_trans; [exact Hm | apply Hk].
  - exact Hm.
Qed.

Lemma emits_only_try_catch {A : Type} (m : M A) (handler : Error -> M A) :
  emits_only P m -> (forall e, emits_only P (handler e)) -> emits_only P (try_catch m handler).
Proof.
  intros Hm Hk w. unfold try_catch. specialize (Hm w).
  destruct (m w) as [[a|e] w']; simpl in *.
  - exact Hm.
  - eapply advances_trans; [exact Hm | apply Hk].
Qed.

Lemma emits_only_lift {A : Type} (r : result Error A) : emits_only P (lift r).
Proof. destruct r; [apply emits_only_ret | apply emits_only_throw]. Qed.

Lemma emits_only_fs_call (f : FileSystem -> result Error FileSystem) : emits_only P (fs_call f).
Proof.
  unfold fs_call. apply emits_only_bind; [apply emits_only_get_world|].
  intros w. destruct (f (fs w)); [apply emits_only_put_fs | apply emits_only_throw].
Qed.
End Advances.

(** Breaks a goal [emits_only P m] down along the structure of [m]; the
    events that [m] emits are left as goals [P ev]. *)
Ltac emits_only_step :=
  lazymatch goal with
  | |- emits_only _ (bind _ _) => apply emits_only_bind; [|intros ?]
  | |- emits_only _ (try_catch _ _) => apply emits_only_try_catch; [|intros ?]
  | |- emits_only _ (ret _) => apply emits_only_ret
  | |- emits_only _ (throw _) => apply emits_only_throw
  | |- emits_only _ get_world => apply emits_only_get_world
  | |- emits_only _ (emit _) => apply emits_only_emit
  | |- emits_only _ (put_fs _) => apply emits_only_put_fs
  | |- emits_only _ (put_status _) => apply emits_only_put_status
  | |- emits_only _ (lift _) => apply emits_only_lift
  | |- emits_only _ (fs_call _) => apply emits_only_fs_call
  | |- emits_only _ (if ?b then _ else _) => destruct b
  | |- emits_only _ (match ?x with _ => _ end) => destruct x
  | |- emits_only _ (let _ := _ in _) => cbv zeta
  end.

Ltac emits_only_tac := repeat emits_only_step.

Section Footprints.
Variables (h : Host) (P : Event -> Prop).
Hypothesis P_exec_version : forall cmd, P (EvExecVersion cmd).

Lemma checkHugo_emits (cmd : jstr) : emits_only P (checkHugo h cmd).
Proof. unfold checkHugo. emits_only_tac. apply P_exec_version. Qed.

Lemma exists_and_runs_emits (p : jstr) : emits_only P (exists_and_runs h p).
Proof. unfold exists_and_runs. emits_only_tac. apply checkHugo_emits. Qed.

Lemma getLocalHugoVersion_emits (p : jstr) : emits_only P (getLocalHugoVersion h p).
Proof. unfold getLocalHugoVersion. emits_only_tac; apply P_exec_version. Qed.

Hypothesis P_extract : forall a d, P (EvExtract a d).

(** [installHugoInternal] after its download. *)
Lemma after_download_emits (archivePath fileName binPath : jstr) :
  emits_only P
    (let extractDir := path.join [tmpDir h; "extract"] in
     fs_call (fun m => Ok (rmrf m extractDir));;
     fs_call (fun m => mkdirSync m extractDir);;
     let* w := get_world in
     emit (EvExtract archivePath extractDir);;
     let* unpacked := lift (extract h w archivePath extractDir) in
     put_fs unpacked.1;;
     match unpacked.2 with
     | None => throw (err "error.hugoBinaryNotFound" [fileName])
     | Some src =>
         fs_call (fun m =>
           match readFileSync m src with
           | Ok data => writeFileSync m binPath data
           | Throw e => Throw e
           end);;
         let* ok := checkHugo h binPath in
         if negb ok then throw (err "error.hugoNotExecutable" [])
         else ret tt
     end).
Proof. emits_only_tac; try apply P_extract. apply checkHugo_emits. Qed.

Hypothesis P_download : forall u d, P (EvDownload u d).

Lemma installHugoInternal_emits (version : jstr) (useExtended : bool) :
  emits_only P (installHugoInternal h version useExtended).
Proof.
  unfold installHugoInternal. emits_only_tac; try apply P_download; try apply P_extract.
  apply checkHugo_emits.
Qed.
End Footprints.

(** ** Finding Hugo *)

Lemma only_asked_versions_refl (w : World) : only_asked_versions w w.
Proof. split; [reflexivity|]. exists []. split; [symmetry; apply app_nil_r | constructor]. Qed.

Lemma only_asked_versions_trans (w1 w2 w3 : World) :
  only_asked_versions w1 w2 -> only_asked_versions w2 w3 -> only_asked_versions w1 w3.
Proof.
  intros [Hf1 (e1 & Ht1 & Ha1)] [Hf2 (e2 & Ht2 & Ha2)]. split; [congruence|].
  exists (e1 ++ e2). split; [rewrite Ht2, Ht1, app_assoc; reflexivity|].
  apply Forall_app; split; assumption.
Qed.

Lemma checkHugo_run (h : Host) (cmd : jstr) (w : World) :
  checkHugo h cmd w
  = (Ok (bool_decide (is_Some (exec_version h w cmd))), add_event (EvExecVersion cmd) w).
Proof. reflexivity. Qed.

Lemma only_asked_versions_check (cmd : jstr) (w : World) :
  only_asked_versions w (add_event (EvExecVersion cmd) w).
Proof.
  split; [reflexivity|]. exists [EvExecVersion cmd]. split; [reflexivity|].
  repeat constructor. eexists; reflexivity.
Qed.

Lemma exists_and_runs_run (h : Host) (p : jstr) (w : World) :
  exists ok w', exists_and_runs h p w = (Ok ok, w') /\ only_asked_versions w w'.
Proof.
  unfold exists_and_runs. rewrite bind_get_world.
  destruct (existsSync (fs w) p).
  - rewrite checkHugo_run. eexists _, _. split; [reflexivity|]. apply only_asked_versions_check.
  - eexists _, _. split; [reflexivity|]. apply only_asked_versions_refl.
Qed.

Lemma resolveInstalledHugo_run (h : Host) (w : World) :
  exists found w', resolveInstalledHugo h w = (Ok found, w') /\ only_asked_versions w w'.
Proof.
  unfold resolveInstalledHugo.
  assert (Hfirst : exists ok w1,
    (if non_empty (cfg_trimmed (cfg_hugoPath h))
     then checkHugo h (cfg_trimmed (cfg_hugoPath h)) else ret false) w = (Ok ok, w1)
    /\ only_asked_versions w w1).
  { destruct (non_empty _).
    - rewrite checkHugo_run. eexists _, _. split; [reflexivity|]. apply only_asked_versions_check.
    - eexists _, _. split; [reflexivity|]. apply only_asked_versions_refl. }
  destruct Hfirst as (ok1 & w1 & Hrun1 & Hadv1).
  unfold bind at 1. rewrite Hrun1.
  destruct ok1.
  { eexists _, _. split; [reflexivity|]. exact Hadv1. }
  unfold bind at 1. rewrite checkHugo_run.
  destruct (bool_decide _).
  { eexists _, _. split; [reflexivity|].
    eapply only_asked_versions_trans; [exact Hadv1 | apply only_asked_versions_check]. }
  destruct (exists_and_runs_run h (hugoBin h) (add_event (EvExecVersion "hugo") w1))
    as (ok3 & w3 & Hrun3 & Hadv3).
  unfold bind. rewrite Hrun3.
  assert (Hadv : only_asked_versions w w3).
  { eapply only_asked_versions_trans; [exact Hadv1|].
    eapply only_asked_versions_trans; [apply only_asked_versions_check | exact Hadv3]. }
  destruct ok3; eexists _, _; (split; [reflexivity | exact Hadv]).
Qed.

Lemma getLocalHugoVersion_run (h : Host) (p : jstr) (w : World) :
  getLocalHugoVersion h p w
  = (Ok (exec_version h w p ≫= match_version), add_event (EvExecVersion p) w).
Proof.
  unfold getLocalHugoVersion. rewrite bind_get_world, bind_emit.
  destruct (exec_version h w p); reflexivity.
Qed.

(** ** Opening the preview *)

Lemma ensureHugo_quiet (h : Host) (forceInstall : bool) :
  emits_only (fun ev => builds_or_shows ev = false) (ensureHugo h forceInstall).
Proof.
  unfold ensureHugo, installHugo, installHugoInternal, showInformationMessage,
    getLatestHugoVersion, exists_and_runs, checkHugo.
  emits_only_tac; reflexivity.
Qed.

(** C6.  [openPreview] throws when there is no active editor, then
    when the document is not Markdown, then when no workspace folder is
    open: in these cases nothing at all has happened.  It throws as well
    when the document is neither the content directory nor below it:
    then Hugo has been looked for and the two directories made, but
    nothing was built and the preview panel is untouched. *)
Theorem openPreview_preconditions (h : Host) (w : World) :
  (activeTextEditor h = None ->
     openPreview h w = (Throw (ErrLocalized "error.noMarkdown" []), w))
  /\ (forall doc,
        activeTextEditor h = Some doc -> languageId doc <> "markdown" ->
        openPreview h w = (Throw (ErrLocalized "error.notMarkdown" []), w))
  /\ (forall doc,
        activeTextEditor h = Some doc -> languageId doc = "markdown" ->
        open_workspace h = None ->
        openPreview h w = (Throw (ErrLocalized "error.noWorkspace" []), w))
  /\ (forall doc workspace,
        activeTextEditor h = Some doc -> languageId doc = "markdown" ->
        open_workspace h = Some workspace ->
        in_content h workspace (doc_fsPath doc) = false ->
        advances (fun ev => builds_or_shows ev = false) w (openPreview h w).2
        /\ match ensureHugo h false w with
           | (Throw e, w1) => openPreview h w = (Throw e, w1)
           | (Ok _, w1) =>
               match mkdirSync (fs w1) (contentDir h) with
               | Throw e => openPreview h w = (Throw e, w1)
               | Ok m1 =>
                   match mkdirSync m1 (outDir h) with
                   | Throw e => openPreview h w = (Throw e, with_fs m1 w1)
                   | Ok m2 =>
                       openPreview h w
                       = (Throw (ErrLocalized "error.notContent" []),
                          with_fs m2 (with_fs m1 w1))
                   end
               end
           end)
  /\ (forall workspace docPath,
        in_content h workspace docPath = true <->
        norm h docPath = norm h (path.join [workspace; "content"])
        \/ exists rest,
             norm h docPath = norm h (path.join [workspace; "content"]) ++ path.sep ++ rest).
Proof.
  split; [|split; [|split; [|split]]].
  - intros Hed. unfold openPreview, openPreview_copy. rewrite Hed. reflexivity.
  - intros doc Hed Hlang. unfold openPreview, openPreview_copy. rewrite Hed.
    rewrite bool_decide_false by exact Hlang. reflexivity.
  - intros doc Hed Hlang Hws. unfold openPreview, openPreview_copy. rewrite Hed, Hws.
    rewrite bool_decide_true by exact Hlang. reflexivity.
  - intros doc workspace Hed Hlang Hws Hout.
    assert (Hrun : openPreview h w =
      match ensureHugo h false w with
      | (Throw e, w1) => (Throw e, w1)
      | (Ok _, w1) =>
          match mkdirSync (fs w1) (contentDir h) with
          | Throw e => (Throw e, w1)
          | Ok m1 =>
              match mkdirSync m1 (outDir h) with
              | Throw e => (Throw e, with_fs m1 w1)
              | Ok m2 => (Throw (ErrLocalized "error.notContent" []),
                          with_fs m2 (with_fs m1 w1))
              end
          end
      end).
    { unfold openPreview, openPreview_copy. rewrite Hed, Hws, Hout.
      rewrite bool_decide_true by exact Hlang.
      change (negb true) with false. change (negb false) with true. cbv iota.
      rewrite bind_assoc. unfold bind at 1.
      destruct (ensureHugo h false w) as [[hugo|e] w1]; [|reflexivity].
      rewrite !bind_assoc, bind_fs_call.
      destruct (mkdirSync (fs w1) (contentDir h)) as [m1|e1]; [|reflexivity].
      rewrite !bind_assoc, bind_fs_call.
      destruct (mkdirSync _ (outDir h)) as [m2|e2]; reflexivity. }
    split.
    + rewrite Hrun.
      pose proof (ensureHugo_quiet h false w) as Hq.
      destruct (ensureHugo h false w) as [[hugo|e] w1]; simpl in Hq; [|exact Hq].
      destruct (mkdirSync (fs w1) (contentDir h)) as [m1|e1]; [|exact Hq].
      destruct (mkdirSync m1 (outDir h)) as [m2|e2]; simpl;
        (eapply advances_trans; [exact Hq|]).
      * eapply advances_trans; apply advances_with_fs.
      * apply advances_with_fs.
    + rewrite Hrun.
      destruct (ensureHugo h false w) as [[hugo|e] w1]; [|reflexivity].
      destruct (mkdirSync (fs w1) (contentDir h)) as [m1|e1]; [|reflexivity].
      destruct (mkdirSync m1 (outDir h)) as [m2|e2]; reflexivity.
  - intros workspace docPath. unfold in_content.
    rewrite orb_true_iff, startsWith_spec, bool_decide_eq_true.
    split.
    + intros [(rest & Hrest) | Heq]; [right | left; exact Heq].
      exists rest. rewrite Hrest, <- app_assoc. reflexivity.
    + intros [Heq | (rest & Hrest)]; [right; exact Heq | left].
      exists rest. rewrite Hrest, <- app_assoc. reflexivity.
Qed.

(** C8.  With a configured [hugoPath], [ensureHugo] runs that path with
    the argument [version] and does nothing else, whatever
    [forceInstall] is: it returns the path when the command succeeds and
    throws [error.hugoInvalid] when it fails. *)
Theorem ensureHugo_configured_path (h : Host) (w : World) (forceInstall : bool) :
  let userPath := cfg_trimmed (cfg_hugoPath h) in
  non_empty userPath = true ->
  ensureHugo h forceInstall w =
    ((if bool_decide (is_Some (exec_version h w userPath))
      then Ok userPath
      else Throw (ErrLocalized "error.hugoInvalid" [userPath])),
     add_event (EvExecVersion userPath) w).
Proof.
  intros userPath Hset. unfold ensureHugo. fold userPath. rewrite Hset.
  unfold bind. unfold checkHugo, bind, get_world, emit, ret; simpl.
  destruct (bool_decide _); reflexivity.
Qed.

(** The command Install Hugo with [hugoPath] set to a working binary
    installs nothing. *)
Lemma ensureHugo_configured_path_witness :
  ensureHugo (with_settings (Some " hugo ") None demo_host) true empty_world
  = (Ok "hugo", add_event (EvExecVersion "hugo") empty_world).
Proof.
  exact (ensureHugo_configured_path (with_settings (Some " hugo ") None demo_host)
           empty_world true eq_refl).
Defined.

(** ** Splitting and joining *)

Lemma js_split_non_empty (sep : ascii) (s : jstr) : js_split sep s <> [].
Proof.
  destruct s as [|c t]; simpl; [discriminate|].
  destruct (Ascii.eqb c sep); [discriminate|].
  destruct (js_split sep t); discriminate.
Qed.

Lemma js_split_cons_other (sep c : ascii) (t : jstr) :
  c <> sep ->
  exists h r, js_split sep t = h :: r /\ js_split sep (c :: t) = (c :: h) :: r.
Proof.
  intros Hc. simpl. apply Ascii.eqb_neq in Hc. rewrite Hc.
  destruct (js_split sep t) as [|h r] eqn:E.
  - destruct (js_split_non_empty sep t E).
  - exists h, r. split; reflexivity.
Qed.

Lemma js_split_app_sep (sep : ascii) (a b : jstr) :
  js_split sep (a ++ sep :: b) = js_split sep a ++ js_split sep b.
Proof.
  induction a as [|c a IH].
  - simpl. rewrite Ascii.eqb_refl. reflexivity.
  - cbn [app js_split]. destruct (Ascii.eqb c sep); rewrite IH; [reflexivity|].
    destruct (js_split sep a) as [|h r] eqn:E; [destruct (js_split_non_empty sep a E)|].
    reflexivity.
Qed.

Lemma js_split_free (sep : ascii) (s : jstr) : sep ∉ s -> js_split sep s = [s].
Proof.
  induction s as [|c t IH]; intros Hs; [reflexivity|].
  simpl. destruct (Ascii.eqb c sep) eqn:E.
  - apply Ascii.eqb_eq in E. subst c. destruct Hs. left.
  - rewrite IH; [reflexivity|]. intros Hin. apply Hs. right. exact Hin.
Qed.

Lemma js_split_pieces_free (sep : ascii) (s : jstr) :
  Forall (fun piece => sep ∉ piece) (js_split sep s).
Proof.
  induction s as [|c t IH]; simpl.
  - repeat constructor. apply not_elem_of_nil.
  - destruct (Ascii.eqb c sep) eqn:E.
    + constructor; [apply not_elem_of_nil | exact IH].
    + destruct (js_split sep t) as [|h r].
      * repeat constructor. intros Hin. apply list_elem_of_singleton in Hin.
        apply Ascii.eqb_neq in E. congruence.
      * inversion IH as [|? ? Hh Hr]; subst. constructor; [|exact Hr].
        intros Hin. apply elem_of_cons in Hin as [->|Hin]; [|tauto].
        rewrite Ascii.eqb_refl in E. discriminate.
Qed.

Lemma intercalate_cons (sep x : jstr) (l : list jstr) :
  l <> [] -> intercalate sep (x :: l) = x ++ sep ++ intercalate sep l.
Proof. destruct l; [congruence | reflexivity]. Qed.

Lemma intercalate_app (sep : jstr) (l1 l2 : list jstr) :
  l1 <> [] -> l2 <> [] ->
  intercalate sep (l1 ++ l2) = intercalate sep l1 ++ sep ++ intercalate sep l2.
Proof.
  induction l1 as [|x l1 IH]; intros H1 H2; [congruence|].
  destruct l1 as [|y l1].
  - cbn [app]. rewrite intercalate_cons by exact H2. reflexivity.
  - change ((x :: y :: l1) ++ l2) with (x :: ((y :: l1) ++ l2)).
    rewrite !intercalate_cons by discriminate.
    rewrite IH by (discriminate || exact H2). rewrite <- !app_assoc. reflexivity.
Qed.

Lemma intercalate_js_split (sep : ascii) (s : jstr) :
  intercalate [sep] (js_split sep s) = s.
Proof.
  induction s as [|c t IH]; [reflexivity|].
  simpl js_split. destruct (Ascii.eqb c sep) eqn:E.
  - apply Ascii.eqb_eq in E. subst c.
    rewrite intercalate_cons by apply js_split_non_empty. rewrite IH. reflexivity.
  - destruct (js_split sep t) as [|h r] eqn:Et; [destruct (js_split_non_empty sep t Et)|].
    destruct r as [|h' r].
    + simpl in *. congruence.
    + rewrite intercalate_cons by discriminate.
      rewrite intercalate_cons in IH by discriminate.
      rewrite <- IH. reflexivity.
Qed.

Lemma js_split_intercalate (sep : ascii) (l : list jstr) :
  l <> [] -> Forall (fun piece => sep ∉ piece) l ->
  js_split sep (intercalate [sep] l) = l.
Proof.
  induction l as [|x l IH]; intros Hne Hfree; [congruence|].
  inversion Hfree as [|? ? Hx Hl]; subst.
  destruct l as [|y l].
  - simpl. apply js_split_free, Hx.
  - rewrite intercalate_cons by discriminate.
    change ([sep] ++ intercalate [sep] (y :: l)) with (sep :: intercalate [sep] (y :: l)).
    rewrite js_split_app_sep, js_split_free by exact Hx.
    rewrite IH by (discriminate || exact Hl). reflexivity.
Qed.

(** ** Normalising the segments of a path *)

Lemma normalize_segs_app (a : bool) (res xs ys : list jstr) :
  path.normalize_segs a res (xs ++ ys)
  = path.normalize_segs a (path.normalize_segs a res xs) ys.
Proof.
  revert res. induction xs as [|x xs IH]; intros res; [reflexivity|].
  cbn [app path.normalize_segs].
  destruct (bool_decide (x = "") || bool_decide (x = ".")); [apply IH|].
  destruct (bool_decide (x = "..")); [|apply IH].
  destruct res as [|top below]; [apply IH|].
  destruct (bool_decide (top = "..")); apply IH.
Qed.

Lemma normalize_segs_skip (a : bool) (res : list jstr) (seg : jstr) :
  seg = "" \/ seg = "." -> path.normalize_segs a res [seg] = res.
Proof.
  intros H. simpl.
  assert (E : bool_decide (seg = "") || bool_decide (seg = ".") = true).
  { destruct H as [-> | ->]; reflexivity. }
  rewrite E. reflexivity.
Qed.

Lemma normalize_segs_name (a : bool) (res : list jstr) (seg : jstr) :
  name_segment seg -> path.normalize_segs a res [seg] = seg :: res.
Proof.
  intros (H1 & H2 & H3). simpl.
  rewrite !bool_decide_false by assumption. reflexivity.
Qed.

Lemma normalize_segs_names (a : bool) (res names : list jstr) :
  Forall name_segment names -> path.normalize_segs a res names = rev names ++ res.
Proof.
  revert res. induction names as [|x names IH]; intros res Hn; [reflexivity|].
  inversion Hn as [|? ? Hx Hrest]; subst.
  change (x :: names) with ([x] ++ names).
  rewrite normalize_segs_app, normalize_segs_name by exact Hx.
  rewrite IH by exact Hrest. simpl. rewrite <- app_assoc. reflexivity.
Qed.

Lemma normalize_segs_up (a : bool) (res : list jstr) :
  path.normalize_segs a res [".."]
  = match res with
    | top :: below =>
        if bool_decide (top = "..") then (if a then ".." :: res else res) else below
    | [] => if a then [".."] else []
    end.
Proof. destruct res as [|top below]; [reflexivity|]. simpl. destruct (bool_decide (top = "..")); reflexivity. Qed.

Lemma segment_cases (seg : jstr) :
  (seg = "" \/ seg = ".") \/ seg = ".." \/ name_segment seg.
Proof.
  destruct (decide (seg = "")) as [->|H1]; [left; left; reflexivity|].
  destruct (decide (seg = ".")) as [->|H2]; [left; right; reflexivity|].
  destruct (decide (seg = "..")) as [->|H3]; [right; left; reflexivity|].
  right; right. repeat split; assumption.
Qed.

Lemma normalize_segs_Forall (P : jstr -> Prop) (a : bool) (res segs : list jstr) :
  P ".." -> Forall P res -> Forall (fun seg => name_segment seg -> P seg) segs ->
  Forall P (path.normalize_segs a res segs).
Proof.
  intros Hup. revert res. induction segs as [|x segs IH]; intros res Hres Hsegs; [exact Hres|].
  inversion Hsegs as [|? ? Hx Hrest]; subst.
  change (x :: segs) with ([x] ++ segs). rewrite normalize_segs_app.
  apply IH; [|exact Hrest].
  destruct (segment_cases x) as [Hskip | [-> | Hname]].
  - rewrite normalize_segs_skip by exact Hskip. exact Hres.
  - rewrite normalize_segs_up. destruct res as [|top below].
    + destruct a; repeat constructor; exact Hup.
    + inversion Hres; subst. destruct (bool_decide (top = "..")); [|assumption].
      destruct a; [constructor|]; assumption.
  - rewrite normalize_segs_name by exact Hname. constructor; [apply Hx, Hname | exact Hres].
Qed.

Lemma normalize_segs_kept (a : bool) (segs : list jstr) :
  Forall kept_segment (path.normalize_segs a [] segs).
Proof.
  apply normalize_segs_Forall.
  - split; discriminate.
  - constructor.
  - apply Forall_forall. intros seg _ (H1 & H2 & _). split; assumption.
Qed.

Lemma normalize_segs_rooted (segs : list jstr) :
  Forall name_segment (path.normalize_segs false [] segs).
Proof.
  assert (Hgen : forall res, Forall name_segment res ->
                 Forall name_segment (path.normalize_segs false res segs)).
  { induction segs as [|x segs IH]; intros res Hres; [exact Hres|].
    change (x :: segs) with ([x] ++ segs). rewrite normalize_segs_app. apply IH.
    destruct (segment_cases x) as [Hskip | [-> | Hname]].
    - rewrite normalize_segs_skip by exact Hskip. exact Hres.
    - rewrite normalize_segs_up. destruct res as [|top below]; [constructor|].
      inversion Hres; subst. destruct (bool_decide (top = "..")); assumption.
    - rewrite normalize_segs_name by exact Hname. constructor; assumption. }
  apply Hgen. constructor.
Qed.

(** Normalising what is already normalised, from any point on, is
    normalising the segments themselves. *)
Lemma normalize_segs_absorb (a : bool) (res segs : list jstr) :
  path.normalize_segs a res (rev (path.normalize_segs true [] segs))
  = path.normalize_segs a res segs.
Proof.
  induction segs as [|x segs IH] using rev_ind; [reflexivity|].
  rewrite !normalize_segs_app.
  destruct (segment_cases x) as [Hskip | [-> | Hname]].
  - rewrite !normalize_segs_skip by exact Hskip. exact IH.
  - rewrite <- IH. rewrite (normalize_segs_up true).
    pose proof (normalize_segs_kept true segs) as Hkept.
    destruct (path.normalize_segs true [] segs) as [|top below] eqn:E.
    + reflexivity.
    + case_bool_decide as Htop.
      * cbn [rev]. rewrite normalize_segs_app. reflexivity.
      * cbn [rev]. rewrite normalize_segs_app.
        inversion Hkept as [|? ? (Ht1 & Ht2) _]; subst.
        rewrite (normalize_segs_name a _ top) by (repeat split; assumption).
        rewrite normalize_segs_up. rewrite bool_decide_false by exact Htop. reflexivity.
  - rewrite !normalize_segs_name by exact Hname.
    cbn [rev]. rewrite normalize_segs_app, IH, normalize_segs_name by exact Hname.
    reflexivity.
Qed.

(** Empty segments do not count. *)
Lemma normalize_segs_segments (a : bool) (res : list jstr) (p : jstr) :
  path.normalize_segs a res (js_split ch_slash p)
  = path.normalize_segs a res (path.segments p).
Proof.
  unfold path.segments. generalize (js_split ch_slash p). intros segs.
  revert res. induction segs as [|x segs IH]; intros res; [reflexivity|].
  cbn [filter list_filter]. destruct x as [|c x].
  - rewrite decide_False by discriminate.
    change ([] :: segs) with ([[]] ++ segs).
    rewrite normalize_segs_app, normalize_segs_skip by (left; reflexivity). apply IH.
  - rewrite decide_True by reflexivity.
    change ((c :: x) :: segs) with ([c :: x] ++ segs).
    rewrite normalize_segs_app.
    change ((c :: x) :: filter (λ s : jstr, non_empty s = true) segs)
      with ([c :: x] ++ filter (λ s : jstr, non_empty s = true) segs).
    rewrite normalize_segs_app. apply IH.
Qed.

(** ** Segments of a path *)

Lemma segments_nil : path.segments "" = [].
Proof. reflexivity. Qed.

Lemma segments_app_sep (a b : jstr) :
  path.segments (a ++ "/" ++ b) = path.segments a ++ path.segments b.
Proof.
  unfold path.segments. change ("/" ++ b) with (ch_slash :: b).
  rewrite js_split_app_sep, filter_app. reflexivity.
Qed.

Lemma segments_slash_l (p : jstr) : path.segments ("/" ++ p) = path.segments p.
Proof. apply (segments_app_sep [] p). Qed.

Lemma segments_slash_r (p : jstr) : path.segments (p ++ "/") = path.segments p.
Proof.
  change (p ++ "/") with (p ++ "/" ++ "").
  rewrite segments_app_sep, segments_nil, app_nil_r. reflexivity.
Qed.

Lemma segments_strip (p : jstr) :
  path.segments (strip_leading_slashes p) = path.segments p.
Proof.
  induction p as [|c p IH]; [reflexivity|].
  simpl. destruct (Ascii.eqb c ch_slash) eqn:E; [|reflexivity].
  apply Ascii.eqb_eq in E. subst c. rewrite IH. symmetry. apply segments_slash_l.
Qed.

Lemma isAbsolute_cons (c : ascii) (p : jstr) :
  path.isAbsolute (c :: p) = Ascii.eqb ch_slash c.
Proof.
  unfold path.isAbsolute. change "/" with [ch_slash].
  cbn [startsWith]. apply andb_true_r.
Qed.

Lemma strip_not_absolute (p : jstr) :
  path.isAbsolute (strip_leading_slashes p) = false.
Proof.
  induction p as [|c p IH]; [reflexivity|].
  simpl. destruct (Ascii.eqb c ch_slash) eqn:E; [exact IH|].
  rewrite isAbsolute_cons, Ascii.eqb_sym. exact E.
Qed.

Lemma segments_clean (seg : jstr) : clean_segment seg -> path.segments seg = [seg].
Proof.
  intros (Hne & Hfree). unfold path.segments. rewrite js_split_free by exact Hfree.
  cbn [filter list_filter]. destruct seg; [congruence|]. reflexivity.
Qed.

Lemma segments_intercalate_bind (l : list jstr) :
  path.segments (intercalate "/" l) = l ≫= path.segments.
Proof.
  induction l as [|x l IH]; [reflexivity|].
  destruct l as [|y l].
  - cbn. rewrite app_nil_r. reflexivity.
  - rewrite intercalate_cons by discriminate.
    rewrite segments_app_sep, IH. reflexivity.
Qed.

Lemma bind_segments_clean (l : list jstr) :
  Forall clean_segment l -> l ≫= path.segments = l.
Proof.
  induction 1 as [|x l Hx Hl IH]; [reflexivity|].
  cbn [mbind list_bind]. change (list_bind _ _ path.segments l) with (l ≫= path.segments).
  rewrite IH, segments_clean by exact Hx. reflexivity.
Qed.

Lemma segments_intercalate (l : list jstr) :
  Forall clean_segment l -> path.segments (intercalate "/" l) = l.
Proof. intros H. rewrite segments_intercalate_bind. apply bind_segments_clean, H. Qed.

Lemma segments_all_clean (p : jstr) : Forall clean_segment (path.segments p).
Proof.
  unfold path.segments. apply Forall_forall. intros seg Hin.
  apply list_elem_of_filter in Hin as [Hne Hin].
  split.
  - destruct seg; [discriminate | discriminate].
  - pose proof (js_split_pieces_free ch_slash p) as Hfree.
    rewrite Forall_forall in Hfree. apply Hfree, Hin.
Qed.

Lemma bind_segments_parts (args : list jstr) :
  join_parts args ≫= path.segments = args ≫= path.segments.
Proof.
  unfold join_parts. induction args as [|x args IH]; [reflexivity|].
  cbn [filter list_filter]. destruct x as [|c x].
  - rewrite decide_False by discriminate. exact IH.
  - rewrite decide_True by reflexivity. cbn [mbind list_bind].
    f_equal. exact IH.
Qed.

(** ** [path.normalize] and [path.join] on segments *)

Lemma normalize_render (p : jstr) :
  p <> [] ->
  path.normalize p
  = render (path.isAbsolute p) (path.trailingSeparator p)
      (path.normalize_segs (negb (path.isAbsolute p)) [] (path.segments p)).
Proof.
  intros Hp. unfold path.normalize, render, path.normalizeString.
  rewrite normalize_segs_segments. destruct p; [congruence | reflexivity].
Qed.

Lemma intercalate_head_non_empty (sep x : jstr) (l : list jstr) :
  x <> [] -> intercalate sep (x :: l) <> [].
Proof. intros Hx. destruct l; simpl; [exact Hx|]. destruct x; [congruence | discriminate]. Qed.

Lemma startsWith_app_l (x y p : jstr) :
  length p <= length x -> startsWith (x ++ y) p = startsWith x p.
Proof.
  revert x. induction p as [|a p IH]; intros x Hlen; [reflexivity|].
  destruct x as [|c x]; [simpl in Hlen; lia|].
  cbn [app startsWith]. rewrite IH; [reflexivity | simpl in Hlen; lia].
Qed.

Lemma isAbsolute_app (x y : jstr) :
  x <> [] -> path.isAbsolute (x ++ y) = path.isAbsolute x.
Proof.
  intros Hx. unfold path.isAbsolute. apply startsWith_app_l.
  destruct x; [congruence | simpl; lia].
Qed.

Lemma trailingSeparator_app (x y : jstr) :
  y <> [] -> path.trailingSeparator (x ++ y) = path.trailingSeparator y.
Proof.
  intros Hy. unfold path.trailingSeparator.
  destruct y as [|c y] using rev_ind; [congruence|].
  rewrite app_assoc, !last_snoc. reflexivity.
Qed.

Lemma join_parts_non_empty (args : list jstr) :
  Forall (fun a => a <> []) (join_parts args).
Proof.
  unfold join_parts. apply Forall_forall. intros a Hin.
  apply list_elem_of_filter in Hin as [Hne _]. destruct a; [discriminate | discriminate].
Qed.

Lemma isAbsolute_intercalate (parts : list jstr) :
  Forall (fun a => a <> []) parts ->
  path.isAbsolute (intercalate "/" parts)
  = default false (path.isAbsolute <$> head parts).
Proof.
  intros Hne. destruct parts as [|x l]; [reflexivity|].
  inversion Hne; subst. destruct l as [|y l]; [reflexivity|].
  rewrite intercalate_cons by discriminate. apply isAbsolute_app. assumption.
Qed.

Lemma trailingSeparator_intercalate (parts : list jstr) :
  Forall (fun a => a <> []) parts ->
  path.trailingSeparator (intercalate "/" parts)
  = default false (path.trailingSeparator <$> last parts).
Proof.
  induction parts as [|x l IH]; intros Hne; [reflexivity|].
  inversion Hne as [|? ? Hx Hl]; subst. destruct l as [|y l]; [reflexivity|].
  rewrite intercalate_cons by discriminate.
  rewrite app_assoc, trailingSeparator_app.
  - rewrite IH by exact Hl. reflexivity.
  - inversion Hl; subst. apply intercalate_head_non_empty. assumption.
Qed.

(** [path.join] normalises the segments of its arguments. *)
Lemma join_render (args : list jstr) :
  join_parts args <> [] ->
  path.join args
  = render (join_absolute args) (join_trailing args)
      (path.normalize_segs (negb (join_absolute args)) [] (args ≫= path.segments)).
Proof.
  intros Hparts. unfold path.join. fold (join_parts args).
  pose proof (join_parts_non_empty args) as Hne.
  destruct (join_parts args) as [|x l] eqn:E; [congruence|].
  rewrite normalize_render.
  - rewrite isAbsolute_intercalate, trailingSeparator_intercalate by exact Hne.
    rewrite segments_intercalate_bind, <- E, bind_segments_parts.
    unfold join_absolute, join_trailing. rewrite E. reflexivity.
  - inversion Hne; subst. apply intercalate_head_non_empty. assumption.
Qed.

(** *** Paths that end in a name *)

Lemma intercalate_snoc_non_empty (sep : jstr) (l : list jstr) (x : jstr) :
  x <> [] -> intercalate sep (l ++ [x]) <> [].
Proof.
  intros Hx. destruct l as [|y l]; [exact Hx|].
  rewrite intercalate_app by discriminate. simpl intercalate at 2.
  intros H. apply app_eq_nil in H as [_ H]. apply app_eq_nil in H as [_ H]. congruence.
Qed.

Lemma render_named (absolute : bool) (top : jstr) (below : list jstr) :
  top <> [] ->
  render absolute false (top :: below)
  = (if absolute then "/" else []) ++ intercalate "/" (rev (top :: below)).
Proof.
  intros Htop. unfold render. cbn [rev].
  pose proof (intercalate_snoc_non_empty "/" (rev below) top Htop) as Hne.
  destruct (intercalate "/" (rev below ++ [top])); [congruence|].
  destruct absolute; reflexivity.
Qed.

Lemma intercalate_not_absolute (l : list jstr) :
  Forall clean_segment l -> path.isAbsolute (intercalate "/" l) = false.
Proof.
  intros Hl. destruct l as [|x l]; [reflexivity|].
  inversion Hl as [|? ? (Hne & Hfree) _]; subst.
  assert (Hx : path.isAbsolute x = false).
  { destruct x as [|c x]; [congruence|].
    rewrite isAbsolute_cons. destruct (Ascii.eqb _ c) eqn:E; [|reflexivity].
    apply Ascii.eqb_eq in E. destruct Hfree. rewrite <- E. left. }
  destruct l as [|y l]; [exact Hx|].
  rewrite intercalate_cons by discriminate. rewrite isAbsolute_app; assumption.
Qed.

Lemma intercalate_not_trailing (l : list jstr) (x : jstr) :
  clean_segment x -> path.trailingSeparator (intercalate "/" (l ++ [x])) = false.
Proof.
  intros (Hne & Hfree).
  assert (Hx : path.trailingSeparator x = false).
  { unfold path.trailingSeparator. destruct x as [|c x] using rev_ind; [congruence|].
    rewrite last_snoc. destruct (Ascii.eqb c ch_slash) eqn:E; [|reflexivity].
    apply Ascii.eqb_eq in E. destruct Hfree. rewrite E. apply elem_of_app. right. left. }
  destruct l as [|y l]; [exact Hx|].
  rewrite intercalate_app by discriminate.
  rewrite app_assoc, trailingSeparator_app; assumption.
Qed.

Lemma kept_clean_name (seg : jstr) : clean_segment seg -> seg <> "." -> kept_segment seg.
Proof. intros (Hne & _) Hdot. split; assumption. Qed.

(** The stack that normalising the segments of paths leaves holds
    clean segments. *)
Lemma normalize_segs_clean (a : bool) (res segs : list jstr) :
  Forall clean_segment res -> Forall clean_segment segs ->
  Forall clean_segment (path.normalize_segs a res segs).
Proof.
  intros Hres Hsegs. apply normalize_segs_Forall.
  - split; [discriminate|]. apply (bool_decide_unpack _). vm_compute. exact I.
  - exact Hres.
  - eapply Forall_impl; [exact Hsegs|]. intros seg H _. exact H.
Qed.

Lemma bind_segments_all_clean (args : list jstr) :
  Forall clean_segment (args ≫= path.segments).
Proof.
  induction args as [|x args IH]; [constructor|].
  cbn [mbind list_bind]. apply Forall_app. split; [apply segments_all_clean | exact IH].
Qed.

(** ** Where the page is *)

Lemma join_absolute_cons (x : jstr) (rest : list jstr) :
  join_absolute (x :: rest)
  = if non_empty x then path.isAbsolute x else join_absolute rest.
Proof.
  unfold join_absolute, join_parts. cbn [filter list_filter].
  destruct x; [rewrite decide_False by discriminate | rewrite decide_True by reflexivity];
    reflexivity.
Qed.

Lemma join_parts_snoc (l : list jstr) (x : jstr) :
  x <> [] -> join_parts (l ++ [x]) = join_parts l ++ [x].
Proof.
  intros Hx. unfold join_parts. rewrite filter_app. f_equal.
  cbn [filter list_filter]. destruct x; [congruence|].
  rewrite decide_True by reflexivity. reflexivity.
Qed.

Lemma join_trailing_snoc (l : list jstr) (x : jstr) :
  x <> [] -> join_trailing (l ++ [x]) = path.trailingSeparator x.
Proof.
  intros Hx. unfold join_trailing. rewrite join_parts_snoc by exact Hx.
  rewrite last_snoc. reflexivity.
Qed.

Lemma join_parts_snoc_non_empty (l : list jstr) (x : jstr) :
  x <> [] -> join_parts (l ++ [x]) <> [].
Proof.
  intros Hx. rewrite join_parts_snoc by exact Hx.
  destruct (join_parts l); discriminate.
Qed.

Lemma index_html_clean : clean_segment "index.html".
Proof. split; [discriminate|]. apply (bool_decide_unpack _). vm_compute. exact I. Qed.

Lemma index_html_name : name_segment "index.html".
Proof. repeat split; discriminate. Qed.

Lemma index_html_not_trailing : path.trailingSeparator "index.html" = false.
Proof. reflexivity. Qed.

(** A path joined from arguments of which the last is [index.html]. *)
Lemma join_to_index (args : list jstr) :
  path.join (args ++ ["index.html"])
  = (if join_absolute (args ++ ["index.html"]) then "/" else [])
    ++ intercalate "/"
         (rev (path.normalize_segs (negb (join_absolute (args ++ ["index.html"]))) []
                 (args ≫= path.segments))
          ++ ["index.html"]).
Proof.
  rewrite join_render by (apply join_parts_snoc_non_empty; discriminate).
  rewrite join_trailing_snoc by discriminate.
  rewrite index_html_not_trailing.
  rewrite bind_app. cbn [mbind list_bind]. rewrite app_nil_r.
  rewrite (segments_clean "index.html") by apply index_html_clean.
  rewrite normalize_segs_app, normalize_segs_name by apply index_html_name.
  rewrite render_named by discriminate. reflexivity.
Qed.

(** Joining the page to its directory first changes nothing. *)
Lemma join_nested (outDir s : jstr) :
  path.isAbsolute s = false ->
  path.join [outDir; path.join [s; "index.html"]]
  = path.join [outDir; s; "index.html"].
Proof.
  intros Hs.
  pose proof (join_to_index [s]) as Hinner.
  assert (Habs : join_absolute ([s] ++ ["index.html"]) = false).
  { cbn [app]. rewrite join_absolute_cons, Hs. destruct (non_empty s); reflexivity. }
  rewrite Habs in Hinner. cbn [negb app] in Hinner.
  cbn [mbind list_bind] in Hinner. rewrite app_nil_r in Hinner.
  set (st := path.normalize_segs true [] (path.segments s)) in *.
  assert (Hclean : Forall clean_segment (rev st ++ ["index.html"])).
  { apply Forall_app. split.
    - apply Forall_rev. apply normalize_segs_clean; [constructor | apply segments_all_clean].
    - repeat constructor; apply index_html_clean. }
  set (inner := path.join [s; "index.html"]) in *.
  assert (Hne : inner <> []).
  { rewrite Hinner. apply intercalate_snoc_non_empty. discriminate. }
  assert (Hrel : path.isAbsolute inner = false).
  { rewrite Hinner. apply intercalate_not_absolute, Hclean. }
  assert (Htrail : path.trailingSeparator inner = false).
  { rewrite Hinner. apply intercalate_not_trailing, index_html_clean. }
  assert (Hsegs : path.segments inner = rev (path.normalize_segs true [] (path.segments s ++ ["index.html"]))).
  { rewrite Hinner, segments_intercalate by exact Hclean.
    rewrite normalize_segs_app, normalize_segs_name by apply index_html_name.
    reflexivity. }
  change [outDir; inner] with ([outDir] ++ [inner]).
  rewrite join_render by (apply join_parts_snoc_non_empty; exact Hne).
  rewrite join_trailing_snoc, Htrail by exact Hne.
  change [outDir; s; "index.html"] with ([outDir; s] ++ ["index.html"]).
  rewrite join_render by (apply join_parts_snoc_non_empty; discriminate).
  rewrite join_trailing_snoc, index_html_not_trailing by discriminate.
  assert (Hflag : join_absolute ([outDir] ++ [inner])
                  = join_absolute ([outDir; s] ++ ["index.html"])).
  { cbn [app]. rewrite !join_absolute_cons, Hrel, Hs.
    destruct (non_empty outDir); [reflexivity|].
    destruct inner; [congruence|]. destruct (non_empty s); reflexivity. }
  rewrite Hflag. f_equal.
  rewrite !bind_app. cbn [mbind list_bind]. rewrite !app_nil_r.
  rewrite Hsegs.
  rewrite (normalize_segs_app _ [] (path.segments outDir) (rev _)), normalize_segs_absorb.
  rewrite (segments_clean "index.html") by apply index_html_clean.
  rewrite <- app_assoc, (normalize_segs_app _ [] (path.segments outDir)). reflexivity.
Qed.

(** *** The older layout *)

Lemma slice_from_start (p : jstr) (stop : nat) : slice p 0 stop = take stop p.
Proof. unfold slice. rewrite Nat.sub_0_r. reflexivity. Qed.

Lemma dirname_loop_bounds (p : jstr) (n : nat) (matchedSlash : bool) (stop : nat) :
  path.dirname_loop p n matchedSlash = Some stop -> 1 <= stop < n.
Proof.
  revert matchedSlash. induction n as [|i IH]; intros matchedSlash H; [discriminate|].
  cbn [path.dirname_loop] in H. destruct i as [|j]; [discriminate|].
  destruct (slash_at p (S j)).
  - destruct matchedSlash; cbn [negb] in H.
    + apply IH in H. lia.
    + injection H as <-. lia.
  - apply IH in H. lia.
Qed.

Lemma dirname_non_empty (p : jstr) : path.dirname p <> [].
Proof.
  unfold path.dirname. destruct p as [|c p]; [discriminate|].
  cbn [non_empty negb].
  destruct (path.dirname_loop (c :: p) (length (c :: p)) true) as [stop|] eqn:E.
  - apply dirname_loop_bounds in E.
    destruct (slash_at (c :: p) 0 && bool_decide (stop = 1)); [discriminate|].
    rewrite slice_from_start. destruct stop; [lia | discriminate].
  - destruct (slash_at (c :: p) 0); discriminate.
Qed.

Lemma dirname_not_absolute (p : jstr) :
  path.isAbsolute p = false -> path.isAbsolute (path.dirname p) = false.
Proof.
  intros Hp. unfold path.dirname. destruct p as [|c p]; [reflexivity|].
  cbn [non_empty negb].
  assert (Hroot : slash_at (c :: p) 0 = false).
  { rewrite isAbsolute_cons in Hp. unfold slash_at. cbn. rewrite Ascii.eqb_sym. exact Hp. }
  rewrite Hroot. cbn [andb].
  destruct (path.dirname_loop (c :: p) (length (c :: p)) true) as [stop|] eqn:E; [|reflexivity].
  apply dirname_loop_bounds in E. rewrite slice_from_start.
  destruct stop as [|stop]; [lia|]. cbn [take]. rewrite isAbsolute_cons.
  rewrite isAbsolute_cons in Hp. exact Hp.
Qed.

(** With the permalink of the default layout, the page that the listing
    gives is the page of the older revision. *)
Lemma layout_join (outDir d b : jstr) :
  d <> [] -> path.isAbsolute d = false ->
  path.join [outDir; strip_leading_slashes ("/" ++ d ++ "/" ++ b ++ "/"); "index.html"]
  = path.join [outDir; d; b; "index.html"].
Proof.
  intros Hd Hrel.
  set (s := strip_leading_slashes ("/" ++ d ++ "/" ++ b ++ "/")).
  change [outDir; s; "index.html"] with ([outDir; s] ++ ["index.html"]).
  change [outDir; d; b; "index.html"] with ([outDir; d; b] ++ ["index.html"]).
  rewrite !join_to_index.
  assert (Hflag : join_absolute ([outDir; s] ++ ["index.html"])
                  = join_absolute ([outDir; d; b] ++ ["index.html"])).
  { cbn [app]. rewrite !join_absolute_cons.
    unfold s. rewrite strip_not_absolute, Hrel.
    destruct (non_empty outDir); [reflexivity|].
    destruct d; [congruence|]. cbn [non_empty].
    destruct (non_empty (strip_leading_slashes _)); reflexivity. }
  rewrite Hflag. do 3 f_equal.
  cbn [mbind list_bind]. rewrite !app_nil_r. do 2 f_equal.
  unfold s. rewrite segments_strip, segments_slash_l.
  rewrite segments_app_sep, segments_slash_r. reflexivity.
Qed.

(** *** The listing *)

Section Listing.
Variable URL_pathname : jstr -> option jstr.
Variables (outDir contentRelPath : jstr).

Lemma scan_rows_cons (idxPath idxPermalink : nat) (target line : jstr) (rest : list jstr) :
  scan_rows URL_pathname outDir contentRelPath idxPath idxPermalink target (line :: rest)
  = match row_column idxPath line with
    | None => Throw ErrTypeError
    | Some col =>
        if bool_decide (normalize_backslashes col = target)
        then at_row URL_pathname outDir contentRelPath idxPermalink line
        else scan_rows URL_pathname outDir contentRelPath idxPath idxPermalink target rest
    end.
Proof.
  cbn [scan_rows]. unfold at_row, row_column.
  destruct (js_split ch_comma line !! idxPath) as [col|]; [|reflexivity].
  destruct (bool_decide (normalize_backslashes col = target)); reflexivity.
Qed.

Lemma row_matches_column (idxPath : nat) (target line col : jstr) :
  row_column idxPath line = Some col ->
  row_matches idxPath target line = bool_decide (normalize_backslashes col = target).
Proof.
  intros H. unfold row_matches. rewrite H. cbn [fmap option_fmap option_map].
  apply bool_decide_ext. split; [intros [= ->]; reflexivity | intros ->; reflexivity].
Qed.

Lemma first_matching_row_cons (idxPath : nat) (target line : jstr) (rest : list jstr) :
  first_matching_row idxPath target (line :: rest)
  = if row_matches idxPath target line then Some line
    else first_matching_row idxPath target rest.
Proof.
  unfold first_matching_row. cbn [list_find].
  destruct (row_matches idxPath target line) eqn:E.
  - rewrite decide_True by reflexivity. reflexivity.
  - rewrite decide_False by discriminate.
    destruct (list_find _ rest) as [[i l]|]; reflexivity.
Qed.

Lemma scan_rows_first_match (idxPath idxPermalink : nat) (target : jstr) (rows : list jstr) :
  Forall (fun line => is_Some (row_column idxPath line)) rows ->
  scan_rows URL_pathname outDir contentRelPath idxPath idxPermalink target rows
  = match first_matching_row idxPath target rows with
    | None => Throw (ErrLocalized "error.htmlNotGenerated" [contentRelPath])
    | Some line => at_row URL_pathname outDir contentRelPath idxPermalink line
    end.
Proof.
  induction 1 as [|line rest [col Hcol] Hrest IH]; [reflexivity|].
  rewrite scan_rows_cons, first_matching_row_cons, Hcol.
  rewrite (row_matches_column idxPath target line col Hcol).
  destruct (bool_decide (normalize_backslashes col = target)); [reflexivity | exact IH].
Qed.

Lemma at_row_located (idxPermalink : nat) (line : jstr) :
  (forall permalink pathname,
     row_column idxPermalink line = Some permalink ->
     URL_pathname permalink = Some pathname ->
     path.isAbsolute (strip_leading_slashes pathname) = false) ->
  at_row URL_pathname outDir contentRelPath idxPermalink line
  = match row_column idxPermalink line with
    | None | Some [] =>
        Throw (ErrLocalized "error.hugoPermalinkMissing" [contentRelPath])
    | Some permalink =>
        match URL_pathname permalink with
        | None => Throw ErrTypeError
        | Some pathname =>
            Ok (path.join [outDir; strip_leading_slashes pathname; "index.html"])
        end
    end.
Proof.
  intros Hrel. unfold at_row.
  destruct (row_column idxPermalink line) as [[|c permalink]|] eqn:Hcol; [reflexivity | | reflexivity].
  destruct (URL_pathname (c :: permalink)) as [pathname|] eqn:Hurl; [|reflexivity].
  rewrite join_nested; [reflexivity|]. apply strip_not_absolute.
Qed.

Lemma resolveHtmlPath_located (stdout : jstr) :
  rows_have_path stdout ->
  resolveHtmlPath_of_stdout URL_pathname outDir contentRelPath stdout
  = located_page URL_pathname outDir contentRelPath stdout.
Proof.
  intros Hrows. unfold resolveHtmlPath_of_stdout, located_page.
  fold (listing_lines stdout). fold (listing_headers stdout).
  destruct (bool_decide (length (listing_lines stdout) < 2)); [reflexivity|].
  destruct (indexOf (listing_headers stdout) "path") as [idxPath|] eqn:Hp; [|reflexivity].
  destruct (indexOf (listing_headers stdout) "permalink") as [idxPermalink|]; [|reflexivity].
  fold (listing_rows stdout). fold (listing_target contentRelPath).
  rewrite scan_rows_first_match by (apply (Hrows idxPath); exact Hp).
  destruct (first_matching_row _ _ _) as [line|]; [|reflexivity].
  apply at_row_located. intros. apply strip_not_absolute.
Qed.
End Listing.

Lemma located_page_fails (URL_pathname : jstr -> option jstr)
    (outDir contentRelPath stdout : jstr) :
  (exists e, located_page URL_pathname outDir contentRelPath stdout = Throw e)
  <-> listing_fails URL_pathname contentRelPath stdout.
Proof.
  unfold located_page, listing_fails.
  case_bool_decide as Hlen.
  { split; [intros _; left; exact Hlen | intros _; eexists; reflexivity]. }
  destruct (indexOf (listing_headers stdout) "path") as [idxPath|] eqn:Hp.
  2:{ split; [intros _; right; left; reflexivity | intros _; eexists; reflexivity]. }
  destruct (indexOf (listing_headers stdout) "permalink") as [idxPermalink|] eqn:Hl.
  2:{ split; [intros _; right; right; left; reflexivity | intros _; eexists; reflexivity]. }
  split.
  - intros [e He]. right; right; right. exists idxPath, idxPermalink.
    split; [reflexivity|]. split; [reflexivity|].
    destruct (first_matching_row _ _ _) as [line|]; [|exact I].
    destruct (row_column idxPermalink line) as [[|c permalink]|]; [exact I | | exact I].
    destruct (URL_pathname (c :: permalink)); [discriminate | reflexivity].
  - intros [H | [H | [H | (ip & il & Hip & Hil & H)]]]; [lia | discriminate | discriminate |].
    injection Hip as <-. injection Hil as <-.
    destruct (first_matching_row _ _ _) as [line|]; [|eexists; reflexivity].
    destruct (row_column idxPermalink line) as [[|c permalink]|];
      [eexists; reflexivity | | eexists; reflexivity].
    rewrite H. eexists; reflexivity.
Qed.

Lemma resolveHtmlPathByHugoList_run (h : Host) (w : World)
    (hugo workspace outDir contentRelPath stdout : jstr) (m : FileSystem) :
  exec_hugo h w hugo ["--source"; workspace; "list"; "all"] = Some (stdout, m) ->
  resolveHtmlPathByHugoList h hugo workspace outDir contentRelPath w
  = (resolveHtmlPath_of_stdout (host_URL_pathname h) outDir contentRelPath stdout,
     with_fs m (add_event (EvExecFile hugo ["--source"; workspace; "list"; "all"]) w)).
Proof.
  intros Hexec. unfold resolveHtmlPathByHugoList, execFileAsync.
  rewrite bind_assoc, bind_get_world, bind_assoc, bind_emit, Hexec.
  unfold bind, put_fs, ret, lift.
  destruct (resolveHtmlPath_of_stdout _ _ _ _); reflexivity.
Qed.

Lemma resolveHtmlPathByHugoList_located (h : Host) (w : World)
    (hugo workspace outDir contentRelPath stdout : jstr) (m : FileSystem) :
  exec_hugo h w hugo ["--source"; workspace; "list"; "all"] = Some (stdout, m) ->
  rows_have_path stdout ->
  (resolveHtmlPathByHugoList h hugo workspace outDir contentRelPath w).1
  = located_page (host_URL_pathname h) outDir contentRelPath stdout.
Proof.
  intros Hexec Hrows.
  rewrite (resolveHtmlPathByHugoList_run h w hugo workspace outDir contentRelPath stdout m Hexec).
  cbn [fst]. apply resolveHtmlPath_located, Hrows.
Qed.

(** C1 (amended).  When every data row of the listing is long enough to
    have a path column, [resolveHtmlPathByHugoList] gives the page of
    the first data row whose path column, with backslashes turned into
    slashes, is the target ([content/] and the path of the document,
    with backslashes turned into slashes): the join of [outDir], the
    path name of the permalink of that row without its leading slashes,
    and [index.html].  It throws exactly when the listing has fewer than
    two lines, when a header column is missing, when no data row
    matches, when the permalink of the matching row is missing or
    empty, or when that permalink is no URL. *)
Theorem resolveHtmlPathByHugoList_listing (h : Host) (w : World)
    (hugo workspace outDir contentRelPath stdout : jstr) (m : FileSystem) :
  exec_hugo h w hugo ["--source"; workspace; "list"; "all"] = Some (stdout, m) ->
  rows_have_path stdout ->
  (resolveHtmlPathByHugoList h hugo workspace outDir contentRelPath w).1
  = located_page (host_URL_pathname h) outDir contentRelPath stdout
  /\ ((exists e, (resolveHtmlPathByHugoList h hugo workspace outDir contentRelPath w).1
                 = Throw e)
      <-> listing_fails (host_URL_pathname h) contentRelPath stdout).
Proof.
  intros Hexec Hrows.
  rewrite (resolveHtmlPathByHugoList_located h w hugo workspace outDir contentRelPath
             stdout m Hexec Hrows).
  split; [reflexivity | apply located_page_fails].
Qed.

Lemma demo_listing_rows_have_path : rows_have_path demo_listing.
Proof.
  intros idxPath Hidx. vm_compute in Hidx. injection Hidx as <-.
  apply Forall_forall. intros line Hin.
  unfold row_column. destruct (js_split ch_comma line) eqn:E.
  - destruct (js_split_non_empty ch_comma line E).
  - eexists. reflexivity.
Qed.

(** The page of [posts/a.md] in the listing of one page. *)
Lemma resolveHtmlPathByHugoList_listing_witness :
  (resolveHtmlPathByHugoList listing_host "hugo" "/w" "/s/run/public" "posts/a.md"
     empty_world).1
  = Ok "/s/run/public/posts/a/index.html".
Proof.
  destruct (resolveHtmlPathByHugoList_listing listing_host empty_world "hugo" "/w"
              "/s/run/public" "posts/a.md" demo_listing (fs empty_world) eq_refl
              demo_listing_rows_have_path) as [Hpage _].
  rewrite Hpage. vm_compute. reflexivity.
Defined.

(** C1 as stated fails: in this listing the header has both columns,
    the second data row matches the target and has a permalink, and
    the first data row has no path column; reading it throws a
    [TypeError]. *)
Lemma resolveHtmlPath_short_row :
  listing_headers short_row_listing = ["permalink"; "path"]
  /\ listing_rows short_row_listing = ["x"; "https://example.org/a/,content/a.md"]
  /\ first_matching_row 1 (listing_target "a.md") (listing_rows short_row_listing)
     = Some "https://example.org/a/,content/a.md"
  /\ row_column 0 "https://example.org/a/,content/a.md" = Some "https://example.org/a/"
  /\ row_column 1 "x" = None
  /\ resolveHtmlPath_of_stdout (fun _ => Some "/a/") "/out" "a.md" short_row_listing
     = Throw ErrTypeError.
Proof. vm_compute. repeat split. Qed.

(** *** The two revisions *)

Lemma listed_permalink_page (URL_pathname : jstr -> option jstr)
    (outDir contentRelPath stdout permalink pathname : jstr) :
  listed_permalink contentRelPath stdout = Some permalink ->
  permalink <> [] ->
  URL_pathname permalink = Some pathname ->
  located_page URL_pathname outDir contentRelPath stdout
  = Ok (path.join [outDir; strip_leading_slashes pathname; "index.html"]).
Proof.
  unfold listed_permalink, located_page. intros Hlisted Hne Hurl.
  destruct (bool_decide (length (listing_lines stdout) < 2)); [discriminate|].
  destruct (indexOf (listing_headers stdout) "path") as [idxPath|]; [|discriminate].
  destruct (indexOf (listing_headers stdout) "permalink") as [idxPermalink|]; [|discriminate].
  destruct (first_matching_row _ _ _) as [line|]; [|discriminate].
  cbn in Hlisted. rewrite Hlisted. destruct permalink; [congruence|].
  rewrite Hurl. reflexivity.
Qed.

(** C7.  For a relative path of a document whose permalink in the
    listing has the path name of the default layout (the directory of
    the document, then its name without [.md], between slashes), the
    page that [resolveHtmlPathByHugoList] returns is the page that the
    older revision computed from the path alone. *)
Theorem resolveHtmlPathByHugoList_default_layout (h : Host) (w : World)
    (hugo workspace outDir relPath stdout permalink : jstr) (m : FileSystem) :
  path.isAbsolute relPath = false ->
  exec_hugo h w hugo ["--source"; workspace; "list"; "all"] = Some (stdout, m) ->
  rows_have_path stdout ->
  listed_permalink relPath stdout = Some permalink ->
  permalink <> [] ->
  host_URL_pathname h permalink
  = Some ("/" ++ path.dirname relPath ++ "/" ++ path.basename relPath (Some ".md") ++ "/") ->
  (resolveHtmlPathByHugoList h hugo workspace outDir relPath w).1
  = Ok (htmlPath_by_layout outDir relPath).
Proof.
  intros Hrel Hexec Hrows Hlisted Hne Hurl.
  rewrite (resolveHtmlPathByHugoList_located h w hugo workspace outDir relPath stdout m
             Hexec Hrows).
  rewrite (listed_permalink_page _ outDir relPath stdout permalink _ Hlisted Hne Hurl).
  f_equal. unfold htmlPath_by_layout. apply layout_join.
  - apply dirname_non_empty.
  - apply dirname_not_absolute, Hrel.
Qed.

(** The page of [posts/a.md], whose permalink has the default layout. *)
Lemma resolveHtmlPathByHugoList_default_layout_witness :
  (resolveHtmlPathByHugoList listing_host "hugo" "/w" "/s/run/public" "posts/a.md"
     empty_world).1
  = Ok (htmlPath_by_layout "/s/run/public" "posts/a.md").
Proof.
  apply (resolveHtmlPathByHugoList_default_layout listing_host empty_world "hugo" "/w"
           "/s/run/public" "posts/a.md" demo_listing "https://example.org/posts/a/"
           (fs empty_world)).
  - reflexivity.
  - reflexivity.
  - apply demo_listing_rows_have_path.
  - vm_compute. reflexivity.
  - discriminate.
  - vm_compute. reflexivity.
Defined.

(** ** The server process *)

Lemma startHugoServer_guard (st : Server.State) (p : nat) :
  Server.hugoServerProcess st = Some p -> Server.startHugoServer_enter st = st.
Proof. intros H. unfold Server.startHugoServer_enter. rewrite H. reflexivity. Qed.

Lemma stopHugoServer_clears (st : Server.State) :
  Server.hugoServerProcess (Server.stopHugoServer st) = None.
Proof. unfold Server.stopHugoServer. destruct (Server.hugoServerProcess st) eqn:E; [reflexivity | exact E]. Qed.

Lemma on_error_clears (p : nat) (st : Server.State) :
  Server.hugoServerProcess (Server.on_error p st) = None.
Proof. reflexivity. Qed.

Lemma enter_times_process (n : nat) (st : Server.State) :
  Server.hugoServerProcess (Server.enter_times n st) = Server.hugoServerProcess st.
Proof.
  revert st. induction n as [|n IH]; intros st; [reflexivity|].
  cbn [Server.enter_times]. rewrite IH. unfold Server.startHugoServer_enter.
  destruct (Server.hugoServerProcess st) eqn:E; [exact E | reflexivity].
Qed.

Lemma on_exit_clears (p : nat) (st : Server.State) :
  Server.hugoServerProcess (Server.on_exit p st) = None.
Proof. unfold Server.on_exit. rewrite enter_times_process. reflexivity. Qed.

(** C4.  Two calls of [startHugoServer] that both pass the guard before
    either has spawned its child leave two children alive, of which
    the variable holds the second. *)
Theorem start_twice_spawns_twice :
  Server.run Server.init
    [Server.CallStart; Server.CallStart;
     Server.EnsureHugoResolved Server.Spawned;
     Server.EnsureHugoResolved Server.Spawned]
  = Some {| Server.hugoServerProcess := Some 1; Server.alive := [1; 0];
            Server.spawned := 2; Server.starting := 0;
            Server.restarting := [] |}.
Proof. vm_compute. reflexivity. Qed.

(** A child that was stopped and has not exited yet lives on beside the
    child of the next start. *)
Lemma start_after_stop_before_exit :
  Server.run Server.init
    [Server.CallStart; Server.EnsureHugoResolved Server.Spawned;
     Server.CallStop;
     Server.CallStart; Server.EnsureHugoResolved Server.Spawned]
  = Some {| Server.hugoServerProcess := Some 1; Server.alive := [1; 0];
            Server.spawned := 2; Server.starting := 0;
            Server.restarting := [] |}.
Proof. vm_compute. reflexivity. Qed.

(** ** The file system *)

Lemma dir_chain_self (before s : jstr) : before ++ s ∈ dir_chain before s.
Proof.
  revert before. induction s as [|c t IH]; intros before.
  - rewrite app_nil_r. left.
  - cbn [dir_chain]. apply elem_of_app. right.
    replace (before ++ c :: t) with ((before ++ [c]) ++ t) by (rewrite <- app_assoc; reflexivity).
    apply IH.
Qed.

Lemma made_dirs_lookup (chain : list jstr) (m : FileSystem) (k : jstr) :
  foldr (fun q acc => <[q := Dir]> acc) m chain !! k
  = if decide (k ∈ chain) then Some Dir else m !! k.
Proof.
  induction chain as [|q chain IH]; cbn [foldr].
  - rewrite decide_False by apply not_elem_of_nil. reflexivity.
  - destruct (decide (q = k)) as [->|Hne].
    + rewrite lookup_insert_eq, decide_True by left. reflexivity.
    + rewrite lookup_insert_ne by exact Hne. rewrite IH.
      destruct (decide (k ∈ chain)) as [Hin|Hout].
      * rewrite decide_True by (right; exact Hin). reflexivity.
      * rewrite decide_False; [reflexivity|].
        intros Hin. apply elem_of_cons in Hin as [->|Hin]; [congruence | tauto].
Qed.

Lemma mkdirSync_lookup (m m' : FileSystem) (p k : jstr) :
  mkdirSync m p = Ok m' ->
  m' !! k = if decide (k ∈ dir_chain [] p) then Some Dir else m !! k.
Proof.
  unfold mkdirSync. destruct (existsb _ _); [discriminate|].
  intros [= <-]. apply made_dirs_lookup.
Qed.

Lemma mkdirSync_no_file (m m' : FileSystem) (p k : jstr) :
  mkdirSync m p = Ok m' -> k ∈ dir_chain [] p -> is_file (m !! k) = false.
Proof.
  unfold mkdirSync. destruct (existsb _ _) eqn:E; [discriminate|]. intros _ Hin.
  destruct (is_file (m !! k)) eqn:Hf; [|reflexivity].
  assert (existsb (fun q => is_file (m !! q)) (dir_chain [] p) = true).
  { apply existsb_exists. exists k. split; [apply list_elem_of_In, Hin | exact Hf]. }
  congruence.
Qed.

Lemma mkdirSync_made (m m' : FileSystem) (p : jstr) :
  mkdirSync m p = Ok m' -> m' !! p = Some Dir.
Proof.
  intros H. rewrite (mkdirSync_lookup m m' p p H).
  rewrite decide_True; [reflexivity|]. apply (dir_chain_self [] p).
Qed.

Lemma mkdirSync_keeps_dir (m m' : FileSystem) (p k : jstr) :
  mkdirSync m p = Ok m' -> m !! k = Some Dir -> m' !! k = Some Dir.
Proof.
  intros H Hk. rewrite (mkdirSync_lookup m m' p k H).
  destruct (decide _); [reflexivity | exact Hk].
Qed.

Lemma mkdirSync_files (m m' : FileSystem) (p k : jstr) (content : jstr) :
  mkdirSync m p = Ok m' ->
  m' !! k = Some (File content) <-> m !! k = Some (File content).
Proof.
  intros H. rewrite (mkdirSync_lookup m m' p k H).
  destruct (decide (k ∈ dir_chain [] p)) as [Hin|Hout]; [|reflexivity].
  pose proof (mkdirSync_no_file m m' p k H Hin) as Hnf.
  split; [discriminate|]. intros Hk. rewrite Hk in Hnf. discriminate.
Qed.

Lemma files_below_lookup (m : FileSystem) (dir k : jstr) :
  files_below m dir !! k
  = match m !! k with
    | Some (File content) =>
        if startsWith k (dir ++ "/") then Some (File content) else None
    | _ => None
    end.
Proof.
  unfold files_below. rewrite map_lookup_filter.
  destruct (m !! k) as [[content|]|]; cbn; [| |reflexivity].
  - destruct (startsWith k (dir ++ "/")) eqn:E.
    + rewrite option_guard_True by (split; reflexivity). reflexivity.
    + rewrite option_guard_False; [reflexivity|]. intros [_ H]. cbn in H. congruence.
  - rewrite option_guard_False; [reflexivity|]. intros [H _]. discriminate.
Qed.

Lemma files_below_mkdirSync (m m' : FileSystem) (p dir : jstr) :
  mkdirSync m p = Ok m' -> files_below m' dir = files_below m dir.
Proof.
  intros H. apply map_eq. intros k. rewrite !files_below_lookup.
  destruct (m' !! k) as [[content|]|] eqn:E'.
  - apply (mkdirSync_files m m' p k content H) in E'. rewrite E'. reflexivity.
  - destruct (m !! k) as [[content|]|] eqn:E; [|reflexivity..].
    apply (mkdirSync_files m m' p k content H) in E. congruence.
  - destruct (m !! k) as [[content|]|] eqn:E; [|reflexivity..].
    apply (mkdirSync_files m m' p k content H) in E. congruence.
Qed.

Lemma files_below_write (m : FileSystem) (dir p data : jstr) :
  startsWith p (dir ++ "/") = true ->
  files_below (<[p := File data]> m) dir = <[p := File data]> (files_below m dir).
Proof.
  intros Hp. apply map_eq. intros k. rewrite files_below_lookup.
  destruct (decide (p = k)) as [->|Hne].
  - rewrite !lookup_insert_eq, Hp. reflexivity.
  - rewrite !lookup_insert_ne by exact Hne. rewrite files_below_lookup. reflexivity.
Qed.

Lemma writeFileSync_ok (m m' : FileSystem) (p data : jstr) :
  writeFileSync m p data = Ok m' -> m' = <[p := File data]> m /\ m !! p <> Some Dir.
Proof.
  unfold writeFileSync. destruct (is_dir (m !! p)) eqn:E; [discriminate|].
  destruct (negb _); [discriminate|]. intros [= <-]. split; [reflexivity|].
  intros H. rewrite H in E. discriminate.
Qed.

(** ** Paths below a directory *)

Lemma clean_not_trailing (x : jstr) : clean_segment x -> path.trailingSeparator x = false.
Proof. intros Hx. apply (intercalate_not_trailing [] x Hx). Qed.

Lemma clean_not_absolute (x : jstr) : clean_segment x -> path.isAbsolute x = false.
Proof. intros Hx. apply (intercalate_not_absolute [x]). constructor; [exact Hx | constructor]. Qed.

Lemma name_is_kept (x : jstr) : name_segment x -> kept_segment x.
Proof. intros (H1 & H2 & _). split; assumption. Qed.

(** Normalising twice is normalising once. *)
Lemma normalize_segs_idem (a : bool) (segs : list jstr) :
  path.normalize_segs a [] (rev (path.normalize_segs a [] segs))
  = path.normalize_segs a [] segs.
Proof.
  destruct a; [apply normalize_segs_absorb|].
  rewrite normalize_segs_names.
  - rewrite rev_involutive, app_nil_r. reflexivity.
  - apply Forall_rev, normalize_segs_rooted.
Qed.

Lemma join_named (args : list jstr) (x : jstr) :
  clean_segment x -> name_segment x ->
  named_path (join_absolute (args ++ [x]))
    (rev (path.normalize_segs (negb (join_absolute (args ++ [x]))) [] (args ≫= path.segments)))
    x (path.join (args ++ [x])).
Proof.
  intros Hclean Hname.
  assert (Hx : x <> []) by apply Hclean.
  set (abs := join_absolute (args ++ [x])).
  set (st := path.normalize_segs (negb abs) [] (args ≫= path.segments)).
  assert (Hst : path.normalize_segs (negb abs) [] ((args ≫= path.segments) ++ [x]) = x :: st).
  { rewrite normalize_segs_app, normalize_segs_name by exact Hname. reflexivity. }
  split.
  - rewrite join_render by (apply join_parts_snoc_non_empty; exact Hx).
    rewrite join_trailing_snoc, clean_not_trailing by assumption.
    rewrite bind_app. cbn [mbind list_bind]. rewrite app_nil_r.
    rewrite (segments_clean x) by exact Hclean.
    fold abs. rewrite Hst. rewrite render_named by exact Hx. reflexivity.
  - apply Forall_app. split; [|constructor; [exact Hclean | constructor]].
    apply Forall_rev. apply normalize_segs_clean; [constructor | apply bind_segments_all_clean].
  - rewrite rev_involutive. change (rev st ++ [x]) with (rev (x :: st)).
    rewrite <- Hst. apply normalize_segs_idem.
Qed.

Lemma named_path_non_empty (absolute : bool) (dirs : list jstr) (name p : jstr) :
  named_path absolute dirs name p -> p <> [].
Proof.
  intros [-> Hclean _] H. apply app_eq_nil in H as [_ H].
  apply (intercalate_snoc_non_empty "/" dirs name); [|exact H].
  apply Forall_app in Hclean as [_ Hn]. inversion Hn as [|? ? [Hne _] _]; subst. exact Hne.
Qed.

Lemma named_path_absolute (absolute : bool) (dirs : list jstr) (name p : jstr) :
  named_path absolute dirs name p -> path.isAbsolute p = absolute.
Proof.
  intros [-> Hclean _]. destruct absolute.
  - reflexivity.
  - cbn [app]. apply intercalate_not_absolute, Hclean.
Qed.

Lemma named_path_trailing (absolute : bool) (dirs : list jstr) (name p : jstr) :
  named_path absolute dirs name p -> path.trailingSeparator p = false.
Proof.
  intros [-> Hclean _].
  apply Forall_app in Hclean as [_ Hn]. inversion Hn as [|? ? Hname _]; subst.
  pose proof (intercalate_not_trailing dirs name Hname) as H.
  destruct absolute; [|exact H].
  rewrite trailingSeparator_app; [exact H|].
  apply intercalate_snoc_non_empty. apply Hname.
Qed.

Lemma named_path_segments (absolute : bool) (dirs : list jstr) (name p : jstr) :
  named_path absolute dirs name p -> path.segments p = dirs ++ [name].
Proof.
  intros [-> Hclean _]. destruct absolute.
  - rewrite segments_slash_l. apply segments_intercalate, Hclean.
  - apply segments_intercalate, Hclean.
Qed.

(** Joining names to such a path puts them below it. *)
Lemma join_below (absolute : bool) (dirs : list jstr) (name base : jstr)
    (names : list jstr) :
  named_path absolute dirs name base ->
  names <> [] -> Forall clean_segment names -> Forall name_segment names ->
  path.join [base; intercalate "/" names] = base ++ "/" ++ intercalate "/" names.
Proof.
  intros Hbase Hne Hclean Hnames.
  pose proof (named_path_non_empty _ _ _ _ Hbase) as Hb.
  destruct names as [|n names _] using rev_ind; [congruence|].
  assert (Hr : intercalate "/" (names ++ [n]) <> []).
  { apply intercalate_snoc_non_empty.
    apply Forall_app in Hclean as [_ Hn]. inversion Hn as [|? ? [Hnn _] _]; subst. exact Hnn. }
  change [base; intercalate "/" (names ++ [n])]
    with ([base] ++ [intercalate "/" (names ++ [n])]).
  rewrite join_render by (apply join_parts_snoc_non_empty; exact Hr).
  rewrite join_trailing_snoc by exact Hr.
  rewrite intercalate_not_trailing
    by (apply Forall_app in Hclean as [_ Hn]; inversion Hn; subst; assumption).
  cbn [app]. rewrite join_absolute_cons.
  destruct base as [|c base'] eqn:Ebase; [congruence|]. cbn [non_empty].
  rewrite <- Ebase in *.
  rewrite (named_path_absolute _ _ _ _ Hbase).
  cbn [mbind list_bind]. rewrite app_nil_r.
  rewrite (named_path_segments _ _ _ _ Hbase).
  rewrite segments_intercalate by exact Hclean.
  rewrite normalize_segs_app, (named_normal _ _ _ _ Hbase).
  rewrite normalize_segs_names by exact Hnames.
  rewrite rev_app_distr. cbn [rev app].
  rewrite render_named.
  2:{ apply Forall_app in Hclean as [_ Hn]. inversion Hn as [|? ? [Hnn _] _]; subst. exact Hnn. }
  cbn [rev]. rewrite !rev_app_distr, !rev_involutive. cbn [rev app].
  rewrite (named_eq _ _ _ _ Hbase) at 1.
  rewrite rev_involutive, <- !app_assoc. f_equal.
  rewrite (app_assoc dirs [name]), intercalate_app; [reflexivity | | ].
  - destruct dirs; discriminate.
  - destruct names; discriminate.
Qed.

(** Joining nothing to such a path gives the path. *)
Lemma join_nothing (absolute : bool) (dirs : list jstr) (name base : jstr) :
  named_path absolute dirs name base -> path.join [base; ""] = base.
Proof.
  intros Hbase.
  pose proof (named_path_non_empty _ _ _ _ Hbase) as Hb.
  assert (Hparts : join_parts [base; ""] = [base]).
  { unfold join_parts. cbn [filter list_filter]. destruct base; [congruence|].
    rewrite decide_True by reflexivity. rewrite decide_False by discriminate. reflexivity. }
  rewrite join_render by (rewrite Hparts; discriminate).
  unfold join_absolute, join_trailing. rewrite Hparts. cbn [head last fmap option_fmap option_map default].
  rewrite (named_path_absolute _ _ _ _ Hbase), (named_path_trailing _ _ _ _ Hbase).
  cbn [mbind list_bind]. rewrite segments_nil, !app_nil_r.
  unfold id. rewrite (named_path_segments _ _ _ _ Hbase), (named_normal _ _ _ _ Hbase).
  rewrite render_named.
  2:{ destruct Hbase as [_ Hclean _].
      apply Forall_app in Hclean as [_ Hn]. inversion Hn as [|? ? [Hnn _] _]; subst. exact Hnn. }
  cbn [rev]. rewrite rev_involutive. symmetry. apply (named_eq _ _ _ _ Hbase).
Qed.

(** ** [path.resolve] and [path.relative] *)

Lemma absolute_non_empty (p : jstr) : path.isAbsolute p = true -> non_empty p = true.
Proof. destruct p; [discriminate | reflexivity]. Qed.

(** With an absolute working directory, a resolved path is a slash and
    names between slashes. *)
Lemma resolve_names (cwd p : jstr) :
  path.isAbsolute cwd = true ->
  exists names,
    Forall clean_segment names /\ Forall name_segment names
    /\ path.resolve cwd [p] = "/" ++ intercalate "/" names.
Proof.
  intros Hcwd. pose proof (absolute_non_empty cwd Hcwd) as Hne.
  unfold path.resolve. cbn [rev app path.resolve_loop]. rewrite Hne, Hcwd. cbn [negb].
  assert (Hshape : forall rp,
    exists names, Forall clean_segment names /\ Forall name_segment names
      /\ "/" ++ path.normalizeString rp (negb true) = "/" ++ intercalate "/" names).
  { intros rp. unfold path.normalizeString. rewrite normalize_segs_segments.
    exists (rev (path.normalize_segs false [] (path.segments rp))).
    split; [|split; [|reflexivity]].
    - apply Forall_rev, normalize_segs_clean; [constructor | apply segments_all_clean].
    - apply Forall_rev, normalize_segs_rooted. }
  destruct (non_empty p); cbn [negb]; [|apply Hshape].
  destruct (path.isAbsolute p); apply Hshape.
Qed.

Lemma intercalate_clean_below (below above : list jstr) (rest : jstr) :
  Forall clean_segment below -> Forall clean_segment above ->
  intercalate "/" below = intercalate "/" above ++ "/" ++ rest ->
  below = above ++ js_split ch_slash rest.
Proof.
  intros Hbelow Habove Heq.
  assert (Hfree : forall l, Forall clean_segment l -> Forall (fun piece => ch_slash ∉ piece) l).
  { intros l Hl. eapply Forall_impl; [exact Hl|]. intros x [_ Hx]. exact Hx. }
  assert (Hb : below <> []).
  { intros ->. destruct (intercalate "/" above); discriminate. }
  apply (f_equal (js_split ch_slash)) in Heq.
  change "/" with [ch_slash] in Heq.
  rewrite js_split_intercalate in Heq by (try exact Hb; apply Hfree, Hbelow).
  change ([ch_slash] ++ rest) with (ch_slash :: rest) in Heq.
  rewrite js_split_app_sep in Heq.
  destruct above as [|a above].
  - cbn in Heq. rewrite Heq in Hbelow. inversion Hbelow as [|? ? [Hne _] _]; subst. congruence.
  - rewrite js_split_intercalate in Heq by (try discriminate; apply Hfree, Habove).
    exact Heq.
Qed.

Lemma drop_common_prefix (common rest : list jstr) :
  path.drop_common common (common ++ rest) = ([], rest).
Proof.
  induction common as [|x common IH]; [destruct rest; reflexivity|].
  cbn [app path.drop_common]. rewrite bool_decide_true by reflexivity. exact IH.
Qed.

Lemma app_longer (x y : jstr) : x <> x ++ "/" ++ y.
Proof.
  intros H. apply (f_equal length) in H. rewrite !length_app in H. simpl in H. lia.
Qed.

(** The path from a directory to what lies below it. *)
Lemma relative_below (cwd from to rest : jstr) :
  path.isAbsolute cwd = true ->
  path.resolve cwd [to] = path.resolve cwd [from] ++ "/" ++ rest ->
  path.relative cwd from to = rest
  /\ exists names,
       names <> [] /\ Forall clean_segment names /\ Forall name_segment names
       /\ rest = intercalate "/" names.
Proof.
  intros Hcwd Hbelow.
  destruct (resolve_names cwd from Hcwd) as (above & Hca & Hna & Hfrom).
  destruct (resolve_names cwd to Hcwd) as (below & Hcb & Hnb & Hto).
  assert (Hsplit : below = above ++ js_split ch_slash rest).
  { apply intercalate_clean_below; [assumption..|].
    rewrite Hfrom, Hto in Hbelow. rewrite <- app_assoc in Hbelow.
    apply app_inv_head in Hbelow. exact Hbelow. }
  assert (Hrest : intercalate "/" (js_split ch_slash rest) = rest).
  { change "/" with [ch_slash]. apply intercalate_js_split. }
  split.
  - unfold path.relative.
    rewrite bool_decide_false.
    2:{ intros ->. apply (app_longer _ _ Hbelow). }
    rewrite bool_decide_false.
    2:{ intros Heq. rewrite Heq in Hbelow. apply (app_longer _ _ Hbelow). }
    rewrite Hfrom, Hto, !segments_slash_l.
    rewrite !segments_intercalate by assumption.
    rewrite Hsplit, drop_common_prefix. cbn [length replicate app]. exact Hrest.
  - exists (js_split ch_slash rest).
    rewrite Hsplit in Hcb, Hnb. apply Forall_app in Hcb as [_ Hcb]. apply Forall_app in Hnb as [_ Hnb].
    split; [apply js_split_non_empty|]. split; [exact Hcb|]. split; [exact Hnb|].
    symmetry. exact Hrest.
Qed.

Lemma relative_same (cwd from to : jstr) :
  path.resolve cwd [to] = path.resolve cwd [from] -> path.relative cwd from to = "".
Proof.
  intros Heq. unfold path.relative.
  destruct (bool_decide (from = to)); [reflexivity|].
  rewrite bool_decide_true by (symmetry; exact Heq). reflexivity.
Qed.

(** ** The copy of the document *)

Lemma openPreview_copy_inv (h : Host) (w w' : World) (job : PreviewJob) :
  openPreview_copy h w = (Ok job, w') ->
  exists doc workspace hugo w0 m1 m2 m3 m4,
    activeTextEditor h = Some doc
    /\ open_workspace h = Some workspace
    /\ ensureHugo h false w = (Ok hugo, w0)
    /\ mkdirSync (fs w0) (contentDir h) = Ok m1
    /\ mkdirSync m1 (outDir h) = Ok m2
    /\ in_content h workspace (doc_fsPath doc) = true
    /\ job_relPath job
       = path.relative (process_cwd h) (path.join [workspace; "content"]) (doc_fsPath doc)
    /\ job_dstMdPath job = path.join [contentDir h; job_relPath job]
    /\ mkdirSync m2 (path.dirname (job_dstMdPath job)) = Ok m3
    /\ writeFileSync m3 (job_dstMdPath job) (getText doc) = Ok m4
    /\ fs w' = m4.
Proof.
  unfold openPreview_copy.
  destruct (activeTextEditor h) as [doc|] eqn:Edoc; [|discriminate].
  destruct (negb (bool_decide (languageId doc = "markdown"))); [discriminate|].
  destruct (open_workspace h) as [workspace|] eqn:Ews; [|discriminate].
  unfold bind at 1. destruct (ensureHugo h false w) as [[hugo|e] w0] eqn:E0; [|discriminate].
  rewrite bind_fs_call.
  destruct (mkdirSync (fs w0) (contentDir h)) as [m1|e1] eqn:E1; [|discriminate].
  rewrite bind_fs_call. cbn [fs with_fs].
  destruct (mkdirSync m1 (outDir h)) as [m2|e2] eqn:E2; [|discriminate].
  destruct (in_content h workspace (doc_fsPath doc)) eqn:Ein; [|discriminate].
  cbn [negb]. rewrite bind_fs_call. cbn [fs with_fs].
  destruct (mkdirSync m2 _) as [m3|e3] eqn:E3; [|discriminate].
  rewrite bind_fs_call. cbn [fs with_fs].
  destruct (writeFileSync m3 _ _) as [m4|e4] eqn:E4; [|discriminate].
  intros [= <- <-]. cbn [job_relPath job_dstMdPath fs with_fs].
  exists doc, workspace, hugo, w0, m1, m2, m3, m4.
  repeat (split; [first [reflexivity | assumption]|]). reflexivity.
Qed.

Lemma contentDir_named (h : Host) :
  exists absolute dirs, named_path absolute dirs "content" (contentDir h).
Proof.
  eexists _, _. unfold contentDir.
  apply (join_named [runRoot h] "content").
  - split; [discriminate|]. apply (bool_decide_unpack _). vm_compute. exact I.
  - repeat split; discriminate.
Qed.

(** The document is written below the content directory, or onto it. *)
Lemma destination_below (h : Host) (workspace docPath : jstr) :
  path.isAbsolute (process_cwd h) = true ->
  in_content h workspace docPath = true ->
  let relPath := path.relative (process_cwd h) (path.join [workspace; "content"]) docPath in
  path.join [contentDir h; relPath] = contentDir h
  \/ path.join [contentDir h; relPath] = contentDir h ++ "/" ++ relPath.
Proof.
  intros Hcwd Hin relPath.
  destruct (contentDir_named h) as (absolute & dirs & Hnamed).
  unfold in_content in Hin. apply orb_true_iff in Hin as [Hbelow | Hsame].
  - right. apply startsWith_spec in Hbelow as (rest & Hrest).
    unfold norm in Hrest. rewrite <- app_assoc in Hrest.
    destruct (relative_below _ _ _ _ Hcwd Hrest) as (Hrel & names & Hne & Hc & Hn & Hnames).
    unfold relPath. rewrite Hrel, Hnames.
    apply (join_below absolute dirs "content"); assumption.
  - left. apply bool_decide_eq_true in Hsame. unfold norm in Hsame.
    unfold relPath. rewrite (relative_same _ _ _ Hsame).
    apply (join_nothing absolute dirs "content"), Hnamed.
Qed.

(** C2 (amended).  When [openPreview] reaches the build, the text of the
    document has been written below the temporary content directory,
    at the path of the document relative to the content directory of
    the workspace; the other files below the temporary content
    directory are those that were there when the copy started.  So if
    there was no other file, the directory now holds exactly one file. *)
Theorem openPreview_copy_content (h : Host) (w w' : World) (job : PreviewJob) :
  path.isAbsolute (process_cwd h) = true ->
  openPreview_copy h w = (Ok job, w') ->
  exists doc workspace,
    activeTextEditor h = Some doc
    /\ open_workspace h = Some workspace
    /\ job_relPath job
       = path.relative (process_cwd h) (path.join [workspace; "content"]) (doc_fsPath doc)
    /\ job_dstMdPath job = contentDir h ++ "/" ++ job_relPath job
    /\ fs w' !! job_dstMdPath job = Some (File (getText doc))
    /\ files_below (fs w') (contentDir h)
       = <[job_dstMdPath job := File (getText doc)]>
           (files_below (fs (ensureHugo h false w).2) (contentDir h))
    /\ (no_other_file (fs (ensureHugo h false w).2) (contentDir h) (job_dstMdPath job) ->
        files_below (fs w') (contentDir h)
        = {[ job_dstMdPath job := File (getText doc) ]}).
Proof.
  intros Hcwd Hrun.
  destruct (openPreview_copy_inv h w w' job Hrun)
    as (doc & workspace & hugo & w0 & m1 & m2 & m3 & m4 & Hdoc & Hws & Hhugo & Hmk1 & Hmk2
        & Hin & Hrel & Hdst & Hmk3 & Hwrite & Hfs).
  exists doc, workspace.
  apply writeFileSync_ok in Hwrite as [-> Hnodir].
  assert (Hbelow : job_dstMdPath job = contentDir h ++ "/" ++ job_relPath job).
  { pose proof (destination_below h workspace (doc_fsPath doc) Hcwd Hin) as Hcases.
    cbv zeta in Hcases. rewrite <- Hrel, <- Hdst in Hcases.
    destruct Hcases as [Honto | Hunder]; [|exact Hunder].
    destruct Hnodir. rewrite Honto.
    apply (mkdirSync_keeps_dir m2 m3 _ _ Hmk3).
    apply (mkdirSync_keeps_dir m1 m2 _ _ Hmk2).
    apply (mkdirSync_made _ _ _ Hmk1). }
  assert (Hfiles : files_below (fs w') (contentDir h)
                   = <[job_dstMdPath job := File (getText doc)]>
                       (files_below (fs (ensureHugo h false w).2) (contentDir h))).
  { rewrite Hfs, Hhugo. cbn [snd].
    rewrite files_below_write.
    - rewrite (files_below_mkdirSync m2 m3 _ _ Hmk3).
      rewrite (files_below_mkdirSync m1 m2 _ _ Hmk2).
      rewrite (files_below_mkdirSync (fs w0) m1 _ _ Hmk1). reflexivity.
    - apply startsWith_spec. exists (job_relPath job).
      rewrite Hbelow at 1. rewrite app_assoc. reflexivity. }
  repeat (split; [first [assumption | reflexivity]|]).
  split; [|split; [exact Hfiles|]].
  - rewrite Hfs. apply lookup_insert_eq.
  - intros Hnone. rewrite Hfiles. apply map_eq. intros k.
    destruct (decide (job_dstMdPath job = k)) as [<-|Hne].
    + rewrite lookup_insert_eq, lookup_singleton_eq. reflexivity.
    + rewrite lookup_insert_ne, lookup_singleton_ne by exact Hne.
      apply Hnone. congruence.
Qed.

(** The first preview of [posts/a.md] leaves one file below the
    temporary content directory. *)
Lemma openPreview_copy_content_witness :
  exists doc workspace,
    activeTextEditor demo_host = Some doc
    /\ open_workspace demo_host = Some workspace
    /\ job_relPath demo_job
       = path.relative (process_cwd demo_host) (path.join [workspace; "content"])
           (doc_fsPath doc)
    /\ job_dstMdPath demo_job = contentDir demo_host ++ "/" ++ job_relPath demo_job
    /\ fs demo_copied !! job_dstMdPath demo_job = Some (File (getText doc))
    /\ files_below (fs demo_copied) (contentDir demo_host)
       = <[job_dstMdPath demo_job := File (getText doc)]>
           (files_below (fs (ensureHugo demo_host false empty_world).2)
              (contentDir demo_host))
    /\ (no_other_file (fs (ensureHugo demo_host false empty_world).2)
          (contentDir demo_host) (job_dstMdPath demo_job) ->
        files_below (fs demo_copied) (contentDir demo_host)
        = {[ job_dstMdPath demo_job := File (getText doc) ]}).
Proof.
  apply (openPreview_copy_content demo_host empty_world demo_copied demo_job).
  - reflexivity.
  - vm_compute. reflexivity.
Defined.

(** C2 (as stated) fails.  The preview of [posts/a.md] followed by the
    preview of [posts/b.md] reaches the build with two files below the
    temporary content directory: the copy of the first document is
    still there. *)
Lemma openPreview_copy_keeps_earlier_copy :
  exists job w,
    openPreview_copy (with_document document_b demo_host) demo_copied = (Ok job, w)
    /\ files_below (fs w) (contentDir (with_document document_b demo_host))
       = {[ "/s/run/content/posts/a.md" := File "# A";
            "/s/run/content/posts/b.md" := File "# B" ]}.
Proof.
  eexists _, _. split; vm_compute; reflexivity.
Qed.

(** ** What [ensureHugo] returns *)

Lemma bind_Ok_inv {A B : Type} (m : M A) (k : A -> M B) (w w' : World) (b : B) :
  bind m k w = (Ok b, w') -> exists a w1, m w = (Ok a, w1) /\ k a w1 = (Ok b, w').
Proof. unfold bind. destruct (m w) as [[a|e] w1]; [eauto | discriminate]. Qed.

Lemma checkHugo_true (h : Host) (p : jstr) (w w' : World) :
  checkHugo h p w = (Ok true, w') -> just_ran h p w'.
Proof.
  rewrite checkHugo_run. intros [= Hok <-]. exists w. split; [reflexivity|].
  apply bool_decide_eq_true in Hok. exact Hok.
Qed.

Lemma exists_and_runs_true (h : Host) (p : jstr) (w w' : World) :
  exists_and_runs h p w = (Ok true, w') -> just_ran h p w'.
Proof.
  unfold exists_and_runs. rewrite bind_get_world.
  destruct (existsSync (fs w) p); [apply checkHugo_true | discriminate].
Qed.

(** X1.  Whatever [ensureHugo] returns has just been run with the
    argument [version], with success: it is the configured path, the
    [hugo] of the [PATH] or the managed binary, and with [forceInstall]
    and no configured path it is the managed binary. *)
Theorem ensureHugo_returns_checked (h : Host) (forceInstall : bool) (w w' : World) (p : jstr) :
  ensureHugo h forceInstall w = (Ok p, w') ->
  just_ran h p w'
  /\ (if non_empty (cfg_trimmed (cfg_hugoPath h))
      then p = cfg_trimmed (cfg_hugoPath h)
      else if forceInstall then p = hugoBin h
      else p = "hugo" \/ p = hugoBin h).
Proof.
  unfold ensureHugo. destruct (non_empty (cfg_trimmed (cfg_hugoPath h))).
  - intros Hrun. apply bind_Ok_inv in Hrun as (ok & w1 & Hcheck & Hrest).
    destruct ok; [|discriminate]. injection Hrest as <- <-.
    split; [|reflexivity]. eapply checkHugo_true, Hcheck.
  - intros Hrun. apply bind_Ok_inv in Hrun as (onPath & w1 & Hpath & Hrun).
    destruct onPath.
    { injection Hrun as <- <-. destruct forceInstall; [discriminate|].
      split; [|left; reflexivity]. eapply checkHugo_true, Hpath. }
    apply bind_Ok_inv in Hrun as (managed & w2 & Hman & Hrun).
    destruct managed.
    { injection Hrun as <- <-. destruct forceInstall; [discriminate|].
      split; [|right; reflexivity]. eapply exists_and_runs_true, Hman. }
    destruct (negb (default true (cfg_autoDownload h)) && negb forceInstall); [discriminate|].
    apply bind_Ok_inv in Hrun as (choice & w3 & _ & Hrun).
    destruct (negb (bool_decide _)); [discriminate|].
    apply bind_Ok_inv in Hrun as (? & w4 & _ & Hrun).
    apply bind_Ok_inv in Hrun as (ok & w5 & Hok & Hrun).
    destruct ok; [|discriminate]. injection Hrun as <- <-.
    split; [eapply exists_and_runs_true, Hok|].
    destruct forceInstall; [reflexivity | right; reflexivity].
Qed.

(** On [demo_host] the [hugo] of the [PATH] is returned. *)
Lemma ensureHugo_returns_checked_witness :
  just_ran demo_host "hugo" (add_event (EvExecVersion "hugo") empty_world)
  /\ (if non_empty (cfg_trimmed (cfg_hugoPath demo_host))
      then "hugo" = cfg_trimmed (cfg_hugoPath demo_host)
      else if false then "hugo" = hugoBin demo_host
      else "hugo" = "hugo" \/ "hugo" = hugoBin demo_host).
Proof.
  apply (ensureHugo_returns_checked demo_host false empty_world). reflexivity.
Defined.

(** ** Without consent nothing is downloaded *)

(** X2.  With [autoDownload] switched off, [ensureHugo(context, false)]
    runs commands with the argument [version] and does nothing else:
    it asks no question, downloads nothing and leaves the file system
    as it is; it returns a path or throws [error.hugoInvalid] or
    [error.hugoNotFound]. *)
Theorem ensureHugo_without_autoDownload (h : Host) (w : World) :
  cfg_autoDownload h = Some false ->
  only_asked_versions w (ensureHugo h false w).2
  /\ match (ensureHugo h false w).1 with
     | Ok _ => True
     | Throw e =>
         e = ErrLocalized "error.hugoInvalid" [cfg_trimmed (cfg_hugoPath h)]
         \/ e = ErrLocalized "error.hugoNotFound" []
     end.
Proof.
  intros Hauto.
  assert (Hrun : exists r w',
    ensureHugo h false w = (r, w') /\ only_asked_versions w w'
    /\ match r with
       | Ok _ => True
       | Throw e =>
           e = ErrLocalized "error.hugoInvalid" [cfg_trimmed (cfg_hugoPath h)]
           \/ e = ErrLocalized "error.hugoNotFound" []
       end).
  { unfold ensureHugo. rewrite Hauto.
    destruct (non_empty (cfg_trimmed (cfg_hugoPath h))).
    - unfold bind. rewrite checkHugo_run.
      destruct (bool_decide _); eexists _, _;
        (split; [reflexivity|]); (split; [apply only_asked_versions_check | auto]).
    - cbn [negb default andb]. unfold bind at 1. rewrite checkHugo_run.
      destruct (bool_decide _).
      { eexists _, _. split; [reflexivity|].
        split; [apply only_asked_versions_check | exact I]. }
      unfold bind.
      destruct (exists_and_runs_run h (hugoBin h) (add_event (EvExecVersion "hugo") w))
        as (ok & w2 & Hrun & Hadv).
      rewrite Hrun.
      assert (Hall : only_asked_versions w w2).
      { eapply only_asked_versions_trans; [apply only_asked_versions_check | exact Hadv]. }
      destruct ok; eexists _, _; (split; [reflexivity|]); (split; [exact Hall | auto]). }
  destruct Hrun as (r & w' & -> & Hadv & Hres). split; assumption.
Qed.

Lemma ensureHugo_without_autoDownload_witness :
  only_asked_versions empty_world
    (ensureHugo (with_autoDownload (Some false) demo_host) false empty_world).2
  /\ match (ensureHugo (with_autoDownload (Some false) demo_host) false empty_world).1 with
     | Ok _ => True
     | Throw e =>
         e = ErrLocalized "error.hugoInvalid"
               [cfg_trimmed (cfg_hugoPath (with_autoDownload (Some false) demo_host))]
         \/ e = ErrLocalized "error.hugoNotFound" []
     end.
Proof.
  apply (ensureHugo_without_autoDownload (with_autoDownload (Some false) demo_host)).
  reflexivity.
Defined.

Lemma downloads_nothing_refl (w : World) : downloads_nothing w w.
Proof. split; [reflexivity|]. exists []. split; [symmetry; apply app_nil_r | constructor]. Qed.

Lemma downloads_nothing_trans (w1 w2 w3 : World) :
  downloads_nothing w1 w2 -> downloads_nothing w2 w3 -> downloads_nothing w1 w3.
Proof.
  intros [Hf1 (e1 & Ht1 & Ha1)] [Hf2 (e2 & Ht2 & Ha2)]. split; [congruence|].
  exists (e1 ++ e2). split; [rewrite Ht2, Ht1, app_assoc; reflexivity|].
  apply Forall_app; split; assumption.
Qed.

Lemma downloads_nothing_add_event (ev : Event) (w : World) :
  is_download ev = false -> downloads_nothing w (add_event ev w).
Proof.
  intros Hev. split; [reflexivity|]. exists [ev]. split; [reflexivity|].
  constructor; [exact Hev | constructor].
Qed.

Lemma only_asked_versions_downloads_nothing (w w' : World) :
  only_asked_versions w w' -> downloads_nothing w w'.
Proof.
  intros [Hfs (evs & Htrace & Hall)]. split; [exact Hfs|].
  exists evs. split; [exact Htrace|].
  eapply Forall_impl; [exact Hall|]. intros ev (cmd & ->). reflexivity.
Qed.

(** X3.  [ensureHugo] downloads nothing unless the user picks the
    button [button.install] in the message [info.confirmInstall]: when
    that button is never picked, no run of [ensureHugo], with or
    without [forceInstall], downloads anything or changes the file
    system. *)
Theorem ensureHugo_asks_before_download (h : Host) (forceInstall : bool) (w : World) :
  (forall w0,
     pick_button h w0 (localize h "info.confirmInstall" [])
       [localize h "button.install" []; localize h "button.cancel" []]
     <> Some (localize h "button.install" [])) ->
  downloads_nothing w (ensureHugo h forceInstall w).2.
Proof.
  intros Hno.
  assert (Hrun : exists r w', ensureHugo h forceInstall w = (r, w') /\ downloads_nothing w w').
  { unfold ensureHugo.
    destruct (non_empty (cfg_trimmed (cfg_hugoPath h))).
    { unfold bind. rewrite checkHugo_run.
      destruct (bool_decide _); eexists _, _; (split; [reflexivity|]);
        apply downloads_nothing_add_event; reflexivity. }
    assert (Hpath : exists onPath w1,
      (if negb forceInstall then checkHugo h "hugo" else ret false) w = (Ok onPath, w1)
      /\ downloads_nothing w w1).
    { destruct forceInstall; simpl.
      - eexists _, _. split; [reflexivity | apply downloads_nothing_refl].
      - rewrite checkHugo_run. eexists _, _. split; [reflexivity|].
        apply downloads_nothing_add_event; reflexivity. }
    destruct Hpath as (onPath & w1 & Hrun1 & Hq1).
    unfold bind at 1. rewrite Hrun1.
    destruct onPath.
    { eexists _, _. split; [reflexivity | exact Hq1]. }
    assert (Hman : exists managed w2,
      (if negb forceInstall then exists_and_runs h (hugoBin h) else ret false) w1
      = (Ok managed, w2)
      /\ downloads_nothing w1 w2).
    { destruct forceInstall; simpl.
      - eexists _, _. split; [reflexivity | apply downloads_nothing_refl].
      - destruct (exists_and_runs_run h (hugoBin h) w1) as (ok & w2 & Hrun2 & Hadv).
        eexists _, _. split; [exact Hrun2|].
        apply only_asked_versions_downloads_nothing, Hadv. }
    destruct Hman as (managed & w2 & Hrun2 & Hq2).
    unfold bind at 1. rewrite Hrun2.
    assert (Hq : downloads_nothing w w2) by (eapply downloads_nothing_trans; eassumption).
    destruct managed.
    { eexists _, _. split; [reflexivity | exact Hq]. }
    destruct (negb (default true (cfg_autoDownload h)) && negb forceInstall).
    { eexists _, _. split; [reflexivity | exact Hq]. }
    unfold showInformationMessage.
    rewrite bind_assoc, bind_get_world, bind_assoc, bind_emit, bind_ret.
    rewrite bool_decide_false by apply Hno.
    eexists _, _. split; [reflexivity|].
    eapply downloads_nothing_trans; [exact Hq|].
    apply downloads_nothing_add_event. reflexivity. }
  destruct Hrun as (r & w' & -> & Hq). exact Hq.
Qed.

(** On [demo_host] every message is dismissed. *)
Lemma ensureHugo_asks_before_download_witness :
  downloads_nothing empty_world (ensureHugo demo_host true empty_world).2.
Proof.
  apply (ensureHugo_asks_before_download demo_host true empty_world).
  intros w0. simpl. discriminate.
Defined.

(** ** What [resolveInstalledHugo] finds *)

(** X4.  [resolveInstalledHugo] never throws and only runs commands with
    the argument [version]; what it finds has just been run with
    success and is the configured path, the [hugo] of the [PATH] or the
    managed binary. *)
Theorem resolveInstalledHugo_finds_checked (h : Host) (w : World) :
  exists found w',
    resolveInstalledHugo h w = (Ok found, w')
    /\ only_asked_versions w w'
    /\ match found with
       | Some p =>
           just_ran h p w'
           /\ (p = cfg_trimmed (cfg_hugoPath h) /\ non_empty p = true
               \/ p = "hugo" \/ p = hugoBin h)
       | None => True
       end.
Proof.
  unfold resolveInstalledHugo.
  assert (Hfirst : exists ok w1,
    (if non_empty (cfg_trimmed (cfg_hugoPath h))
     then checkHugo h (cfg_trimmed (cfg_hugoPath h)) else ret false) w = (Ok ok, w1)
    /\ only_asked_versions w w1
    /\ (ok = true -> just_ran h (cfg_trimmed (cfg_hugoPath h)) w1
                      /\ non_empty (cfg_trimmed (cfg_hugoPath h)) = true)).
  { destruct (non_empty _) eqn:Hset.
    - eexists _, _. split; [apply checkHugo_run|].
      split; [apply only_asked_versions_check|].
      intros Hok. split; [|reflexivity]. eapply checkHugo_true. rewrite checkHugo_run, Hok.
      reflexivity.
    - eexists _, _. split; [reflexivity|]. split; [apply only_asked_versions_refl|].
      discriminate. }
  destruct Hfirst as (ok1 & w1 & Hrun1 & Hadv1 & Hok1).
  unfold bind at 1. rewrite Hrun1.
  destruct ok1.
  { eexists _, _. split; [reflexivity|]. split; [exact Hadv1|].
    destruct (Hok1 eq_refl) as [Hran Hset]. split; [exact Hran|]. left. split; [reflexivity|exact Hset]. }
  unfold bind at 1. rewrite checkHugo_run.
  destruct (bool_decide _) eqn:Hok2.
  { eexists _, _. split; [reflexivity|].
    split; [eapply only_asked_versions_trans; [exact Hadv1 | apply only_asked_versions_check]|].
    split; [|right; left; reflexivity].
    exists w1. split; [reflexivity|]. apply bool_decide_eq_true in Hok2. exact Hok2. }
  destruct (exists_and_runs_run h (hugoBin h) (add_event (EvExecVersion "hugo") w1))
    as (ok3 & w3 & Hrun3 & Hadv3).
  unfold bind. rewrite Hrun3.
  assert (Hadv : only_asked_versions w w3).
  { eapply only_asked_versions_trans; [exact Hadv1|].
    eapply only_asked_versions_trans; [apply only_asked_versions_check | exact Hadv3]. }
  destruct ok3; eexists _, _; (split; [reflexivity|]); (split; [exact Hadv|]); [|exact I].
  split; [eapply exists_and_runs_true, Hrun3 | right; right; reflexivity].
Qed.

(** X5.  With a configured [hugoPath] that does not run and a [hugo] on
    the [PATH] that does, [resolveInstalledHugo] finds the [hugo] of
    the [PATH], so the status bar shows its version, while
    [ensureHugo] throws [error.hugoInvalid]: the preview and the server
    refuse to start. *)
Theorem resolveInstalledHugo_falls_back (h : Host) (w : World) (forceInstall : bool) :
  let userPath := cfg_trimmed (cfg_hugoPath h) in
  non_empty userPath = true ->
  exec_version h w userPath = None ->
  is_Some (exec_version h (add_event (EvExecVersion userPath) w) "hugo") ->
  resolveInstalledHugo h w
  = (Ok (Some "hugo"),
     add_event (EvExecVersion "hugo") (add_event (EvExecVersion userPath) w))
  /\ ensureHugo h forceInstall w
     = (Throw (ErrLocalized "error.hugoInvalid" [userPath]),
        add_event (EvExecVersion userPath) w).
Proof.
  intros userPath Hset Hbad Hgood. split.
  - unfold resolveInstalledHugo. fold userPath. rewrite Hset.
    unfold bind at 1. rewrite checkHugo_run, Hbad.
    rewrite bool_decide_false by (intros [x Hx]; discriminate).
    unfold bind at 1. rewrite checkHugo_run.
    rewrite bool_decide_true by exact Hgood. reflexivity.
  - unfold ensureHugo. fold userPath. rewrite Hset.
    unfold bind. rewrite checkHugo_run, Hbad.
    rewrite bool_decide_false by (intros [x Hx]; discriminate). reflexivity.
Qed.

(** [hugoPath] is set to a command that does not exist. *)
Lemma resolveInstalledHugo_falls_back_witness :
  resolveInstalledHugo (with_settings (Some "/opt/hugo") None demo_host) empty_world
  = (Ok (Some "hugo"),
     add_event (EvExecVersion "hugo") (add_event (EvExecVersion "/opt/hugo") empty_world))
  /\ ensureHugo (with_settings (Some "/opt/hugo") None demo_host) false empty_world
     = (Throw (ErrLocalized "error.hugoInvalid" ["/opt/hugo"]),
        add_event (EvExecVersion "/opt/hugo") empty_world).
Proof.
  apply (resolveInstalledHugo_falls_back
           (with_settings (Some "/opt/hugo") None demo_host) empty_world false).
  - reflexivity.
  - reflexivity.
  - vm_compute. eexists. reflexivity.
Defined.

(** ** The check for a newer release *)

Lemma checkHugoUpdateOnStartup_found (h : Host) (w w1 : World) (p : jstr) :
  non_empty (cfg_trimmed (cfg_hugoVersion h)) = false ->
  resolveInstalledHugo h w = (Ok (Some p), w1) ->
  checkHugoUpdateOnStartup h w =
    match exec_version h w1 p ≫= match_version with
    | None => (Ok tt, add_event (EvExecVersion p) w1)
    | Some localVer =>
        let w2 := add_event (EvExecVersion p) w1 in
        match latest_version h w2 with
        | Throw e => (Throw e, add_event EvGetLatestVersion w2)
        | Ok latestVer =>
            let w3 := add_event EvGetLatestVersion w2 in
            if negb (isNewer (host_Number h) latestVer localVer) then (Ok tt, w3)
            else
              let updateLabel := localize h "button.update" [] in
              let text := localize h "info.hugoUpdateAvailable" [latestVer; localVer] in
              let buttons := [updateLabel; localize h "button.later" []] in
              let w4 := add_event (EvShowInformationMessage text buttons) w3 in
              if negb (bool_decide (pick_button h w3 text buttons = Some updateLabel))
              then (Ok tt, w4)
              else
                (installHugoInternal h latestVer (default true (cfg_useExtended h));;
                 emit (EvShowInformationMessage (localize h "info.hugoUpdated" [latestVer]) []);;
                 updateHugoStatus h) w4
        end
    end.
Proof.
  intros Hpin Hfound. unfold checkHugoUpdateOnStartup. rewrite Hpin.
  unfold bind at 1. rewrite Hfound.
  unfold bind at 1. rewrite getLocalHugoVersion_run.
  destruct (exec_version h w1 p ≫= match_version) as [localVer|]; [|reflexivity].
  cbv zeta. unfold getLatestHugoVersion.
  rewrite bind_assoc, bind_get_world, bind_assoc, bind_emit, bind_lift.
  destruct (latest_version h _) as [latestVer|e]; [|reflexivity].
  destruct (negb (isNewer _ _ _)); [reflexivity|].
  unfold showInformationMessage.
  rewrite bind_assoc, bind_get_world, bind_assoc, bind_emit, bind_ret.
  destruct (negb (bool_decide _)); reflexivity.
Qed.

(** X6.  With no pinned version, when the latest release is the
    installed version, or is not newer by [isNewer], the check for
    updates ends after asking for the latest release: it shows no
    message and installs nothing.  For equal versions this holds
    whatever [Number] makes of their components. *)
Theorem checkHugoUpdateOnStartup_up_to_date (h : Host) (w w1 : World) (p localVer latestVer : jstr) :
  non_empty (cfg_trimmed (cfg_hugoVersion h)) = false ->
  resolveInstalledHugo h w = (Ok (Some p), w1) ->
  exec_version h w1 p ≫= match_version = Some localVer ->
  latest_version h (add_event (EvExecVersion p) w1) = Ok latestVer ->
  latestVer = localVer \/ isNewer (host_Number h) latestVer localVer = false ->
  checkHugoUpdateOnStartup h w
  = (Ok tt, add_event EvGetLatestVersion (add_event (EvExecVersion p) w1)).
Proof.
  intros Hpin Hfound Hlocal Hlatest Hold.
  rewrite (checkHugoUpdateOnStartup_found h w w1 p Hpin Hfound), Hlocal.
  cbv zeta. rewrite Hlatest.
  assert (Hnot : isNewer (host_Number h) latestVer localVer = false).
  { destruct Hold as [-> | Hold]; [|exact Hold].
    unfold isNewer. apply isNewer_loop_irrefl. }
  rewrite Hnot. reflexivity.
Qed.

(** Hugo 0.152.2 is installed and is the latest release. *)
Lemma checkHugoUpdateOnStartup_up_to_date_witness :
  checkHugoUpdateOnStartup up_to_date_host empty_world
  = (Ok tt,
     add_event EvGetLatestVersion
       (add_event (EvExecVersion "hugo") (add_event (EvExecVersion "hugo") empty_world))).
Proof.
  apply (checkHugoUpdateOnStartup_up_to_date up_to_date_host empty_world
           (add_event (EvExecVersion "hugo") empty_world) "hugo" "0.152.2" "0.152.2").
  - reflexivity.
  - reflexivity.
  - reflexivity.
  - reflexivity.
  - left. reflexivity.
Defined.

(** X7.  The check for updates downloads nothing unless the user picks
    the button [button.update] in the message
    [info.hugoUpdateAvailable]: when that button is never picked, the
    check downloads nothing and leaves the file system as it is, with
    a pinned version or without, whether it ends normally or throws. *)
Theorem checkHugoUpdateOnStartup_asks_before_download (h : Host) (w : World) :
  (forall w0 latestVer localVer,
     pick_button h w0 (localize h "info.hugoUpdateAvailable" [latestVer; localVer])
       [localize h "button.update" []; localize h "button.later" []]
     <> Some (localize h "button.update" [])) ->
  downloads_nothing w (checkHugoUpdateOnStartup h w).2.
Proof.
  intros Hno.
  destruct (non_empty (cfg_trimmed (cfg_hugoVersion h))) eqn:Hpin.
  { unfold checkHugoUpdateOnStartup. rewrite Hpin.
    apply downloads_nothing_add_event. reflexivity. }
  destruct (resolveInstalledHugo_run h w) as (found & w1 & Hfound & Hadv).
  apply only_asked_versions_downloads_nothing in Hadv.
  destruct found as [p|].
  2:{ unfold checkHugoUpdateOnStartup. rewrite Hpin. unfold bind. rewrite Hfound. exact Hadv. }
  rewrite (checkHugoUpdateOnStartup_found h w w1 p Hpin Hfound).
  assert (H2 : downloads_nothing w (add_event (EvExecVersion p) w1)).
  { eapply downloads_nothing_trans; [exact Hadv|].
    apply downloads_nothing_add_event. reflexivity. }
  destruct (exec_version h w1 p ≫= match_version) as [localVer|]; [|exact H2].
  cbv zeta.
  assert (H3 : downloads_nothing w
                 (add_event EvGetLatestVersion (add_event (EvExecVersion p) w1))).
  { eapply downloads_nothing_trans; [exact H2|].
    apply downloads_nothing_add_event. reflexivity. }
  destruct (latest_version h _) as [latestVer|e]; [|exact H3].
  destruct (negb (isNewer _ _ _)); [exact H3|].
  rewrite bool_decide_false by apply Hno. simpl.
  eapply downloads_nothing_trans; [exact H3|].
  apply downloads_nothing_add_event. reflexivity.
Qed.

Lemma checkHugoUpdateOnStartup_asks_before_download_witness :
  downloads_nothing empty_world (checkHugoUpdateOnStartup demo_host empty_world).2.
Proof.
  apply (checkHugoUpdateOnStartup_asks_before_download demo_host empty_world).
  intros w0 latestVer localVer. simpl. discriminate.
Defined.

(** ** The status bar item *)

Lemma resolveInstalledHugo_same_state (h : Host) (w : World) :
  same_state w (resolveInstalledHugo h w).2.
Proof.
  unfold resolveInstalledHugo, exists_and_runs, checkHugo, bind, get_world, emit, ret.
  repeat match goal with
         | |- context [if ?b then _ else _] => destruct b
         end; simpl; repeat split.
Qed.

(** X8.  [updateHugoStatus] never throws and changes nothing but the
    status bar item.  The item is shown exactly when a workspace folder
    is open that holds one of the four configuration files; hiding it
    leaves its text and command.  When it is shown and no Hugo is
    found it offers the command [hugoPreview.installHugo]; when a Hugo
    is found it offers [hugoPreview.showControls] and its text is
    [Hugo] and a version after the icon of a running or a stopped
    server. *)
Theorem updateHugoStatus_shows (h : Host) (w : World) :
  exists w',
    updateHugoStatus h w = (Ok tt, w')
    /\ fs w' = fs w /\ previewPanel w' = previewPanel w
    /\ isHugoServerRunning w' = isHugoServerRunning w
    /\ status_visible (hugoStatusItem w')
       = match open_workspace h with
         | Some workspace => isHugoProject (fs w) workspace
         | None => false
         end
    /\ if status_visible (hugoStatusItem w') then
         match (resolveInstalledHugo h w).1 with
         | Ok (Some p) =>
             status_command (hugoStatusItem w') = "hugoPreview.showControls"
             /\ exists versionText,
                  status_text (hugoStatusItem w')
                  = (if isHugoServerRunning w then "$(sync~spin) Hugo " else "$(rocket) Hugo ")
                    ++ versionText
         | _ =>
             status_command (hugoStatusItem w') = "hugoPreview.installHugo"
             /\ status_text (hugoStatusItem w') = "$(warning) Hugo Install Needed"
         end
       else
         status_command (hugoStatusItem w') = status_command (hugoStatusItem w)
         /\ status_text (hugoStatusItem w') = status_text (hugoStatusItem w).
Proof.
  unfold updateHugoStatus. rewrite bind_get_world.
  destruct (open_workspace h) as [workspace|].
  2:{ eexists. split; [reflexivity|]. simpl. repeat split. }
  destruct (isHugoProject (fs w) workspace); cbn [negb].
  2:{ eexists. split; [reflexivity|]. simpl. repeat split. }
  pose proof (resolveInstalledHugo_same_state h w) as Hsame.
  destruct (resolveInstalledHugo_run h w) as (found & w1 & Hfound & _).
  rewrite Hfound in Hsame |- *. cbn [fst snd] in *.
  destruct Hsame as (Hfs & Hpanel & Hstatus & Hrunning).
  unfold bind at 1. rewrite Hfound.
  destruct found as [p|].
  2:{ eexists. split; [reflexivity|]. simpl. repeat split; assumption. }
  unfold bind at 1. rewrite getLocalHugoVersion_run. rewrite bind_get_world.
  eexists. split; [reflexivity|]. simpl.
  repeat (split; [assumption || reflexivity|]).
  eexists. rewrite Hrunning. destruct (isHugoServerRunning w); reflexivity.
Qed.

(** ** Where downloads come from *)

Section TracesOnly.
Variable P : Event -> Prop.






End TracesOnly.










(** ** The version that Hugo reports *)

Lemma span_digits_spec (s d r : jstr) :
  span_digits s = (d, r) ->
  s = d ++ r /\ Forall (fun c => is_digit c = true) d
  /\ match r with [] => True | c :: _ => is_digit c = false end.
Proof.
  revert d r. induction s as [|c t IH]; intros d r; simpl.
  - intros [= <- <-]. repeat split. constructor.
  - destruct (is_digit c) eqn:Hc.
    + destruct (span_digits t) as [d' r'] eqn:Ht. intros [= <- <-].
      destruct (IH d' r' eq_refl) as (-> & Hd & Hr).
      split; [reflexivity|]. split; [constructor; assumption | exact Hr].
    + intros [= <- <-]. split; [reflexivity|]. split; [constructor | exact Hc].
Qed.

Lemma span_digits_app (d r : jstr) :
  Forall (fun c => is_digit c = true) d ->
  span_digits (d ++ r) = (d ++ (span_digits r).1, (span_digits r).2).
Proof.
  induction 1 as [|c d Hc Hd IH]; simpl.
  - destruct (span_digits r); reflexivity.
  - rewrite Hc, IH. reflexivity.
Qed.

Lemma span_digits_dot (r : jstr) : span_digits ("." ++ r) = ([], "." ++ r).
Proof. reflexivity. Qed.

Lemma three_numbers_spec (s v : jstr) :
  three_numbers s = Some v ->
  exists d1 d2 d3 after,
    s = d1 ++ "." ++ d2 ++ "." ++ d3 ++ after
    /\ v = d1 ++ "." ++ d2 ++ "." ++ d3
    /\ digit_run d1 /\ digit_run d2 /\ digit_run d3
    /\ match after with [] => True | c :: _ => is_digit c = false end.
Proof.
  unfold three_numbers.
  destruct (span_digits s) as [d1 r1] eqn:H1.
  destruct d1 as [|c1 d1]; [discriminate|].
  destruct r1 as [|x1 r1]; [discriminate|].
  destruct (Ascii.eqb x1 ch_dot) eqn:Hx1; [|discriminate].
  apply Ascii.eqb_eq in Hx1. subst x1.
  destruct (span_digits r1) as [d2 r2] eqn:H2.
  destruct d2 as [|c2 d2]; [discriminate|].
  destruct r2 as [|x2 r2]; [discriminate|].
  destruct (Ascii.eqb x2 ch_dot) eqn:Hx2; [|discriminate].
  apply Ascii.eqb_eq in Hx2. subst x2.
  destruct (span_digits r2) as [d3 r3] eqn:H3.
  destruct d3 as [|c3 d3]; [discriminate|].
  intros [= <-].
  apply span_digits_spec in H1 as (-> & Hd1 & _).
  apply span_digits_spec in H2 as (-> & Hd2 & _).
  apply span_digits_spec in H3 as (-> & Hd3 & Hafter).
  exists (c1 :: d1), (c2 :: d2), (c3 :: d3), r3.
  split; [|split; [reflexivity|]].
  - reflexivity.
  - repeat split; (discriminate || assumption).
Qed.

Lemma three_numbers_complete (d1 d2 d3 after : jstr) :
  digit_run d1 -> digit_run d2 -> digit_run d3 ->
  is_Some (three_numbers (d1 ++ "." ++ d2 ++ "." ++ d3 ++ after)).
Proof.
  intros [Hn1 Hd1] [Hn2 Hd2] [Hn3 Hd3]. unfold three_numbers.
  rewrite (span_digits_app d1) by exact Hd1. rewrite span_digits_dot. cbn [fst snd].
  rewrite app_nil_r.
  destruct d1 as [|c1 d1]; [congruence|].
  change ("." ++ d2 ++ "." ++ d3 ++ after) with (ch_dot :: (d2 ++ "." ++ d3 ++ after)).
  cbn [app]. rewrite Ascii.eqb_refl.
  rewrite (span_digits_app d2) by exact Hd2. rewrite span_digits_dot. cbn [fst snd].
  rewrite app_nil_r.
  destruct d2 as [|c2 d2]; [congruence|].
  change ("." ++ d3 ++ after) with (ch_dot :: (d3 ++ after)).
  cbn [app]. rewrite Ascii.eqb_refl.
  rewrite (span_digits_app d3) by exact Hd3.
  destruct d3 as [|c3 d3]; [congruence|].
  cbn [app]. eexists. reflexivity.
Qed.

Lemma match_version_sound (stdout v : jstr) :
  match_version stdout = Some v ->
  exists before d1 d2 d3 after,
    stdout = before ++ "v" ++ d1 ++ "." ++ d2 ++ "." ++ d3 ++ after
    /\ v = d1 ++ "." ++ d2 ++ "." ++ d3
    /\ digit_run d1 /\ digit_run d2 /\ digit_run d3
    /\ match after with [] => True | c :: _ => is_digit c = false end.
Proof.
  induction stdout as [|c t IH]; simpl; [discriminate|].
  assert (Hlater : match_version t = Some v ->
    exists before d1 d2 d3 after,
      c :: t = before ++ "v" ++ d1 ++ "." ++ d2 ++ "." ++ d3 ++ after
      /\ v = d1 ++ "." ++ d2 ++ "." ++ d3
      /\ digit_run d1 /\ digit_run d2 /\ digit_run d3
      /\ match after with [] => True | c :: _ => is_digit c = false end).
  { intros H. destruct (IH H) as (before & d1 & d2 & d3 & after & -> & Hrest).
    exists (c :: before), d1, d2, d3, after. split; [reflexivity | exact Hrest]. }
  destruct (Ascii.eqb c (ascii_of_nat 118)) eqn:Hc; [|exact Hlater].
  destruct (three_numbers t) as [v'|] eqn:Hthree; [|exact Hlater].
  intros [= ->]. apply Ascii.eqb_eq in Hc. subst c.
  destruct (three_numbers_spec t v Hthree) as (d1 & d2 & d3 & after & -> & Hrest).
  exists [], d1, d2, d3, after. split; [reflexivity | exact Hrest].
Qed.

Lemma match_version_complete (before rest : jstr) :
  is_Some (three_numbers rest) -> is_Some (match_version (before ++ "v" ++ rest)).
Proof.
  intros Hrest. induction before as [|c before IH].
  - change ([] ++ "v" ++ rest) with (ascii_of_nat 118 :: rest).
    cbn [match_version]. rewrite Ascii.eqb_refl.
    destruct Hrest as [v ->]. eexists. reflexivity.
  - cbn [app match_version].
    destruct (Ascii.eqb c (ascii_of_nat 118)); [|exact IH].
    destruct (three_numbers (before ++ "v" ++ rest)); [eexists; reflexivity | exact IH].
Qed.

(** X10.  [getLocalHugoVersion] never throws and only runs the command
    with the argument [version].  It finds a version exactly when the
    command succeeds and its output holds a [v] followed by three runs
    of digits with dots between them; the version is the three runs
    and the dots of such a place in the output, each run taken as far
    as the digits go. *)
Theorem getLocalHugoVersion_reads_version (h : Host) (hugoPath : jstr) (w : World) :
  exists found,
    getLocalHugoVersion h hugoPath w = (Ok found, add_event (EvExecVersion hugoPath) w)
    /\ (is_Some found <->
        exists stdout, exec_version h w hugoPath = Some stdout /\ holds_version stdout)
    /\ forall v, found = Some v ->
         exists stdout before d1 d2 d3 after,
           exec_version h w hugoPath = Some stdout
           /\ stdout = before ++ "v" ++ v ++ after
           /\ v = d1 ++ "." ++ d2 ++ "." ++ d3
           /\ digit_run d1 /\ digit_run d2 /\ digit_run d3
           /\ match after with [] => True | c :: _ => is_digit c = false end.
Proof.
  eexists. split; [apply getLocalHugoVersion_run|]. split.
  - destruct (exec_version h w hugoPath) as [stdout|]; simpl.
    + split.
      * intros [v Hv]. exists stdout. split; [reflexivity|].
        destruct (match_version_sound stdout v Hv)
          as (before & d1 & d2 & d3 & after & Hs & _ & H1 & H2 & H3 & _).
        exists before, d1, d2, d3, after. auto.
      * intros (stdout' & [= <-] & (before & d1 & d2 & d3 & after & -> & H1 & H2 & H3)).
        apply match_version_complete, three_numbers_complete; assumption.
    + split; [intros [v Hv]; discriminate | intros (s & Hs & _); discriminate].
  - intros v Hv. destruct (exec_version h w hugoPath) as [stdout|]; [|discriminate].
    simpl in Hv.
    destruct (match_version_sound stdout v Hv)
      as (before & d1 & d2 & d3 & after & Hs & Hversion & H1 & H2 & H3 & Hafter).
    exists stdout, before, d1, d2, d3, after.
    split; [reflexivity|]. split; [|auto].
    rewrite Hs, Hversion. change "." with [ch_dot]. rewrite <- !app_assoc. reflexivity.
Qed.

(** ** Marking the page *)

Lemma until_gt_spec (s a r : jstr) :
  until_gt s = Some (a, r) -> s = a ++ ch_gt :: r /\ ch_gt ∉ a.
Proof.
  revert a r. induction s as [|c t IH]; intros a r; simpl; [discriminate|].
  destruct (Ascii.eqb c ch_gt) eqn:Hc.
  - intros [= <- <-]. apply Ascii.eqb_eq in Hc. subst c.
    split; [reflexivity | apply not_elem_of_nil].
  - destruct (until_gt t) as [[a' r']|] eqn:Ht; [|discriminate].
    simpl. intros [= <- <-]. destruct (IH a' r' eq_refl) as [-> Ha].
    split; [reflexivity|]. apply not_elem_of_cons. split; [|exact Ha].
    intros Heq. apply Ascii.eqb_neq in Hc. congruence.
Qed.

Lemma until_gt_app (a r : jstr) : ch_gt ∉ a -> until_gt (a ++ ch_gt :: r) = Some (a, r).
Proof.
  induction a as [|c a IH]; intros Ha; cbn [app until_gt].
  - rewrite Ascii.eqb_refl. reflexivity.
  - apply not_elem_of_cons in Ha as [Hc Ha].
    destruct (Ascii.eqb c ch_gt) eqn:E; [apply Ascii.eqb_eq in E; congruence|].
    rewrite IH by exact Ha. reflexivity.
Qed.

Lemma includes_app_r (x y p : jstr) : includes y p = true -> includes (x ++ y) p = true.
Proof.
  intros Hy. induction x as [|c x IH]; [exact Hy|].
  cbn [app includes]. rewrite IH. apply orb_true_r.
Qed.

Lemma mark_html_cons (c : ascii) (t : jstr) :
  mark_html (c :: t) =
    if startsWith (lower <$> (c :: t)) "<html" then
      match until_gt (drop 5 (c :: t)) with
      | Some (attrs, rest) =>
          if includes attrs "hugo-preview="
          then "<html" ++ attrs ++ ">" ++ rest
          else "<html" ++ attrs ++ " hugo-preview=" ++ [ch_quote] ++ "true" ++ [ch_quote]
                 ++ ">" ++ rest
      | None => c :: t
      end
    else c :: mark_html t.
Proof. reflexivity. Qed.

Lemma startsWith_prefix_of (x p q : jstr) :
  startsWith x q = true -> length p <= length q ->
  startsWith x p = startsWith q p.
Proof.
  intros Hq Hlen. apply startsWith_spec in Hq as (rest & ->).
  apply startsWith_app_l, Hlen.
Qed.

(** The tag that [mark_html] writes is the tag it looks for. *)
Lemma marked_tag (attrs rest : jstr) :
  startsWith (lower <$> ("<html" ++ attrs ++ ">" ++ rest)) "<html" = true.
Proof. reflexivity. Qed.

Lemma tag_after (c : ascii) (x : jstr) :
  startsWith (lower <$> (c :: x)) "<html"
  = Ascii.eqb (ascii_of_nat 60) (lower c) && startsWith (lower <$> x) "html".
Proof. reflexivity. Qed.

Lemma mark_html_start (t p : jstr) :
  length p <= 5 ->
  startsWith (lower <$> mark_html t) p = startsWith (lower <$> t) p.
Proof.
  revert p. induction t as [|c t IH]; intros p Hlen; [reflexivity|].
  rewrite mark_html_cons.
  destruct (startsWith (lower <$> (c :: t)) "<html") eqn:Htag.
  - destruct (until_gt (drop 5 (c :: t))) as [[attrs rest]|]; [|reflexivity].
    rewrite (startsWith_prefix_of _ p "<html" Htag) by exact Hlen.
    destruct (includes attrs "hugo-preview=").
    + apply (startsWith_prefix_of _ p "<html"); [apply marked_tag | exact Hlen].
    + apply (startsWith_prefix_of _ p "<html"); [reflexivity | exact Hlen].
  - destruct p as [|a p]; [reflexivity|].
    cbn [fmap list_fmap startsWith]. change (list_fmap _ _ lower ?l) with (lower <$> l).
    rewrite IH by (simpl in Hlen; lia). reflexivity.
Qed.

Lemma mark_html_marked (attrs rest : jstr) :
  ch_gt ∉ attrs -> includes attrs "hugo-preview=" = true ->
  mark_html ("<html" ++ attrs ++ ">" ++ rest) = "<html" ++ attrs ++ ">" ++ rest.
Proof.
  intros Hgt Hinc.
  change ("<html" ++ attrs ++ ">" ++ rest)
    with (ascii_of_nat 60 :: ("html" ++ attrs ++ ">" ++ rest)) at 1.
  rewrite mark_html_cons.
  change (ascii_of_nat 60 :: ("html" ++ attrs ++ ">" ++ rest))
    with ("<html" ++ attrs ++ ">" ++ rest).
  rewrite marked_tag.
  change (drop 5 ("<html" ++ attrs ++ ">" ++ rest)) with (attrs ++ ch_gt :: rest).
  rewrite until_gt_app by exact Hgt. rewrite Hinc. reflexivity.
Qed.

(** Marking the page twice is marking it once; and the page is left as
    it is, or one of its tags is rewritten. *)
Lemma mark_html_shape (html : jstr) :
  mark_html (mark_html html) = mark_html html
  /\ (mark_html html = html
      \/ exists before tag attrs rest,
           html = before ++ tag ++ attrs ++ ">" ++ rest
           /\ (lower <$> tag) = "<html" /\ (ch_gt ∉ attrs)
           /\ mark_html html
              = before ++ "<html" ++ attrs
                ++ (if includes attrs "hugo-preview=" then []
                    else " hugo-preview=" ++ [ch_quote] ++ "true" ++ [ch_quote])
                ++ ">" ++ rest).
Proof.
  induction html as [|c t [IHidem IHshape]]; [split; [reflexivity | left; reflexivity]|].
  rewrite mark_html_cons.
  destruct (startsWith (lower <$> (c :: t)) "<html") eqn:Htag.
  - destruct (until_gt (drop 5 (c :: t))) as [[attrs rest]|] eqn:Hgt.
    2:{ split; [|left; reflexivity].
        rewrite mark_html_cons, Htag, Hgt. reflexivity. }
    apply until_gt_spec in Hgt as [Hdrop Hattrs].
    assert (Hhtml : c :: t = take 5 (c :: t) ++ attrs ++ ">" ++ rest).
    { rewrite <- (take_drop 5 (c :: t)) at 1. rewrite Hdrop. reflexivity. }
    assert (Hlower : lower <$> take 5 (c :: t) = "<html").
    { apply startsWith_spec in Htag as (rest' & Hrest').
      rewrite fmap_take, Hrest'. reflexivity. }
    destruct (includes attrs "hugo-preview=") eqn:Hinc.
    + split; [apply mark_html_marked; assumption|].
      right. exists [], (take 5 (c :: t)), attrs, rest.
      rewrite Hinc. split; [exact Hhtml|]. split; [exact Hlower|]. split; [exact Hattrs|].
      reflexivity.
    + split.
      * pose proof (mark_html_marked
                      (attrs ++ " hugo-preview=" ++ [ch_quote] ++ "true" ++ [ch_quote]) rest)
          as Hmarked.
        rewrite <- !app_assoc in Hmarked. apply Hmarked.
        -- rewrite elem_of_app. intros [H|H]; [exact (Hattrs H)|].
           revert H. apply (bool_decide_unpack _). vm_compute. exact I.
        -- apply includes_app_r. reflexivity.
      * right. exists [], (take 5 (c :: t)), attrs, rest.
        rewrite Hinc. split; [exact Hhtml|]. split; [exact Hlower|]. split; [exact Hattrs|].
        rewrite <- !app_assoc. reflexivity.
  - split.
    + rewrite mark_html_cons.
      assert (Hsame : startsWith (lower <$> (c :: mark_html t)) "<html" = false).
      { rewrite <- Htag, !tag_after. rewrite (mark_html_start t "html") by (simpl; lia).
        reflexivity. }
      rewrite Hsame, IHidem. reflexivity.
    + destruct IHshape as [-> | (before & tag & attrs & rest & -> & Hlower & Hattrs & ->)];
        [left; reflexivity|].
      right. exists (c :: before), tag, attrs, rest.
      split; [reflexivity|]. split; [exact Hlower|]. split; [exact Hattrs|]. reflexivity.
Qed.

Lemma mark_html_twice (html : jstr) : mark_html (mark_html html) = mark_html html.
Proof. apply mark_html_shape. Qed.

Lemma until_gt_None (s : jstr) : ch_gt ∉ s -> until_gt s = None.
Proof.
  induction s as [|c t IH]; [reflexivity|].
  intros Hnot. apply not_elem_of_cons in Hnot as [Hc Ht]. cbn [until_gt].
  destruct (Ascii.eqb c ch_gt) eqn:E; [apply Ascii.eqb_eq in E; congruence|].
  rewrite IH by exact Ht. reflexivity.
Qed.

(** A page in which no tag begins is left as it is. *)
Lemma mark_html_no_tag (html : jstr) :
  (forall i, ~ html_tag_at html i) -> mark_html html = html.
Proof.
  induction html as [|c t IH]; intros Hno; [reflexivity|].
  rewrite mark_html_cons.
  destruct (startsWith (lower <$> (c :: t)) "<html") eqn:Htag.
  - rewrite until_gt_None; [reflexivity|].
    intros Hgt. apply (Hno 0). split; [exact Htag | exact Hgt].
  - f_equal. apply IH. intros i [Hi Hgt]. apply (Hno (S i)). split; assumption.
Qed.

(** The text before the first tag is passed over. *)
Lemma mark_html_before (before x : jstr) :
  (forall i, i < length before -> startsWith (lower <$> drop i (before ++ x)) "<html" = false) ->
  mark_html (before ++ x) = before ++ mark_html x.
Proof.
  induction before as [|c b IH]; intros Hno; [reflexivity|].
  cbn [app]. rewrite mark_html_cons.
  pose proof (Hno 0 ltac:(simpl; lia)) as H0. cbn [drop app] in H0. rewrite H0.
  f_equal. apply IH. intros i Hi. apply (Hno (S i)). simpl. lia.
Qed.

(** The replacement at a tag. *)
Lemma mark_html_tag (tag attrs rest : jstr) :
  (lower <$> tag) = "<html" -> (ch_gt ∉ attrs) ->
  mark_html (tag ++ attrs ++ ">" ++ rest)
  = "<html" ++ attrs
    ++ (if includes attrs "hugo-preview=" then []
        else " hugo-preview=" ++ [ch_quote] ++ "true" ++ [ch_quote])
    ++ ">" ++ rest.
Proof.
  intros Htag Hgt.
  assert (Hlen : length tag = 5).
  { rewrite <- (length_fmap lower tag), Htag. reflexivity. }
  destruct tag as [|c tag]; [discriminate|].
  cbn [app]. rewrite mark_html_cons.
  change (c :: tag ++ attrs ++ ">" ++ rest) with ((c :: tag) ++ attrs ++ ">" ++ rest).
  assert (Hstart : startsWith (lower <$> ((c :: tag) ++ attrs ++ ">" ++ rest)) "<html" = true).
  { rewrite fmap_app, Htag. reflexivity. }
  rewrite Hstart.
  rewrite drop_app_length' by (symmetry; exact Hlen).
  change (attrs ++ ">" ++ rest) with (attrs ++ ch_gt :: rest).
  rewrite until_gt_app by exact Hgt.
  destruct (includes attrs "hugo-preview="); [reflexivity|].
  rewrite <- !app_assoc. reflexivity.
Qed.

(** X11.  The replacement of the [html] tag in [openPreview] marks the
    first tag of the page and nothing else.  When the page is [before],
    a tag [<html] in any letter case, attributes without [>], [>] and
    [rest], and no [<html] begins in [before], the result is [before],
    [<html], the attributes, the attribute [hugo-preview] unless the
    attributes hold the text [hugo-preview=], [>] and [rest].  A page
    in which no tag begins (no [<html] with a [>] after it) is left as
    it is.  And marking the page twice is marking it once. *)
Theorem mark_html_marks_first_tag (html : jstr) :
  (forall before tag attrs rest,
     html = before ++ tag ++ attrs ++ ">" ++ rest ->
     (lower <$> tag) = "<html" -> (ch_gt ∉ attrs) ->
     (forall i, i < length before -> startsWith (lower <$> drop i html) "<html" = false) ->
     mark_html html
     = before ++ "<html" ++ attrs
       ++ (if includes attrs "hugo-preview=" then []
           else " hugo-preview=" ++ [ch_quote] ++ "true" ++ [ch_quote])
       ++ ">" ++ rest)
  /\ ((forall i, ~ html_tag_at html i) -> mark_html html = html)
  /\ mark_html (mark_html html) = mark_html html.
Proof.
  split; [|split].
  - intros before tag attrs rest -> Htag Hgt Hfirst.
    rewrite mark_html_before by exact Hfirst.
    rewrite mark_html_tag by assumption. reflexivity.
  - apply mark_html_no_tag.
  - apply mark_html_twice.
Qed.

(** A page with a document type declaration before its tag. *)
Lemma mark_html_marks_first_tag_witness :
  mark_html ("<!DOCTYPE html><HTML lang=en><body><html></body>")
  = "<!DOCTYPE html><html lang=en hugo-preview=" ++ [ch_quote] ++ "true" ++ [ch_quote]
    ++ "><body><html></body>".
Proof.
  apply (proj1 (mark_html_marks_first_tag "<!DOCTYPE html><HTML lang=en><body><html></body>")
           "<!DOCTYPE html>" "<HTML" " lang=en" "<body><html></body>").
  - reflexivity.
  - reflexivity.
  - apply (bool_decide_unpack _). vm_compute. exact I.
  - intros i Hi.
    do 15 (destruct i as [|i]; [reflexivity|]). simpl in Hi. lia.
Defined.

(** ** [isNewer] on numeric versions *)

Lemma Qle_bool_false (x y : Q) : Qle_bool x y = false <-> Qlt y x.
Proof.
  split.
  - intros H. apply Qnot_le_lt. intros Hle. apply Qle_bool_iff in Hle. congruence.
  - intros H. destruct (Qle_bool x y) eqn:E; [|reflexivity].
    apply Qle_bool_iff in E. exfalso. exact (Qlt_not_le _ _ H E).
Qed.

Lemma js_gt_Fin (x y : Q) : js_gt (JFin x) (JFin y) = true <-> Qlt y x.
Proof. simpl. rewrite negb_true_iff. apply Qle_bool_false. Qed.

Lemma js_gt_trans (a b c : jsnum) :
  js_gt a b = true -> js_gt b c = true -> js_gt a c = true.
Proof.
  destruct a as [| |x|], b as [| |y|], c as [| |z|]; try (simpl; congruence).
  rewrite !js_gt_Fin. intros H1 H2. exact (Qlt_trans _ _ _ H2 H1).
Qed.

(** Numbers that are not NaN and of which none is greater are the
    same. *)
Lemma js_same_iff (a b : jsnum) :
  a <> JNaN -> b <> JNaN ->
  (js_gt a b = false /\ js_gt b a = false <-> js_same a b).
Proof.
  intros Ha Hb.
  destruct a as [| |x|], b as [| |y|]; try congruence; simpl;
    try (split; [intros [? ?]; congruence | intros []]);
    try (split; [intros _; exact I | intros _; split; reflexivity]).
  rewrite !negb_false_iff, !Qle_bool_iff. split.
  - intros [H1 H2]. apply Qle_antisym; assumption.
  - intros H. split; rewrite H; apply Qle_refl.
Qed.

Lemma js_gt_same_l (a b c : jsnum) : js_same a b -> js_gt a c = js_gt b c.
Proof.
  destruct a as [| |x|], b as [| |y|]; simpl; intros H; try contradiction; try reflexivity.
  destruct c as [| |z|]; try reflexivity.
  f_equal. destruct (Qle_bool x z) eqn:E1, (Qle_bool y z) eqn:E2; try reflexivity.
  - apply Qle_bool_iff in E1. rewrite H in E1. apply Qle_bool_iff in E1. congruence.
  - apply Qle_bool_iff in E2. rewrite <- H in E2. apply Qle_bool_iff in E2. congruence.
Qed.

Lemma js_gt_same_r (a b c : jsnum) : js_same a b -> js_gt c a = js_gt c b.
Proof.
  destruct a as [| |x|], b as [| |y|]; simpl; intros H; try contradiction; try reflexivity.
  destruct c as [| |z|]; try reflexivity.
  simpl. f_equal. destruct (Qle_bool z x) eqn:E1, (Qle_bool z y) eqn:E2; try reflexivity.
  - apply Qle_bool_iff in E1. rewrite H in E1. apply Qle_bool_iff in E1. congruence.
  - apply Qle_bool_iff in E2. rewrite <- H in E2. apply Qle_bool_iff in E2. congruence.
Qed.

Lemma isNewer_loop_trans (n i : nat) (r l m : list jsnum) :
  (forall j, i <= j < i + n -> at_or_zero r j <> JNaN) ->
  (forall j, i <= j < i + n -> at_or_zero l j <> JNaN) ->
  (forall j, i <= j < i + n -> at_or_zero m j <> JNaN) ->
  isNewer_loop n i r l = true -> isNewer_loop n i l m = true ->
  isNewer_loop n i r m = true.
Proof.
  revert i. induction n as [|n IH]; intros i Hr Hl Hm; simpl; [congruence|].
  unfold js_lt.
  pose proof (Hr i ltac:(lia)) as Hri. pose proof (Hl i ltac:(lia)) as Hli.
  pose proof (Hm i ltac:(lia)) as Hmi.
  destruct (js_gt (at_or_zero r i) (at_or_zero l i)) eqn:Hrl.
  - intros _.
    destruct (js_gt (at_or_zero l i) (at_or_zero m i)) eqn:Hlm.
    + intros _. rewrite (js_gt_trans _ _ _ Hrl Hlm). reflexivity.
    + destruct (js_gt (at_or_zero m i) (at_or_zero l i)) eqn:Hml; [congruence|].
      intros _.
      assert (Hsame : js_same (at_or_zero l i) (at_or_zero m i)).
      { apply js_same_iff; auto. }
      rewrite <- (js_gt_same_r _ _ _ Hsame), Hrl. reflexivity.
  - destruct (js_gt (at_or_zero l i) (at_or_zero r i)) eqn:Hlr; [congruence|].
    assert (Hsame : js_same (at_or_zero r i) (at_or_zero l i)).
    { apply js_same_iff; auto. }
    intros Hrest.
    rewrite (js_gt_same_l _ _ _ Hsame), (js_gt_same_r _ _ _ Hsame).
    destruct (js_gt (at_or_zero l i) (at_or_zero m i)); [reflexivity|].
    destruct (js_gt (at_or_zero m i) (at_or_zero l i)); [congruence|].
    apply IH; [| | |exact Hrest]; intros j Hj; [apply Hr | apply Hl | apply Hm]; lia.
Qed.

Lemma isNewer_loop_total (n i : nat) (r l : list jsnum) :
  (forall j, i <= j < i + n -> at_or_zero r j <> JNaN) ->
  (forall j, i <= j < i + n -> at_or_zero l j <> JNaN) ->
  isNewer_loop n i r l = false -> isNewer_loop n i l r = false ->
  forall j, i <= j < i + n -> js_same (at_or_zero r j) (at_or_zero l j).
Proof.
  revert i. induction n as [|n IH]; intros i Hr Hl; simpl; [intros _ _ j Hj; lia|].
  unfold js_lt.
  destruct (js_gt (at_or_zero r i) (at_or_zero l i)) eqn:Hrl; [congruence|].
  destruct (js_gt (at_or_zero l i) (at_or_zero r i)) eqn:Hlr; [congruence|].
  intros H1 H2 j Hj.
  destruct (decide (j = i)) as [->|Hne].
  - apply js_same_iff; [apply Hr; lia | apply Hl; lia | split; assumption].
  - apply (IH (S i));
      [intros k Hk; apply Hr; lia | intros k Hk; apply Hl; lia | exact H1 | exact H2 | lia].
Qed.

(** X12.  On versions whose first three components are numbers,
    [isNewer] is a strict order of the triples of components: it is
    transitive, and of two versions one is newer than the other unless
    their first three components have the same values. *)
Theorem isNewer_orders_numeric_versions (Number : jstr -> jsnum) (a b c : jstr) :
  numeric_version Number a -> numeric_version Number b -> numeric_version Number c ->
  (isNewer Number a b = true -> isNewer Number b c = true -> isNewer Number a c = true)
  /\ (isNewer Number a b = false -> isNewer Number b a = false ->
      forall i, i < 3 -> js_same (component Number a i) (component Number b i)).
Proof.
  intros Ha Hb Hc. split.
  - apply isNewer_loop_trans; intros j Hj; [apply Ha | apply Hb | apply Hc]; lia.
  - intros H1 H2 i Hi.
    apply (isNewer_loop_total 3 0 _ _ (fun j Hj => Ha j ltac:(lia)) (fun j Hj => Hb j ltac:(lia))
             H1 H2).
    lia.
Qed.

(** Three releases of Hugo. *)
Lemma isNewer_orders_numeric_versions_witness :
  (isNewer decimal_Number "0.153.0" "0.152.2" = true ->
   isNewer decimal_Number "0.152.2" "0.151.9" = true ->
   isNewer decimal_Number "0.153.0" "0.151.9" = true)
  /\ (isNewer decimal_Number "0.153.0" "0.152.2" = false ->
      isNewer decimal_Number "0.152.2" "0.153.0" = false ->
      forall i, i < 3 ->
        js_same (component decimal_Number "0.153.0" i) (component decimal_Number "0.152.2" i)).
Proof.
  apply (isNewer_orders_numeric_versions decimal_Number "0.153.0" "0.152.2" "0.151.9").
  - intros i Hi. destruct i as [|[|[|i]]]; [vm_compute; discriminate.. | lia].
  - intros i Hi. destruct i as [|[|[|i]]]; [vm_compute; discriminate.. | lia].
  - intros i Hi. destruct i as [|[|[|i]]]; [vm_compute; discriminate.. | lia].
Defined.

(** ** The child that the variable holds *)

Lemma enter_times_keeps (n : nat) (st : Server.State) :
  Server.alive (Server.enter_times n st) = Server.alive st
  /\ Server.spawned (Server.enter_times n st) = Server.spawned st.
Proof.
  revert st. induction n as [|n IH]; intros st; [split; reflexivity|].
  cbn [Server.enter_times]. destruct (IH (Server.startHugoServer_enter st)) as [-> ->].
  unfold Server.startHugoServer_enter.
  destruct (Server.hugoServerProcess st); split; reflexivity.
Qed.

Lemma tracks_newest_child_cleared (st st' : Server.State) :
  tracks_newest_child st ->
  Server.hugoServerProcess st' = None ->
  Server.alive st' = Server.alive st ->
  Server.spawned st' = Server.spawned st ->
  tracks_newest_child st'.
Proof.
  intros (_ & Hnodup & Hlt) Hnone Halive Hspawned. unfold tracks_newest_child.
  rewrite Hnone, Halive, Hspawned. split; [discriminate|]. split; assumption.
Qed.

Lemma tracks_newest_child_kept (st st' : Server.State) :
  tracks_newest_child st ->
  Server.hugoServerProcess st' = Server.hugoServerProcess st ->
  Server.alive st' = Server.alive st ->
  Server.spawned st' = Server.spawned st ->
  tracks_newest_child st'.
Proof.
  unfold tracks_newest_child. intros Hinv -> -> ->. exact Hinv.
Qed.

Lemma startHugoServer_enter_tracks (st : Server.State) :
  tracks_newest_child st -> tracks_newest_child (Server.startHugoServer_enter st).
Proof.
  intros Hinv. unfold Server.startHugoServer_enter.
  destruct (Server.hugoServerProcess st) eqn:E; [exact Hinv|].
  apply (tracks_newest_child_cleared st); [exact Hinv | reflexivity..].
Qed.

Lemma step_tracks_newest_child (st : Server.State) (l : Server.Label) :
  tracks_newest_child st -> tracks_newest_child (Server.step st l).
Proof.
  intros Hinv. destruct l as [| |o| | |p|p]; cbn [Server.step].
  - apply startHugoServer_enter_tracks, Hinv.
  - apply (tracks_newest_child_kept st); [exact Hinv | reflexivity..].
  - destruct o; cbn [Server.startHugoServer_resume].
    + apply (tracks_newest_child_kept st); [exact Hinv | reflexivity..].
    + apply (tracks_newest_child_cleared st); [exact Hinv | reflexivity..].
    + destruct Hinv as (_ & Hnodup & Hlt). split; [|split]; cbn.
      * intros p [= <-]. split; [reflexivity | apply list_elem_of_here].
      * constructor; [|exact Hnodup]. intros Hin. apply Hlt in Hin. lia.
      * intros q Hq. apply elem_of_cons in Hq as [-> | Hq]; [lia|].
        apply Hlt in Hq. lia.
  - unfold Server.stopHugoServer. destruct (Server.hugoServerProcess st) eqn:E; [|exact Hinv].
    apply (tracks_newest_child_cleared st); [exact Hinv | reflexivity..].
  - unfold Server.restartHugoServer. destruct (Server.hugoServerProcess st) eqn:E.
    + apply (tracks_newest_child_cleared st); [exact Hinv | reflexivity..].
    + apply startHugoServer_enter_tracks, Hinv.
  - destruct Hinv as (_ & Hnodup & Hlt). unfold Server.on_exit, tracks_newest_child.
    rewrite enter_times_process.
    match goal with
    | |- context [Server.enter_times ?n ?s] => destruct (enter_times_keeps n s) as [-> ->]
    end.
    cbn. split; [discriminate|]. split.
    + apply NoDup_filter, Hnodup.
    + intros q Hq. apply list_elem_of_filter in Hq as [_ Hq]. apply Hlt, Hq.
  - apply (tracks_newest_child_cleared st); [exact Hinv | reflexivity..].
Qed.

Lemma run_tracks_newest_child (ls : list Server.Label) (st st' : Server.State) :
  tracks_newest_child st -> Server.run st ls = Some st' -> tracks_newest_child st'.
Proof.
  revert st. induction ls as [|l ls IH]; intros st Hinv; cbn [Server.run].
  - intros [= <-]. exact Hinv.
  - destruct (Server.enabled st l); [|discriminate].
    apply IH, step_tracks_newest_child, Hinv.
Qed.

(** X13.  Whatever calls of [startHugoServer], [stopHugoServer] and
    [restartHugoServer] and whatever events of the children come in
    whatever order, the child that [hugoServerProcess] holds is alive
    and is the child that was spawned last: [stopHugoServer] never
    signals another child, and a child that is alive while a later one
    was spawned is out of its reach. *)
Theorem hugoServerProcess_is_newest_child (st : Server.State) :
  Server.reachable st -> tracks_newest_child st.
Proof.
  intros (ls & Hrun). apply (run_tracks_newest_child ls Server.init st); [|exact Hrun].
  split; [discriminate|]. split; [constructor|]. intros q Hq. apply elem_of_nil in Hq as [].
Qed.

(** A server was started, stopped and started again before the first
    child has exited. *)
Lemma hugoServerProcess_is_newest_child_witness :
  tracks_newest_child
    {| Server.hugoServerProcess := Some 1; Server.alive := [1; 0];
       Server.spawned := 2; Server.starting := 0; Server.restarting := [] |}.
Proof.
  apply hugoServerProcess_is_newest_child.
  exists [Server.CallStart; Server.EnsureHugoResolved Server.Spawned;
          Server.CallStop;
          Server.CallStart; Server.EnsureHugoResolved Server.Spawned].
  vm_compute. reflexivity.
Defined.

(** ** Removing a directory *)

Lemma rmrf_lookup (m : FileSystem) (p q : jstr) :
  rmrf m p !! q
  = if existsSync m p && within p q then None else m !! q.
Proof.
  unfold rmrf. destruct (existsSync m p); cbn [negb andb]; [|reflexivity].
  destruct (within p q) eqn:Hq.
  - apply map_lookup_filter_None. right. intros e _. cbn. congruence.
  - destruct (m !! q) as [e|] eqn:E.
    + apply map_lookup_filter_Some. split; [exact E | exact Hq].
    + apply map_lookup_filter_None. left. exact E.
Qed.

Lemma within_self (p : jstr) : within p p = true.
Proof. unfold within. rewrite bool_decide_true by reflexivity. reflexivity. Qed.

(** X14.  After [rmrf(p)] the path [p] does not exist; when it existed,
    nothing at [p] or below it is left; every other entry of the file
    system is as it was; and removing twice is removing once. *)
Theorem rmrf_removes (m : FileSystem) (p : jstr) :
  existsSync (rmrf m p) p = false
  /\ (existsSync m p = true -> forall q, within p q = true -> rmrf m p !! q = None)
  /\ (forall q, within p q = false -> rmrf m p !! q = m !! q)
  /\ rmrf (rmrf m p) p = rmrf m p.
Proof.
  assert (Hgone : existsSync (rmrf m p) p = false).
  { unfold existsSync. apply bool_decide_eq_false. rewrite rmrf_lookup, within_self.
    destruct (existsSync m p) eqn:E; cbn [andb].
    - intros [x Hx]. discriminate.
    - unfold existsSync in E. apply bool_decide_eq_false in E. exact E. }
  split; [exact Hgone|]. split; [|split].
  - intros Hex q Hq. rewrite rmrf_lookup, Hex, Hq. reflexivity.
  - intros q Hq. rewrite rmrf_lookup, Hq, andb_false_r. reflexivity.
  - unfold rmrf at 1. rewrite Hgone. reflexivity.
Qed.





(** ** No path from the root is left *)

Lemma includes_cons (c : ascii) (s p : jstr) :
  includes (c :: s) p = startsWith (c :: s) p || includes s p.
Proof. reflexivity. Qed.

Lemma includes_app_false (x y p : jstr) :
  (forall x2, x2 `suffix_of` x -> x2 <> [] -> startsWith (x2 ++ y) p = false) ->
  includes y p = false ->
  includes (x ++ y) p = false.
Proof.
  intros Hx Hy. induction x as [|c x IH]; [exact Hy|].
  cbn [app]. rewrite includes_cons. apply orb_false_iff. split.
  - apply (Hx (c :: x)); [reflexivity | discriminate].
  - apply IH. intros x2 Hsuf Hne. apply Hx; [|exact Hne].
    apply suffix_cons_r, Hsuf.
Qed.

Lemma not_elem_of_suffix (c : ascii) (x2 x : jstr) : x2 `suffix_of` x -> c ∉ x -> c ∉ x2.
Proof. intros [k ->] Hc Hin. apply Hc, elem_of_app. right. exact Hin. Qed.

Section NoRootPath.
Variables (rootUri : jstr) (r0 : ascii) (root_tail : jstr).
Hypothesis rootUri_cons : rootUri = r0 :: root_tail.
Hypothesis rootUri_slash : r0 <> ch_slash.
Hypothesis rootUri_quote : ch_quote ∉ rootUri.
Hypothesis rootUri_dollar : ch_dollar ∉ rootUri.

Lemma rootUri_not_absolute : startsWith rootUri "/" = false.
Proof.
  rewrite rootUri_cons. cbn [startsWith].
  change "/" with [ch_slash]. cbn [startsWith].
  destruct (Ascii.eqb ch_slash r0) eqn:E; [|reflexivity].
  apply Ascii.eqb_eq in E. congruence.
Qed.

Lemma template_holds_no_pattern (a b y : jstr) :
  a ∈ root_attrs -> b ∈ root_attrs ->
  includes y (root_pattern b) = false ->
  includes (root_template a rootUri ++ y) (root_pattern b) = false.
Proof.
  intros Ha Hb Hy.
  destruct (root_attrs_plain a Ha) as (Haq & _).
  destruct (root_attrs_plain b Hb) as (Hbq & Hbs & _).
  unfold root_template. rewrite <- !app_assoc.
  apply includes_app_false.
  { intros a2 Hsuf _.
    apply (template_starts_no_match rootUri r0 root_tail rootUri_cons rootUri_slash a);
      [|exact Hbq].
    eapply not_elem_of_suffix; eassumption. }
  cbn [app]. rewrite includes_cons. apply orb_false_iff. split.
  { apply (template_starts_no_match rootUri r0 root_tail rootUri_cons rootUri_slash a b []);
      [apply not_elem_of_nil | exact Hbq]. }
  apply includes_app_false.
  { intros r Hsuf _. apply root_starts_no_match; [exact Hbs|].
    eapply not_elem_of_suffix; eassumption. }
  cbn [app]. rewrite includes_cons. apply orb_false_iff. split; [|exact Hy].
  apply (root_starts_no_match b [] y); [exact Hbs | apply not_elem_of_nil].
Qed.

Lemma rewriteRootPaths_holds_no_pattern (html b : jstr) :
  b ∈ root_attrs -> includes (rewriteRootPaths html rootUri) (root_pattern b) = false.
Proof.
  intros Hb. remember (length html) as n eqn:Hn. revert html Hn.
  induction n as [n IH] using lt_wf_ind. intros html Hn.
  destruct (root_pattern_cases html) as [-> | [(a & rest & Ha & ->) | (c & t & -> & Hno)]].
  - cbn. unfold root_pattern. destruct b; reflexivity.
  - rewrite (rewriteRootPaths_match rootUri rootUri_quote rootUri_not_absolute rootUri_dollar)
      by exact Ha.
    apply template_holds_no_pattern; [exact Ha | exact Hb|].
    apply (IH (length rest)); [|reflexivity].
    subst n. rewrite length_app. unfold root_pattern. rewrite length_app. simpl. lia.
  - rewrite (rewriteRootPaths_keep rootUri rootUri_not_absolute rootUri_dollar) by exact Hno.
    rewrite includes_cons. apply orb_false_iff. split.
    + destruct (startsWith _ (root_pattern b)) eqn:E; [|reflexivity].
      rewrite <- (rewriteRootPaths_keep rootUri rootUri_not_absolute rootUri_dollar) in E
        by exact Hno.
      apply (rewriteRootPaths_head rootUri rootUri_not_absolute rootUri_dollar) in E;
        [|exact Hb].
      rewrite Hno in E; [discriminate | exact Hb].
    + apply (IH (length t)); [subst n; simpl; lia | reflexivity].
Qed.
End NoRootPath.

(** X16.  With a root that is not empty, holds no quote and no dollar
    sign and does not start with a slash, the rewritten page holds none
    of the texts [href=], [src=] and [action=] followed by a quote and
    a slash: no link of the page points to the root of the file system
    any more. *)
Theorem rewriteRootPaths_leaves_no_root_path (html rootUri attr : jstr) :
  rootUri <> [] ->
  ch_quote ∉ rootUri ->
  startsWith rootUri "/" = false ->
  ch_dollar ∉ rootUri ->
  attr ∈ root_attrs ->
  includes (rewriteRootPaths html rootUri) (root_pattern attr) = false.
Proof.
  intros Hne Hq Hs Hd Ha.
  destruct (root_cases rootUri Hs) as [-> | (r0 & root_tail & Hcons & Hr0)]; [congruence|].
  apply (rewriteRootPaths_holds_no_pattern rootUri r0 root_tail); assumption.
Qed.

Lemma rewriteRootPaths_leaves_no_root_path_witness :
  includes
    (rewriteRootPaths ("<a href=" ++ [ch_quote] ++ "/x" ++ [ch_quote] ++ ">") "https://h/p")
    (root_pattern "href=") = false.
Proof.
  apply rewriteRootPaths_leaves_no_root_path.
  - discriminate.
  - apply (bool_decide_unpack _). vm_compute. exact I.
  - reflexivity.
  - apply (bool_decide_unpack _). vm_compute. exact I.
  - apply (bool_decide_unpack _). vm_compute. exact I.
Defined.

(** ** Showing the page *)

(** X17.  When [openPreview] has built the site and shows the page, the
    panel holds the generated page: the file at the path that
    [resolveHtmlPathByHugoList], run after the build, returns, as it is
    in the file system after the build and the listing, with its root
    paths rewritten and its [html] tag marked, under the name of the
    document.  A panel is created only when there is none, an open
    panel is revealed; and every run registers one more listener for
    saved documents, also when the panel is reused.  When the build,
    the listing or the reading of the page fails, the panel is left as
    it was. *)
Theorem openPreview_show_panel (h : Host) (job : PreviewJob) (w : World) :
  let build_args :=
    ["--source"; job_workspace job; "--contentDir"; job_contentDir job;
     "--destination"; job_outDir job;
     "--buildDrafts"; "--buildFuture"; "--buildExpired"] in
  let build := EvExecFile (job_hugo job) build_args in
  let list := EvExecFile (job_hugo job) ["--source"; job_workspace job; "list"; "all"] in
  let title := path.basename (job_relPath job) None in
  match openPreview_show h job w with
  | (Ok _, w') =>
      (exists stdout built htmlPath listed html,
         exec_hugo h w (job_hugo job) build_args = Some (stdout, built)
         /\ resolveHtmlPathByHugoList h (job_hugo job) (job_workspace job)
              (job_outDir job) (job_relPath job) (with_fs built (add_event build w))
            = (Ok htmlPath, listed)
         /\ fs listed !! htmlPath = Some (File html)
         /\ fs w' = fs listed
         /\ previewPanel w'
            = Some {| panel_title := title;
                      panel_html :=
                        mark_html (rewriteRootPaths html (asWebviewUri h (job_outDir job))) |})
      /\ trace w'
         = trace w
           ++ [build; list;
               match previewPanel w with
               | None => EvCreateWebviewPanel title
               | Some _ => EvReveal
               end;
               EvOnDidSaveTextDocument]
  | (Throw _, w') =>
      previewPanel w' = previewPanel w
      /\ (trace w' = trace w ++ [build] \/ trace w' = trace w ++ [build; list])
  end.
Proof.
  cbv zeta. unfold openPreview_show.
  unfold execFileAsync at 1. rewrite !bind_assoc, bind_get_world, bind_assoc, bind_emit.
  destruct (exec_hugo h w _ _) as [[stdout1 m1]|] eqn:Hbuild;
    [|split; [reflexivity | left; reflexivity]].
  rewrite !bind_assoc, bind_put_fs, bind_ret.
  match goal with |- context [with_fs m1 (add_event ?ev w)] =>
    set (w1 := with_fs m1 (add_event ev w)) end.
  unfold bind at 1.
  destruct (resolveHtmlPathByHugoList h _ _ _ _ w1) as [[htmlPath|e] w2] eqn:Hlist.
  2:{ revert Hlist. unfold resolveHtmlPathByHugoList, execFileAsync.
      rewrite bind_assoc, bind_get_world, bind_assoc, bind_emit.
      destruct (exec_hugo h w1 _ _) as [[stdout2 m2]|].
      - rewrite bind_assoc, bind_put_fs, bind_ret.
        destruct (resolveHtmlPath_of_stdout _ _ _ _) as [p|e0]; [discriminate|].
        intros [= <- <-].
        split; [reflexivity|]. right. cbn. rewrite <- app_assoc. reflexivity.
      - intros [= <- <-]. split; [reflexivity|]. right. cbn. rewrite <- app_assoc. reflexivity. }
  assert (Hw2 : previewPanel w2 = previewPanel w
                /\ trace w2 = trace w
                     ++ [EvExecFile (job_hugo job)
                           ["--source"; job_workspace job; "--contentDir"; job_contentDir job;
                            "--destination"; job_outDir job;
                            "--buildDrafts"; "--buildFuture"; "--buildExpired"];
                         EvExecFile (job_hugo job)
                           ["--source"; job_workspace job; "list"; "all"]]).
  { revert Hlist. unfold resolveHtmlPathByHugoList, execFileAsync.
    rewrite bind_assoc, bind_get_world, bind_assoc, bind_emit.
    destruct (exec_hugo h w1 _ _) as [[stdout2 m2]|]; [|discriminate].
    rewrite bind_assoc, bind_put_fs, bind_ret.
    destruct (resolveHtmlPath_of_stdout _ _ _ _) as [p|e0]; [|discriminate].
    intros [= <- <-].
    split; [reflexivity|]. cbn. rewrite <- app_assoc. reflexivity. }
  destruct Hw2 as [Hpanel Htrace].
  rewrite bind_get_world.
  destruct (existsSync (fs w2) htmlPath); cbn [negb];
    [|split; [exact Hpanel | right; exact Htrace]].
  unfold readFileSync.
  destruct (fs w2 !! htmlPath) as [[html|]|] eqn:Hfile; rewrite bind_lift;
    try (split; [exact Hpanel | right; exact Htrace]).
  rewrite Hpanel.
  destruct (previewPanel w) as [p|]; cbn; rewrite Htrace;
    (split; [|rewrite <- ?app_assoc; reflexivity]);
    exists stdout1, m1, htmlPath, w2, html;
    (split; [reflexivity|]); (split; [exact Hlist|]); (split; [exact Hfile|]);
    (split; reflexivity).
Qed.

(** ** Searching a directory *)

Lemma Dirent_nested_ind (P : Dirent -> Prop) :
  (forall name, P (DirentFile name)) ->
  (forall name sub, Forall P sub -> P (DirentDirectory name sub)) ->
  (forall name, P (DirentOther name)) ->
  forall e, P e.
Proof.
  intros Hfile Hdir Hother. fix IH 1. intros [name|name sub|name].
  - apply Hfile.
  - apply Hdir. induction sub as [|e sub IHsub]; constructor; [apply IH | exact IHsub].
  - apply Hother.
Qed.

(** The functions as the source has them: the call for a directory is
    the function itself. *)
Lemma findFirstFile_cons (dir filename : jstr) (e : Dirent) (rest : list Dirent) :
  findFirstFile dir filename (e :: rest) =
    match e with
    | DirentFile name =>
        if bool_decide (name = filename) then Some (path.join [dir; name])
        else findFirstFile dir filename rest
    | DirentDirectory name sub =>
        match findFirstFile (path.join [dir; name]) filename sub with
        | Some found =>
            if non_empty found then Some found else findFirstFile dir filename rest
        | None => findFirstFile dir filename rest
        end
    | DirentOther _ => findFirstFile dir filename rest
    end.
Proof.
  destruct e as [name|name sub|name]; cbn [findFirstFile findFirstFile_at].
  - destruct (bool_decide _); reflexivity.
  - assert (Hloop : (fix loop (entries : list Dirent) {struct entries} : option jstr :=
                           match entries with
                           | [] => None
                           | e' :: rest0 =>
                               match findFirstFile_at (path.join [dir; name]) filename e' with
                               | Some found => Some found
                               | None => loop rest0
                               end
                           end) sub
                        = findFirstFile (path.join [dir; name]) filename sub).
    { induction sub as [|e' sub IH]; [reflexivity|].
      cbn [findFirstFile]. rewrite IH. reflexivity. }
    cbv zeta. rewrite Hloop.
    destruct (findFirstFile _ filename sub) as [found|]; [|reflexivity].
    destruct (non_empty found); reflexivity.
  - reflexivity.
Qed.

Lemma findHugoBinary_cons (dir : jstr) (isWin : bool) (e : Dirent) (rest : list Dirent) :
  findHugoBinary dir isWin (e :: rest) =
    let target : jstr := if isWin then "hugo.exe" else "hugo" in
    match e with
    | DirentFile name =>
        if bool_decide (name = target) then Some (path.join [dir; name])
        else findHugoBinary dir isWin rest
    | DirentDirectory name sub =>
        match findHugoBinary (path.join [dir; name]) isWin sub with
        | Some found =>
            if non_empty found then Some found else findHugoBinary dir isWin rest
        | None => findHugoBinary dir isWin rest
        end
    | DirentOther _ => findHugoBinary dir isWin rest
    end.
Proof.
  destruct e as [name|name sub|name]; cbn [findHugoBinary findHugoBinary_at].
  - cbv zeta. destruct (bool_decide _); reflexivity.
  - assert (Hloop : (fix loop (entries : list Dirent) {struct entries} : option jstr :=
                           match entries with
                           | [] => None
                           | e' :: rest0 =>
                               match findHugoBinary_at (path.join [dir; name]) isWin e' with
                               | Some found => Some found
                               | None => loop rest0
                               end
                           end) sub
                        = findHugoBinary (path.join [dir; name]) isWin sub).
    { induction sub as [|e' sub IH]; [reflexivity|].
      cbn [findHugoBinary]. rewrite IH. reflexivity. }
    cbv zeta. rewrite Hloop.
    destruct (findHugoBinary _ isWin sub) as [found|]; [|reflexivity].
    destruct (non_empty found); reflexivity.
  - reflexivity.
Qed.

Lemma normalize_non_empty (p : jstr) : non_empty (path.normalize p) = true.
Proof.
  unfold path.normalize.
  destruct (non_empty p); cbn [negb]; [|reflexivity].
  destruct (non_empty (path.normalizeString p _)) eqn:Hn; cbn [negb].
  - destruct (path.isAbsolute p); [reflexivity|].
    destruct (path.trailingSeparator p); [|exact Hn].
    destruct (path.normalizeString p _); [discriminate | reflexivity].
  - destruct (path.isAbsolute p); [reflexivity|].
    destruct (path.trailingSeparator p); reflexivity.
Qed.

Lemma join_non_empty (args : list jstr) : non_empty (path.join args) = true.
Proof.
  unfold path.join. destruct (filter _ args); [reflexivity | apply normalize_non_empty].
Qed.

Lemma holds_file_cons (name dir : jstr) (e : Dirent) (entries : list Dirent) (p : jstr) :
  holds_file name dir entries p -> holds_file name dir (e :: entries) p.
Proof.
  intros [dir' entries' Hin | dir' sub_name entries' sub p' Hin Hsub].
  - apply holds_file_here. apply list_elem_of_further, Hin.
  - eapply holds_file_below; [apply list_elem_of_further, Hin | exact Hsub].
Qed.

Lemma findFirstFile_sound_all (filename : jstr) (entries : list Dirent) :
  Forall (fun e => forall dir rest p,
            findFirstFile dir filename (e :: rest) = Some p ->
            holds_file filename dir [e] p \/ findFirstFile dir filename rest = Some p)
         entries ->
  forall dir p, findFirstFile dir filename entries = Some p -> holds_file filename dir entries p.
Proof.
  induction 1 as [|e entries He Hall IH]; intros dir p; [discriminate|].
  intros Hfind. destruct (He dir entries p Hfind) as [Hhere | Hrest].
  - inversion Hhere as [dir' entries' Hin | dir' sub_name entries' sub p' Hin Hsub]; subst.
    + apply list_elem_of_singleton in Hin as <-. apply holds_file_here, list_elem_of_here.
    + apply list_elem_of_singleton in Hin as <-.
      eapply holds_file_below; [apply list_elem_of_here | exact Hsub].
  - apply holds_file_cons, IH, Hrest.
Qed.

Lemma findFirstFile_sound_entry (filename : jstr) (e : Dirent) :
  forall dir rest p,
    findFirstFile dir filename (e :: rest) = Some p ->
    holds_file filename dir [e] p \/ findFirstFile dir filename rest = Some p.
Proof.
  induction e as [name|name sub IH|name] using Dirent_nested_ind; intros dir rest p;
    rewrite findFirstFile_cons.
  - case_bool_decide as Hname; [|right; assumption].
    intros [= <-]. subst name. left. apply holds_file_here, list_elem_of_here.
  - destruct (findFirstFile (path.join [dir; name]) filename sub) as [found|] eqn:Hsub;
      [|right; assumption].
    destruct (non_empty found); [|right; assumption].
    intros [= <-]. left.
    eapply holds_file_below; [apply list_elem_of_here|].
    apply findFirstFile_sound_all; assumption.
  - right. assumption.
Qed.

Lemma findFirstFile_sound (filename dir : jstr) (entries : list Dirent) (p : jstr) :
  findFirstFile dir filename entries = Some p -> holds_file filename dir entries p.
Proof.
  apply findFirstFile_sound_all. apply Forall_forall. intros e _.
  apply findFirstFile_sound_entry.
Qed.

Lemma holds_file_non_empty (name dir : jstr) (entries : list Dirent) (p : jstr) :
  holds_file name dir entries p -> non_empty p = true.
Proof. induction 1; [apply join_non_empty | assumption]. Qed.

Lemma findFirstFile_at_found (filename dir : jstr) (e : Dirent) (entries : list Dirent) :
  e ∈ entries ->
  (forall rest, is_Some (findFirstFile dir filename (e :: rest))) ->
  is_Some (findFirstFile dir filename entries).
Proof.
  intros Hin He. induction entries as [|e' entries IH]; [apply elem_of_nil in Hin as []|].
  apply elem_of_cons in Hin as [<- | Hin]; [apply He|].
  specialize (IH Hin). rewrite findFirstFile_cons.
  destruct e' as [name|name sub|name]; [| |exact IH].
  - destruct (bool_decide _); [eexists; reflexivity | exact IH].
  - destruct (findFirstFile _ filename sub) as [found|]; [|exact IH].
    destruct (non_empty found); [eexists; reflexivity | exact IH].
Qed.

Lemma findFirstFile_complete (filename dir : jstr) (entries : list Dirent) (p : jstr) :
  holds_file filename dir entries p -> is_Some (findFirstFile dir filename entries).
Proof.
  induction 1 as [dir entries Hin | dir sub_name entries sub p Hin Hsub IH].
  - apply (findFirstFile_at_found _ _ _ _ Hin). intros rest.
    rewrite findFirstFile_cons, bool_decide_true by reflexivity. eexists; reflexivity.
  - apply (findFirstFile_at_found _ _ _ _ Hin). intros rest.
    rewrite findFirstFile_cons. destruct IH as [found Hfound]. rewrite Hfound.
    apply findFirstFile_sound, holds_file_non_empty in Hfound. rewrite Hfound.
    eexists; reflexivity.
Qed.

Lemma findHugoBinary_findFirstFile (isWin : bool) (e : Dirent) :
  forall dir rest,
    findHugoBinary dir isWin rest
    = findFirstFile dir (if isWin then "hugo.exe" else "hugo") rest ->
    findHugoBinary dir isWin (e :: rest)
    = findFirstFile dir (if isWin then "hugo.exe" else "hugo") (e :: rest).
Proof.
  induction e as [name|name sub IH|name] using Dirent_nested_ind; intros dir rest Hrest;
    rewrite findHugoBinary_cons, findFirstFile_cons; cbv zeta; rewrite Hrest;
    [reflexivity | | reflexivity].
  assert (Hsub : forall d, findHugoBinary d isWin sub
                           = findFirstFile d (if isWin then "hugo.exe" else "hugo") sub).
  { induction IH as [|e sub He Hall IHsub]; intros d; [reflexivity|]. apply He, IHsub. }
  rewrite Hsub. reflexivity.
Qed.

(** X18.  [findFirstFile] returns a path exactly when the directory
    holds, in itself or in a directory below it, a file of the name
    looked for, and what it returns is the path of such a file:
    entries that are neither files nor directories are passed over.
    [findHugoBinary] is the same search for [hugo.exe] on Windows and
    for [hugo] elsewhere. *)
Theorem findFirstFile_finds (dir filename : jstr) (isWin : bool) (entries : list Dirent) :
  (forall p, findFirstFile dir filename entries = Some p ->
             holds_file filename dir entries p)
  /\ (findFirstFile dir filename entries = None <->
      forall p, ~ holds_file filename dir entries p)
  /\ findHugoBinary dir isWin entries
     = findFirstFile dir (if isWin then "hugo.exe" else "hugo") entries.
Proof.
  split; [intros p; apply findFirstFile_sound|]. split.
  - split.
    + intros Hnone p Hp. apply findFirstFile_complete in Hp as [found Hfound]. congruence.
    + intros Hno. destruct (findFirstFile dir filename entries) as [p|] eqn:Hfind;
        [|reflexivity].
      exfalso. exact (Hno p (findFirstFile_sound _ _ _ _ Hfind)).
  - induction entries as [|e entries IH]; [reflexivity|].
    apply findHugoBinary_findFirstFile, IH.
Qed.

(** The binary is found in the directory [bin] of the archive. *)
Lemma findHugoBinary_unpacked_archive :
  findHugoBinary "/s/tmp/extract" true unpacked_archive = Some "/s/tmp/extract/bin/hugo.exe".
Proof. vm_compute. reflexivity. Qed.

(** ** What an install leaves *)

Lemma fs_call_Ok_inv (f : FileSystem -> result Error FileSystem) (w w' : World) :
  fs_call f w = (Ok tt, w') -> exists m, f (fs w) = Ok m /\ w' = with_fs m w.
Proof.
  unfold fs_call, bind, get_world. destruct (f (fs w)) as [m|e]; [|discriminate].
  intros [= <-]. exists m. split; reflexivity.
Qed.

(** X19.  When [installHugoInternal] returns, the managed binary
    [<globalStorage>/bin/hugo] (or [hugo.exe]) is a file, and the last
    thing that happened is that it was run with the argument [version],
    with success. *)
Theorem installHugoInternal_installs (h : Host) (version : jstr) (useExtended : bool)
    (w w' : World) :
  installHugoInternal h version useExtended w = (Ok tt, w') ->
  just_ran h (hugoBin h) w'
  /\ exists data, fs w' !! hugoBin h = Some (File data).
Proof.
  unfold installHugoInternal. intros Hrun.
  apply bind_Ok_inv in Hrun as (platform & w1 & _ & Hrun).
  apply bind_Ok_inv in Hrun as (arch & w2 & _ & Hrun).
  apply bind_Ok_inv in Hrun as ([] & w3 & _ & Hrun).
  apply bind_Ok_inv in Hrun as ([] & w4 & _ & Hrun).
  cbv zeta in Hrun.
  apply bind_Ok_inv in Hrun as (w5 & w5' & _ & Hrun).
  apply bind_Ok_inv in Hrun as ([] & w6 & _ & Hrun).
  apply bind_Ok_inv in Hrun as (m & w7 & _ & Hrun).
  apply bind_Ok_inv in Hrun as ([] & w8 & _ & Hrun).
  apply bind_Ok_inv in Hrun as ([] & w9 & _ & Hrun).
  apply bind_Ok_inv in Hrun as ([] & w10 & _ & Hrun).
  apply bind_Ok_inv in Hrun as (w11 & w11' & _ & Hrun).
  apply bind_Ok_inv in Hrun as ([] & w12 & _ & Hrun).
  apply bind_Ok_inv in Hrun as (unpacked & w13 & _ & Hrun).
  apply bind_Ok_inv in Hrun as ([] & w14 & _ & Hrun).
  destruct (unpacked.2) as [src|]; [|discriminate].
  apply bind_Ok_inv in Hrun as ([] & w15 & Hcopy & Hrun).
  apply bind_Ok_inv in Hrun as (ok & w16 & Hcheck & Hrun).
  destruct ok; [|discriminate]. injection Hrun as <-.
  split; [eapply checkHugo_true, Hcheck|].
  apply fs_call_Ok_inv in Hcopy as (m15 & Hwrite & ->).
  destruct (readFileSync (fs w14) src) as [data|e]; [|discriminate].
  apply writeFileSync_ok in Hwrite as [-> _].
  rewrite checkHugo_run in Hcheck. injection Hcheck as _ <-.
  exists data. cbn [fs add_event with_fs]. apply lookup_insert_eq.
Qed.

(** On a machine without Hugo the pinned release is installed. *)
Lemma installHugoInternal_installs_witness :
  just_ran installing_host (hugoBin installing_host)
    (installHugoInternal installing_host "0.152.2" true empty_world).2
  /\ exists data,
       fs (installHugoInternal installing_host "0.152.2" true empty_world).2
         !! hugoBin installing_host
       = Some (File data).
Proof.
  apply (installHugoInternal_installs installing_host "0.152.2" true empty_world).
  vm_compute. reflexivity.
Defined.

(** ** The release that is installed *)

(** The name of the archive holds the flavour and the version first. *)
Lemma archiveFileName_version (platform : Platform) (arch : Arch) (version : jstr)
    (useExtended : bool) :
  archiveFileName platform arch version useExtended
  = (if useExtended then "hugo_extended" else "hugo") ++ "_" ++ version ++ "_"
    ++ Platform_str platform ++ "-" ++ Arch_str arch
    ++ (match platform with windows => ".zip" | _ => ".tar.gz" end).
Proof. unfold archiveFileName. destruct platform; reflexivity. Qed.

Lemma releaseBase_literal (version fileName : jstr) :
  releaseBase version ++ fileName
  = "https://github.com/gohugoio/hugo/releases/download/v" ++ version ++ "/" ++ fileName.
Proof. unfold releaseBase. rewrite <- !app_assoc. reflexivity. Qed.

Lemma mapPlatform_supported (p : jstr) :
  p ∈ ["win32"; "darwin"; "linux"] -> exists platform, mapPlatform p = Ok platform.
Proof.
  rewrite !elem_of_cons, elem_of_nil.
  intros [-> | [-> | [-> | []]]]; eexists; reflexivity.
Qed.

Lemma mapArch_supported (a : jstr) :
  a ∈ ["x64"; "arm64"] -> exists arch, mapArch a = Ok arch.
Proof.
  rewrite !elem_of_cons, elem_of_nil.
  intros [-> | [-> | []]]; eexists; reflexivity.
Qed.

(** With a supported platform and architecture [installHugoInternal]
    makes at most one download, that of the archive, and makes it as
    soon as its two directories can be created. *)
Lemma installHugoInternal_download (h : Host) (version : jstr) (useExtended : bool)
    (w : World) (platform : Platform) (arch : Arch) :
  mapPlatform (process_platform h) = Ok platform ->
  mapArch (process_arch h) = Ok arch ->
  let fileName := archiveFileName platform arch version useExtended in
  let ev := EvDownload (releaseBase version ++ fileName) (path.join [tmpDir h; fileName]) in
  let w' := (installHugoInternal h version useExtended w).2 in
  match mkdirSync (fs w) (binDir h) with
  | Ok m =>
      match mkdirSync m (tmpDir h) with
      | Ok _ =>
          exists rest, trace w' = trace w ++ ev :: rest
                       /\ Forall (fun e => is_download e = false) rest
      | Throw e =>
          installHugoInternal h version useExtended w = (Throw e, with_fs m w)
      end
  | Throw e => installHugoInternal h version useExtended w = (Throw e, w)
  end.
Proof.
  intros Hp Ha fileName ev w'. subst w'.
  unfold installHugoInternal. rewrite Hp, Ha, !bind_lift, !bind_fs_call.
  fold fileName.
  destruct (mkdirSync (fs w) (binDir h)) as [m1|e1]; simpl fs; [|reflexivity].
  rewrite bind_fs_call. simpl fs.
  destruct (mkdirSync m1 (tmpDir h)) as [m2|e2]; [|reflexivity].
  rewrite bind_get_world, bind_emit.
  match goal with |- context [bind ?m ?k (add_event ?ev ?w0)] =>
    pose proof (emits_only_bind (fun e => is_download e = false) m k) as Hrest;
    set (tail := bind m k) in *; set (w1 := add_event ev w0) in *
  end.
  assert (Hadv : advances (fun e => is_download e = false) w1 (tail w1).2).
  { apply Hrest.
    - apply emits_only_lift.
    - intros m. unfold tmpDir.
      apply emits_only_bind; [apply emits_only_put_fs|]. intros _.
      apply (after_download_emits h); [reflexivity..].  }
  destruct Hadv as [_ (evs & Hevs & Hall)].
  exists evs. split; [|exact Hall].
  rewrite Hevs. unfold w1. simpl. rewrite <- app_assoc. reflexivity.
Qed.

(** When [installHugoInternal] returns, it has downloaded the archive,
    unpacked it and run the binary it has put in its place. *)
Lemma installHugoInternal_returns (h : Host) (version : jstr) (useExtended : bool)
    (w w' : World) :
  installHugoInternal h version useExtended w = (Ok tt, w') ->
  exists platform arch,
    mapPlatform (process_platform h) = Ok platform
    /\ mapArch (process_arch h) = Ok arch
    /\ (let fileName := archiveFileName platform arch version useExtended in
        trace w'
        = trace w
          ++ [EvDownload (releaseBase version ++ fileName) (path.join [tmpDir h; fileName]);
              EvExtract (path.join [tmpDir h; fileName]) (path.join [tmpDir h; "extract"]);
              EvExecVersion (hugoBin h)])
    /\ just_ran h (hugoBin h) w'
    /\ exists data, fs w' !! hugoBin h = Some (File data).
Proof.
  unfold installHugoInternal. intros Hrun.
  destruct (mapPlatform (process_platform h)) as [platform|] eqn:Hp; [|discriminate].
  destruct (mapArch (process_arch h)) as [arch|] eqn:Ha; [|discriminate].
  exists platform, arch. split; [reflexivity|]. split; [reflexivity|].
  rewrite !bind_lift in Hrun.
  apply bind_Ok_inv in Hrun as ([] & w3 & Hmk1 & Hrun).
  apply fs_call_Ok_inv in Hmk1 as (m3 & _ & ->).
  apply bind_Ok_inv in Hrun as ([] & w4 & Hmk2 & Hrun).
  apply fs_call_Ok_inv in Hmk2 as (m4 & _ & ->).
  cbv zeta in Hrun.
  rewrite bind_get_world, bind_emit in Hrun.
  apply bind_Ok_inv in Hrun as (m & w7 & Hdl & Hrun).
  destruct (download h _ _ _) as [m'|]; [|discriminate]. injection Hdl as -> <-.
  rewrite bind_put_fs in Hrun.
  apply bind_Ok_inv in Hrun as ([] & w9 & Hrm & Hrun).
  apply fs_call_Ok_inv in Hrm as (m9 & _ & ->).
  apply bind_Ok_inv in Hrun as ([] & w10 & Hmk3 & Hrun).
  apply fs_call_Ok_inv in Hmk3 as (m10 & _ & ->).
  rewrite bind_get_world, bind_emit in Hrun.
  apply bind_Ok_inv in Hrun as (unpacked & w13 & Hex & Hrun).
  destruct (extract h _ _ _) as [u|]; [|discriminate]. injection Hex as -> <-.
  rewrite bind_put_fs in Hrun.
  destruct (unpacked.2) as [src|]; [|discriminate].
  apply bind_Ok_inv in Hrun as ([] & w15 & Hcopy & Hrun).
  apply fs_call_Ok_inv in Hcopy as (m15 & Hwrite & ->).
  apply bind_Ok_inv in Hrun as (ok & w16 & Hcheck & Hrun).
  destruct ok; [|discriminate]. injection Hrun as <-.
  split; [|split].
  - rewrite checkHugo_run in Hcheck. injection Hcheck as _ <-.
    cbn [trace add_event with_fs]. rewrite <- 2!(app_assoc (trace w)). reflexivity.
  - eapply checkHugo_true, Hcheck.
  - cbn [fs with_fs add_event] in Hwrite.
    destruct (readFileSync _ src) as [data|e]; [|discriminate].
    apply writeFileSync_ok in Hwrite as [-> _].
    rewrite checkHugo_run in Hcheck. injection Hcheck as _ <-.
    exists data. cbn [fs add_event with_fs]. apply lookup_insert_eq.
Qed.

(** C5.  The archive that an install of the release [version] asks
    for is named by the flavour ([hugo_extended] or [hugo]), the
    version, the platform ([windows], [darwin] or [linux], for the
    [process.platform] [win32], [darwin] or [linux]) and the
    architecture ([amd64] or [arm64], for the [process.arch] [x64] or
    [arm64]), with [.zip] on Windows and [.tar.gz] elsewhere.
    [downloadFile] is called with the URL of that name in the
    directory of the release [version] and with that name in the
    directory [tmp] as its destination; it is called as soon as the
    two directories can be created, and it is not called a second
    time.  With any other platform or architecture the install throws
    before it does anything. *)
Theorem installHugoInternal_archive (h : Host) (version : jstr) (useExtended : bool) (w : World) :
  (forall platform arch ext : jstr,
     (process_platform h, platform, ext)
       ∈ [("win32", "windows", ".zip"); ("darwin", "darwin", ".tar.gz");
          ("linux", "linux", ".tar.gz")] ->
     (process_arch h, arch) ∈ [("x64", "amd64"); ("arm64", "arm64")] ->
     let fileName :=
       (if useExtended then "hugo_extended" else "hugo") ++ "_" ++ version ++ "_"
       ++ platform ++ "-" ++ arch ++ ext in
     let ev :=
       EvDownload
         ("https://github.com/gohugoio/hugo/releases/download/v" ++ version ++ "/" ++ fileName)
         (path.join [tmpDir h; fileName]) in
     let w' := (installHugoInternal h version useExtended w).2 in
     match mkdirSync (fs w) (binDir h) with
     | Ok m =>
         match mkdirSync m (tmpDir h) with
         | Ok _ =>
             exists rest, trace w' = trace w ++ ev :: rest
                          /\ Forall (fun e => is_download e = false) rest
         | Throw e =>
             installHugoInternal h version useExtended w = (Throw e, with_fs m w)
         end
     | Throw e => installHugoInternal h version useExtended w = (Throw e, w)
     end)
  /\ (process_platform h ∉ ["win32"; "darwin"; "linux"] ->
      installHugoInternal h version useExtended w
      = (Throw (ErrUnsupportedPlatform (process_platform h)), w))
  /\ (process_platform h ∈ ["win32"; "darwin"; "linux"] ->
      process_arch h ∉ ["x64"; "arm64"] ->
      installHugoInternal h version useExtended w
      = (Throw (ErrUnsupportedArch (process_arch h)), w)).
Proof.
  split; [|split].
  - intros platform arch ext Hp Ha.
    assert (Hplatform : exists p, mapPlatform (process_platform h) = Ok p
              /\ Platform_str p = platform
              /\ match p with windows => ".zip" | _ => ".tar.gz" end = ext).
    { rewrite !elem_of_cons, elem_of_nil in Hp.
      destruct Hp as [Hp | [Hp | [Hp | []]]]; injection Hp as Hp -> ->; rewrite Hp;
        eexists; (split; [reflexivity|]); split; reflexivity. }
    assert (Harch : exists a, mapArch (process_arch h) = Ok a /\ Arch_str a = arch).
    { rewrite !elem_of_cons, elem_of_nil in Ha.
      destruct Ha as [Ha | [Ha | []]]; injection Ha as Ha ->; rewrite Ha;
        eexists; (split; [reflexivity|]); reflexivity. }
    destruct Hplatform as (p & Hmp & <- & <-). destruct Harch as (a & Hma & <-).
    pose proof (installHugoInternal_download h version useExtended w p a Hmp Hma) as H.
    cbv zeta in H. rewrite releaseBase_literal, archiveFileName_version in H. exact H.
  - intros Hp. unfold installHugoInternal, mapPlatform.
    rewrite !not_elem_of_cons in Hp. destruct Hp as (H1 & H2 & H3 & _).
    rewrite !bool_decide_false by assumption. reflexivity.
  - intros Hp Ha.
    assert (Hplatform : exists p, mapPlatform (process_platform h) = Ok p).
    { rewrite !elem_of_cons, elem_of_nil in Hp.
      destruct Hp as [Hp | [Hp | [Hp | []]]]; rewrite Hp; eexists; reflexivity. }
    destruct Hplatform as (p & Hmp).
    unfold installHugoInternal. rewrite Hmp. unfold mapArch.
    rewrite !not_elem_of_cons in Ha. destruct Ha as (H1 & H2 & _).
    rewrite !bool_decide_false by assumption. reflexivity.
Qed.

(** On Linux with an x64 processor, the extended release 0.152.2 is
    asked for under the name
    [hugo_extended_0.152.2_linux-amd64.tar.gz]. *)
Lemma installHugoInternal_archive_witness :
  exists rest,
    trace (installHugoInternal installing_host "0.152.2" true empty_world).2
    = EvDownload
        "https://github.com/gohugoio/hugo/releases/download/v0.152.2/hugo_extended_0.152.2_linux-amd64.tar.gz"
        "/s/tmp/hugo_extended_0.152.2_linux-amd64.tar.gz" :: rest
    /\ Forall (fun e => is_download e = false) rest.
Proof.
  assert (Hp : (process_platform installing_host, "linux" : jstr, ".tar.gz" : jstr)
                 ∈ [("win32" : jstr, "windows" : jstr, ".zip" : jstr);
                    ("darwin", "darwin", ".tar.gz"); ("linux", "linux", ".tar.gz")]).
  { apply list_elem_of_further, list_elem_of_further, list_elem_of_here. }
  assert (Ha : (process_arch installing_host, "amd64" : jstr)
                 ∈ [("x64" : jstr, "amd64" : jstr); ("arm64", "arm64")]).
  { apply list_elem_of_here. }
  exact (proj1 (installHugoInternal_archive installing_host "0.152.2" true empty_world)
           "linux" "amd64" ".tar.gz" Hp Ha).
Defined.

(** C3.  With a pinned version, [ensurePinnedHugoOnStartup] installs
    that release when no Hugo is found or when the version that the
    found Hugo reports is not the pinned one (or cannot be read): the
    one call of [downloadFile] it makes asks for an archive named by
    the flavour and the pinned version, in the directory of the pinned
    release; the call is made unless the platform or the architecture
    is not supported or a directory cannot be created; and when the
    function returns, the managed binary is in its place and has just
    been run.  When the found Hugo reports the pinned version nothing
    is installed: the program has only asked for versions.  And
    [checkHugoUpdateOnStartup] returns at once, having written one line
    to the console. *)
Theorem ensurePinnedHugoOnStartup_pinned (h : Host) (w : World) :
  let pinned := cfg_trimmed (cfg_hugoVersion h) in
  let useExtended := default true (cfg_useExtended h) in
  let r := (ensurePinnedHugoOnStartup h w).1 in
  let w' := (ensurePinnedHugoOnStartup h w).2 in
  let installs (w0 : World) : Prop :=
    ensurePinnedHugoOnStartup h w = installHugoInternal h pinned useExtended w0
    /\ (exists evs,
          trace w' = trace w0 ++ evs
          /\ (evs = []
              \/ exists suffix rest,
                   let fileName :=
                     (if useExtended then "hugo_extended" else "hugo")
                     ++ "_" ++ pinned ++ "_" ++ suffix in
                   evs = EvDownload
                           ("https://github.com/gohugoio/hugo/releases/download/v"
                            ++ pinned ++ "/" ++ fileName)
                           (path.join [tmpDir h; fileName]) :: rest
                   /\ Forall (fun e => is_download e = false) rest)
          /\ (forall m1 m2,
                process_platform h ∈ ["win32"; "darwin"; "linux"] ->
                process_arch h ∈ ["x64"; "arm64"] ->
                mkdirSync (fs w0) (binDir h) = Ok m1 ->
                mkdirSync m1 (tmpDir h) = Ok m2 ->
                evs <> []))
    /\ (r = Ok tt ->
        just_ran h (hugoBin h) w' /\ exists data, fs w' !! hugoBin h = Some (File data)) in
  non_empty pinned = true ->
  (exists found w1,
     resolveInstalledHugo h w = (Ok found, w1)
     /\ only_asked_versions w w1
     /\ match found with
        | None => installs w1
        | Some hugoPath =>
            exists localVer w2,
              getLocalHugoVersion h hugoPath w1 = (Ok localVer, w2)
              /\ only_asked_versions w w2
              /\ if bool_decide (localVer = Some pinned)
                 then ensurePinnedHugoOnStartup h w = (Ok tt, w2)
                 else installs w2
        end)
  /\ checkHugoUpdateOnStartup h w = (Ok tt, add_event EvConsoleLog w).
Proof.
  intros pinned useExtended r w' installs Hpin. split.
  2:{ unfold checkHugoUpdateOnStartup. fold pinned. rewrite Hpin. reflexivity. }
  assert (Hinstalls : forall w0,
            ensurePinnedHugoOnStartup h w = installHugoInternal h pinned useExtended w0 ->
            installs w0).
  { intros w0 Hrun. unfold installs, r, w'. rewrite Hrun. split; [reflexivity|]. split.
    - destruct (mapPlatform (process_platform h)) as [platform|e] eqn:Hp.
      2:{ exists []. split; [|split; [left; reflexivity|]].
          - unfold installHugoInternal. rewrite Hp. symmetry. apply app_nil_r.
          - intros ? ? Hin _. apply mapPlatform_supported in Hin as [? Hin]. congruence. }
      destruct (mapArch (process_arch h)) as [arch|e] eqn:Ha.
      2:{ exists []. split; [|split; [left; reflexivity|]].
          - unfold installHugoInternal. rewrite Hp, Ha. symmetry. apply app_nil_r.
          - intros ? ? _ Hin. apply mapArch_supported in Hin as [? Hin]. congruence. }
      pose proof (installHugoInternal_download h pinned useExtended w0 platform arch Hp Ha)
        as Hmade. cbv zeta in Hmade.
      destruct (mkdirSync (fs w0) (binDir h)) as [m1|e1] eqn:Hmk1.
      2:{ exists []. rewrite Hmade.
          split; [symmetry; apply app_nil_r | split; [left; reflexivity | intros; congruence]]. }
      destruct (mkdirSync m1 (tmpDir h)) as [m2|e2] eqn:Hmk2.
      2:{ exists []. rewrite Hmade.
          split; [symmetry; apply app_nil_r | split; [left; reflexivity|]].
          intros m1' m2' _ _ [= <-] Hm2. congruence. }
      destruct Hmade as (rest & Htrace & Hrest).
      eexists (_ :: rest). split; [exact Htrace|]. split; [|intros; discriminate].
      right. eexists _, rest. split; [|exact Hrest].
      rewrite releaseBase_literal, archiveFileName_version. reflexivity.
    - intros Hok.
      destruct (installHugoInternal h pinned useExtended w0) as [[[]|e] w3] eqn:Hres;
        [|discriminate].
      destruct (installHugoInternal_returns h pinned useExtended w0 w3 Hres)
        as (_ & _ & _ & _ & _ & Hran & Hfile).
      split; assumption. }
  destruct (resolveInstalledHugo_run h w) as (found & w1 & Hrun & Hadv).
  exists found, w1. split; [exact Hrun|]. split; [exact Hadv|].
  assert (Hens : ensurePinnedHugoOnStartup h w =
    match found with
    | None => installHugoInternal h pinned useExtended w1
    | Some hugoPath =>
        match exec_version h w1 hugoPath ≫= match_version with
        | Some v =>
            if negb (bool_decide (v = pinned))
            then installHugoInternal h pinned useExtended
                   (add_event (EvExecVersion hugoPath) w1)
            else (Ok tt, add_event (EvExecVersion hugoPath) w1)
        | None =>
            installHugoInternal h pinned useExtended
              (add_event (EvExecVersion hugoPath) w1)
        end
    end).
  { unfold ensurePinnedHugoOnStartup. fold pinned. rewrite Hpin.
    change (negb true) with false. cbv iota.
    unfold bind at 1. rewrite Hrun.
    destruct found as [hugoPath|]; [|reflexivity].
    unfold bind. rewrite getLocalHugoVersion_run.
    destruct (exec_version h w1 hugoPath ≫= match_version); [|reflexivity].
    destruct (negb _); reflexivity. }
  destruct found as [hugoPath|]; [|apply Hinstalls, Hens].
  eexists _, _. split; [apply getLocalHugoVersion_run|].
  split; [eapply only_asked_versions_trans; [exact Hadv | apply only_asked_versions_check]|].
  destruct (exec_version h w1 hugoPath ≫= match_version) as [v|] eqn:Hver.
  - destruct (decide (v = pinned)) as [->|Hne].
    + rewrite bool_decide_true by reflexivity.
      rewrite bool_decide_true in Hens by reflexivity. exact Hens.
    + rewrite bool_decide_false by congruence. apply Hinstalls.
      rewrite bool_decide_false in Hens by exact Hne. exact Hens.
  - rewrite bool_decide_false by congruence. apply Hinstalls, Hens.
Qed.

(** On a machine without Hugo the pinned release 0.152.2 is downloaded
    and installed; on a machine with Hugo 0.152.2 on the [PATH] and
    that version pinned nothing is installed; in both cases the check
    for a newer release is skipped. *)
Lemma ensurePinnedHugoOnStartup_pinned_witness :
  (exists w',
     ensurePinnedHugoOnStartup installing_host empty_world = (Ok tt, w')
     /\ trace w'
        = [EvExecVersion "hugo";
           EvDownload
             "https://github.com/gohugoio/hugo/releases/download/v0.152.2/hugo_extended_0.152.2_linux-amd64.tar.gz"
             "/s/tmp/hugo_extended_0.152.2_linux-amd64.tar.gz";
           EvExtract "/s/tmp/hugo_extended_0.152.2_linux-amd64.tar.gz" "/s/tmp/extract";
           EvExecVersion "/s/bin/hugo"]
     /\ just_ran installing_host (hugoBin installing_host) w'
     /\ exists data, fs w' !! hugoBin installing_host = Some (File data))
  /\ ensurePinnedHugoOnStartup (with_settings None (Some "0.152.2") demo_host) empty_world
     = (Ok tt, add_event (EvExecVersion "hugo") (add_event (EvExecVersion "hugo") empty_world))
  /\ checkHugoUpdateOnStartup installing_host empty_world
     = (Ok tt, add_event EvConsoleLog empty_world).
Proof.
  destruct (ensurePinnedHugoOnStartup_pinned installing_host empty_world eq_refl)
    as [(found & w1 & Hres & _ & Hcase) Hupd].
  destruct (ensurePinnedHugoOnStartup_pinned
              (with_settings None (Some "0.152.2") demo_host) empty_world eq_refl)
    as [(found2 & w2 & Hres2 & _ & Hcase2) _].
  split; [|split; [|exact Hupd]].
  - vm_compute in Hres. injection Hres as <- <-.
    destruct Hcase as (_ & _ & Hok).
    exists (ensurePinnedHugoOnStartup installing_host empty_world).2.
    split; [vm_compute; reflexivity|]. split; [vm_compute; reflexivity|].
    apply Hok. vm_compute. reflexivity.
  - vm_compute in Hres2. injection Hres2 as <- <-.
    destruct Hcase2 as (localVer & w3 & Hloc & _ & Hif).
    vm_compute in Hloc. injection Hloc as <- <-.
    rewrite bool_decide_true in Hif by reflexivity. exact Hif.
Defined.

(** ** The pinned version *)








(** ** Cleaning the directory [public] *)

Lemma rmSync_lookup (m : FileSystem) (p q : jstr) :
  rmSync m p !! q = if within p q then None else m !! q.
Proof.
  unfold rmSync. destruct (within p q) eqn:Hq.
  - apply map_lookup_filter_None. right. intros e _. cbn. congruence.
  - destruct (m !! q) as [e|] eqn:E.
    + apply map_lookup_filter_Some. split; [exact E | exact Hq].
    + apply map_lookup_filter_None. left. exact E.
Qed.

Lemma foldl_rmSync_lookup (f : jstr -> jstr) (entries : list jstr) (m : FileSystem) (q : jstr) :
  foldl (fun acc entry => rmSync acc (f entry)) m entries !! q
  = if existsb (fun entry => within (f entry) q) entries then None else m !! q.
Proof.
  revert m. induction entries as [|e entries IH]; intros m; [reflexivity|].
  cbn [foldl existsb]. rewrite IH, rmSync_lookup.
  destruct (within (f e) q); cbn [orb]; [|reflexivity].
  destruct (existsb _ entries); reflexivity.
Qed.

Lemma existsb_ext_in (f g : jstr -> bool) (l : list jstr) :
  (forall x, x ∈ l -> f x = g x) -> existsb f l = existsb g l.
Proof.
  induction l as [|x l IH]; intros H; [reflexivity|].
  cbn [existsb]. rewrite H by apply list_elem_of_here.
  rewrite IH; [reflexivity|]. intros y Hy. apply H, list_elem_of_further, Hy.
Qed.

Lemma entry_name_segment (name : jstr) :
  entry_name name = true -> clean_segment name /\ name_segment name.
Proof.
  unfold entry_name. rewrite !andb_true_iff, !negb_true_iff, !bool_decide_eq_false.
  intros [[[Hne Hdot] Hdots] Hslash].
  assert (name <> []) by (destruct name; [discriminate | congruence]).
  repeat split; assumption.
Qed.

Lemma within_below (dir name q : jstr) :
  within (dir ++ "/" ++ name) q = true -> startsWith q (dir ++ "/") = true.
Proof.
  unfold within. rewrite orb_true_iff, bool_decide_eq_true, !startsWith_spec.
  intros [-> | (rest & ->)].
  - exists name. rewrite <- app_assoc. reflexivity.
  - exists (name ++ "/" ++ rest). rewrite <- !app_assoc. reflexivity.
Qed.

Lemma child_name_of (dir name : jstr) :
  entry_name name = true -> child_name dir (dir ++ "/" ++ name) = Some name.
Proof.
  intros Hname. unfold child_name.
  assert (Hstart : startsWith (dir ++ "/" ++ name) (dir ++ "/") = true).
  { apply startsWith_spec. exists name. rewrite <- app_assoc. reflexivity. }
  rewrite Hstart. cbv zeta.
  replace (drop (length dir + 1) (dir ++ "/" ++ name)) with name.
  - rewrite Hname. reflexivity.
  - rewrite app_assoc, drop_app_length'; [reflexivity|].
    rewrite length_app. reflexivity.
Qed.

Lemma child_name_entry (dir k name : jstr) :
  child_name dir k = Some name -> entry_name name = true.
Proof.
  unfold child_name. destruct (startsWith k (dir ++ "/")); [|discriminate]. cbv zeta.
  destruct (entry_name _) eqn:E; [|discriminate]. intros [= <-]. exact E.
Qed.

(** X21.  [cleanPublicDir] of the directory [public] of the workspace
    does nothing when the directory does not exist and throws when it
    is a file, so that the server is not started.  When it is a
    directory, the directory itself and everything that is not below
    it stay as they are, nothing is created, and, the file system
    being a tree, nothing is left below it. *)
Theorem cleanPublicDir_cleans (m : FileSystem) (workspace : jstr) :
  let outDir := path.join [workspace; "public"] in
  match m !! outDir with
  | None => cleanPublicDir m outDir = Ok m
  | Some (File _) => cleanPublicDir m outDir = Throw (ErrHost "ENOTDIR")
  | Some Dir =>
      exists m',
        cleanPublicDir m outDir = Ok m'
        /\ m' !! outDir = Some Dir
        /\ (forall q, startsWith q (outDir ++ "/") = false -> m' !! q = m !! q)
        /\ (forall q, m' !! q = None \/ m' !! q = m !! q)
        /\ (tree_below m outDir ->
            forall q, startsWith q (outDir ++ "/") = true -> m' !! q = None)
  end.
Proof.
  intros outDir.
  destruct (join_named [workspace] "public") as [Heq Hclean Hnormal].
  { split; [discriminate|]. apply (bool_decide_unpack _). vm_compute. exact I. }
  { repeat split; discriminate. }
  pose proof (Build_named_path _ _ _ _ Heq Hclean Hnormal) as Hnamed.
  change (path.join ([workspace] ++ ["public"])) with outDir in Hnamed.
  clear Heq Hclean Hnormal.
  unfold cleanPublicDir, existsSync, readdirSync.
  destruct (m !! outDir) as [[content|]|] eqn:Hout.
  - rewrite bool_decide_true by (eexists; reflexivity). reflexivity.
  - rewrite bool_decide_true by (eexists; reflexivity). cbn [negb].
    set (entries := omap (child_name outDir) (map_to_list m).*1).
    assert (Hjoin : forall entry, entry ∈ entries ->
              path.join [outDir; entry] = outDir ++ "/" ++ entry).
    { intros entry Hin. apply list_elem_of_omap in Hin as (k & _ & Hk).
      apply child_name_entry, entry_name_segment in Hk as [Hc Hn].
      apply (join_below _ _ _ outDir [entry] Hnamed); [discriminate | |];
        constructor; (assumption || constructor). }
    assert (Hlookup : forall q,
              foldl (fun acc entry => rmSync acc (path.join [outDir; entry])) m entries !! q
              = if existsb (fun entry => within (outDir ++ "/" ++ entry) q) entries
                then None else m !! q).
    { intros q. rewrite foldl_rmSync_lookup.
      rewrite (existsb_ext_in _ (fun entry => within (outDir ++ "/" ++ entry) q) entries);
        [reflexivity|].
      intros entry Hin. rewrite Hjoin by exact Hin. reflexivity. }
    assert (Houtside : forall q, startsWith q (outDir ++ "/") = false ->
              existsb (fun entry => within (outDir ++ "/" ++ entry) q) entries = false).
    { intros q Hq.
      destruct (existsb (fun entry => within (outDir ++ "/" ++ entry) q) entries) eqn:E;
        [|reflexivity].
      apply existsb_exists in E as (entry & _ & Hin).
      apply within_below in Hin. congruence. }
    eexists. split; [reflexivity|]. split; [|split; [|split]].
    + rewrite Hlookup, Houtside; [exact Hout|].
      destruct (startsWith outDir (outDir ++ "/")) eqn:E; [|reflexivity].
      apply startsWith_spec in E as (rest & E). apply (f_equal length) in E.
      rewrite !length_app in E. simpl in E. lia.
    + intros q Hq. rewrite Hlookup, Houtside by exact Hq. reflexivity.
    + intros q. rewrite Hlookup.
      destruct (existsb (fun entry => within (outDir ++ "/" ++ entry) q) entries);
        [left | right]; reflexivity.
    + intros Htree q Hq. rewrite Hlookup.
      destruct (m !! q) as [e|] eqn:Hmq;
        [|destruct (existsb (fun entry => within (outDir ++ "/" ++ entry) q) entries);
          reflexivity].
      destruct (Htree q) as (name & Hname & Hexists & Hwithin);
        [eexists; exact Hmq | exact Hq |].
      assert (Hin : existsb (fun entry => within (outDir ++ "/" ++ entry) q) entries = true).
      { apply existsb_exists. exists name. split; [|exact Hwithin].
        apply list_elem_of_In, list_elem_of_omap. exists (outDir ++ "/" ++ name).
        split; [|apply child_name_of, Hname].
        destruct Hexists as [e' He']. apply list_elem_of_fmap.
        exists (outDir ++ "/" ++ name, e'). split; [reflexivity|].
        apply elem_of_map_to_list, He'. }
      rewrite Hin. reflexivity.
  - rewrite bool_decide_false by (intros [x Hx]; discriminate). reflexivity.
Qed.

(** ** The log of the server *)

Lemma onLog_all_from (chunks : list jstr) (st : ServerLog) (announced : nat) :
  let seen := existsb (test_i "Web Server is available") chunks in
  logBuf (onLog_all chunks st announced).1 = logBuf st ++ concat chunks
  /\ started (onLog_all chunks st announced).1 = started st || seen
  /\ hasErrorLine (onLog_all chunks st announced).1
     = hasErrorLine st || existsb has_error chunks
  /\ (onLog_all chunks st announced).2
     = (if negb (started st) && seen then S announced else announced).
Proof.
  revert st announced. induction chunks as [|msg rest IH]; intros st announced.
  - cbn. rewrite app_nil_r, !orb_false_r, andb_false_r. repeat split.
  - cbn [onLog_all onLog existsb concat]. cbv zeta.
    destruct (IH {| logBuf := logBuf st ++ msg;
                    started := if negb (started st) && test_i "Web Server is available" msg
                               then true else started st;
                    hasErrorLine := if has_error msg then true else hasErrorLine st |}
                 (if negb (started st) && test_i "Web Server is available" msg
                  then S announced else announced))
      as (Hbuf & Hstarted & Herror & Hcount).
    cbn [logBuf started hasErrorLine] in *.
    rewrite Hbuf, Hstarted, Herror, Hcount, <- app_assoc.
    destruct (started st), (test_i "Web Server is available" msg), (has_error msg),
      (hasErrorLine st), (existsb (test_i "Web Server is available") rest);
      repeat split; reflexivity.
Qed.

(** X22.  Whatever chunks the server writes, after them [logBuf] is
    their concatenation, [hasErrorLine] tells whether one of them held
    an error, [started] tells whether one of them held the words
    [Web Server is available] in whatever case of letters, and the
    server was announced as started once if [started] is set and never
    otherwise.  The tests look at each chunk on its own and not at
    [logBuf]. *)
Theorem onLog_chunks (chunks : list jstr) :
  logBuf (onLog_all chunks new_log 0).1 = concat chunks
  /\ started (onLog_all chunks new_log 0).1
     = existsb (test_i "Web Server is available") chunks
  /\ hasErrorLine (onLog_all chunks new_log 0).1 = existsb has_error chunks
  /\ (onLog_all chunks new_log 0).2
     = (if started (onLog_all chunks new_log 0).1 then 1 else 0).
Proof.
  destruct (onLog_all_from chunks new_log 0) as (Hbuf & Hstarted & Herror & Hcount).
  cbn [new_log logBuf started hasErrorLine negb orb andb] in *.
  rewrite Hstarted. repeat split; assumption.
Qed.

(** The words split over two chunks are in the log and are not seen. *)
Lemma onLog_split_banner :
  test_i "Web Server is available"
    (logBuf (onLog_all ["Web Server is avail"; "able at http://localhost:1313/"] new_log 0).1)
  = true
  /\ started (onLog_all ["Web Server is avail"; "able at http://localhost:1313/"] new_log 0).1
     = false.
Proof. split; vm_compute; reflexivity. Qed.

(** ** What is told when the server exits *)

Lemma up_to_newline_spec (s : jstr) :
  (ch_newline ∉ up_to_newline s)
  /\ exists after, s = up_to_newline s ++ after
       /\ match after with [] => True | c :: _ => c = ch_newline end.
Proof.
  induction s as [|c t (Hno & after & Ht & Hafter)]; cbn [up_to_newline].
  - split; [apply not_elem_of_nil|]. exists []. split; [reflexivity | exact I].
  - destruct (Ascii.eqb c ch_newline) eqn:Hc.
    + apply Ascii.eqb_eq in Hc. split; [apply not_elem_of_nil|].
      exists (c :: t). split; [reflexivity | exact Hc].
    + apply Ascii.eqb_neq in Hc. split.
      * apply not_elem_of_cons. split; [congruence | exact Hno].
      * exists after. split; [cbn [app]; congruence | exact Hafter].
Qed.

Lemma up_to_newline_app (p r : jstr) :
  ch_newline ∉ p -> up_to_newline (p ++ r) = p ++ up_to_newline r.
Proof.
  induction p as [|c p IH]; intros Hp; [reflexivity|].
  apply not_elem_of_cons in Hp as [Hc Hp]. cbn [app up_to_newline].
  destruct (Ascii.eqb c ch_newline) eqn:E; [apply Ascii.eqb_eq in E; congruence|].
  rewrite IH by exact Hp. reflexivity.
Qed.

Lemma match_summary_cons (c : ascii) (t : jstr) :
  match_summary (c :: t) =
    if startsWith (c :: t) "content/" && location_after (drop 8 (c :: t))
    then Some (up_to_newline (c :: t))
    else match_summary t.
Proof. reflexivity. Qed.

Lemma match_summary_spec (s summary : jstr) :
  match_summary s = Some summary ->
  exists before after,
    s = before ++ summary ++ after
    /\ startsWith summary "content/" = true
    /\ (ch_newline ∉ summary)
    /\ match after with [] => True | c :: _ => c = ch_newline end.
Proof.
  induction s as [|c t IH]; [discriminate|].
  rewrite match_summary_cons.
  destruct (startsWith (c :: t) "content/" && location_after (drop 8 (c :: t))) eqn:Hhere.
  - intros Heq.
    assert (Hsummary : summary = up_to_newline (c :: t)) by congruence.
    clear Heq. subst summary.
    apply andb_true_iff in Hhere as [Hstart _].
    destruct (up_to_newline_spec (c :: t)) as (Hno & after & Hs & Hafter).
    exists [], after. split; [exact Hs|]. split; [|split; assumption].
    apply startsWith_spec in Hstart as (rest & Hrest). rewrite Hrest.
    rewrite up_to_newline_app by (apply (bool_decide_unpack _); vm_compute; exact I).
    apply startsWith_spec. eexists. reflexivity.
  - intros Hlater. destruct (IH Hlater) as (before & after & -> & Hrest).
    exists (c :: before), after. split; [reflexivity | exact Hrest].
Qed.

(** X23.  When a child exits, the user is told that the server failed
    exactly when the exit code is neither [null] nor 0 or an error was
    seen in the log; the summary then is the text [error.seeOutput] or
    one line of the log, from a text [content/] on to the end of the
    line.  Otherwise the user is told that the server exited
    unexpectedly exactly when it was never announced as started, and
    nothing when it was. *)
Theorem exit_report_cases (code : option Z) (st : ServerLog) :
  match exit_report code st with
  | ServerFailed summary =>
      (default 0%Z code <> 0%Z \/ hasErrorLine st = true)
      /\ match summary with
         | None => match_summary (logBuf st) = None
         | Some text =>
             exists before after,
               logBuf st = before ++ text ++ after
               /\ startsWith text "content/" = true
               /\ (ch_newline ∉ text)
               /\ match after with [] => True | c :: _ => c = ch_newline end
         end
  | ExitedUnexpectedly =>
      default 0%Z code = 0%Z /\ hasErrorLine st = false /\ started st = false
  | NoReport =>
      default 0%Z code = 0%Z /\ hasErrorLine st = false /\ started st = true
  end.
Proof.
  unfold exit_report.
  destruct (Z.eqb (default 0%Z code) 0) eqn:Hcode; cbn [negb orb].
  - apply Z.eqb_eq in Hcode.
    destruct (hasErrorLine st) eqn:Herr.
    + split; [right; reflexivity|].
      destruct (match_summary (logBuf st)) as [text|] eqn:Hsum; [|reflexivity].
      apply match_summary_spec, Hsum.
    + destruct (started st); cbn [negb]; repeat split; assumption.
  - apply Z.eqb_neq in Hcode. split; [left; exact Hcode|].
    destruct (match_summary (logBuf st)) as [text|] eqn:Hsum; [|reflexivity].
    apply match_summary_spec, Hsum.
Qed.

(** ** Startup *)

Lemma keeps_status_bind {A B : Type} (m : M A) (k : A -> M B) :
  keeps_status m -> (forall a, keeps_status (k a)) -> keeps_status (bind m k).
Proof.
  intros Hm Hk w. unfold bind. specialize (Hm w).
  destruct (m w) as [[a|e] w']; cbn [snd] in *; [|exact Hm].
  rewrite Hk. exact Hm.
Qed.

Lemma keeps_status_try_catch {A : Type} (m : M A) (handler : Error -> M A) :
  keeps_status m -> (forall e, keeps_status (handler e)) -> keeps_status (try_catch m handler).
Proof.
  intros Hm Hk w. unfold try_catch. specialize (Hm w).
  destruct (m w) as [[a|e] w']; cbn [snd] in *; [exact Hm|].
  rewrite Hk. exact Hm.
Qed.

Lemma keeps_status_fs_call (f : FileSystem -> result Error FileSystem) :
  keeps_status (fs_call f).
Proof. intros w. unfold fs_call, bind, get_world. destruct (f (fs w)); reflexivity. Qed.

Lemma keeps_status_lift {A : Type} (r : result Error A) : keeps_status (lift r).
Proof. intros w. destruct r; reflexivity. Qed.

Ltac keeps_status_step :=
  lazymatch goal with
  | |- keeps_status (bind _ _) => apply keeps_status_bind; [|intros ?]
  | |- keeps_status (try_catch _ _) => apply keeps_status_try_catch; [|intros ?]
  | |- keeps_status (lift _) => apply keeps_status_lift
  | |- keeps_status (fs_call _) => apply keeps_status_fs_call
  | |- keeps_status (ret _) => intros ?; reflexivity
  | |- keeps_status (throw _) => intros ?; reflexivity
  | |- keeps_status get_world => intros ?; reflexivity
  | |- keeps_status (emit _) => intros ?; reflexivity
  | |- keeps_status (put_fs _) => intros ?; reflexivity
  | |- keeps_status (put_panel _) => intros ?; reflexivity
  | |- keeps_status (if ?b then _ else _) => destruct b
  | |- keeps_status (match ?x with _ => _ end) => destruct x
  | |- keeps_status (let _ := _ in _) => cbv zeta
  end.

Ltac keeps_status_tac := repeat keeps_status_step.

Lemma installHugoInternal_keeps_status (h : Host) (version : jstr) (useExtended : bool) :
  keeps_status (installHugoInternal h version useExtended).
Proof. unfold installHugoInternal, checkHugo. keeps_status_tac. Qed.

Lemma resolveInstalledHugo_keeps_status (h : Host) : keeps_status (resolveInstalledHugo h).
Proof. unfold resolveInstalledHugo, exists_and_runs, checkHugo. keeps_status_tac. Qed.

Lemma ensurePinnedHugoOnStartup_keeps_status (h : Host) :
  keeps_status (ensurePinnedHugoOnStartup h).
Proof.
  unfold ensurePinnedHugoOnStartup, getLocalHugoVersion.
  keeps_status_tac;
    first [apply installHugoInternal_keeps_status | apply resolveInstalledHugo_keeps_status].
Qed.

Lemma throwing_of_keeps_status {A : Type} (m : M A) :
  keeps_status m -> keeps_status_when_throwing m.
Proof. intros H w. specialize (H w). destruct (m w) as [[a|e] w']; [exact I | exact H]. Qed.

Lemma throwing_bind {A B : Type} (m : M A) (k : A -> M B) :
  keeps_status m -> (forall a, keeps_status_when_throwing (k a)) ->
  keeps_status_when_throwing (bind m k).
Proof.
  intros Hm Hk w. unfold bind. specialize (Hm w).
  destruct (m w) as [[a|e] w1]; cbn [snd] in Hm; [|exact Hm].
  specialize (Hk a w1). destruct (k a w1) as [[b|e] w2]; [exact I|].
  rewrite Hk. exact Hm.
Qed.

Lemma updateHugoStatus_returns (h : Host) (w : World) :
  exists w', updateHugoStatus h w = (Ok tt, w').
Proof.
  unfold updateHugoStatus. rewrite bind_get_world.
  destruct (open_workspace h) as [workspace|]; [|eexists; reflexivity].
  destruct (negb _); [eexists; reflexivity|].
  destruct (resolveInstalledHugo_run h w) as (found & w1 & Hfound & _).
  unfold bind at 1. rewrite Hfound.
  destruct found as [p|]; [|eexists; reflexivity].
  unfold bind at 1. rewrite getLocalHugoVersion_run. rewrite bind_get_world.
  eexists; reflexivity.
Qed.

Lemma checkHugoUpdateOnStartup_throwing (h : Host) :
  keeps_status_when_throwing (checkHugoUpdateOnStartup h).
Proof.
  unfold checkHugoUpdateOnStartup.
  destruct (non_empty _); [apply throwing_of_keeps_status; intros w; reflexivity|].
  apply throwing_bind; [apply resolveInstalledHugo_keeps_status|].
  intros [p|]; [|apply throwing_of_keeps_status; intros w; reflexivity].
  apply throwing_bind; [unfold getLocalHugoVersion; keeps_status_tac|].
  intros [localVer|]; [|apply throwing_of_keeps_status; intros w; reflexivity].
  apply throwing_bind; [unfold getLatestHugoVersion; keeps_status_tac|].
  intros latestVer.
  destruct (negb (isNewer _ _ _)); [apply throwing_of_keeps_status; intros w; reflexivity|].
  cbv zeta.
  apply throwing_bind; [unfold showInformationMessage; keeps_status_tac|].
  intros choice.
  destruct (negb (bool_decide _)); [apply throwing_of_keeps_status; intros w; reflexivity|].
  apply throwing_bind; [apply installHugoInternal_keeps_status|].
  intros []. apply throwing_bind; [intros w; reflexivity|].
  intros [] w. destruct (updateHugoStatus_returns h w) as (w' & ->). exact I.
Qed.

(** X24.  The chain of [activate] never fails.  When the install of
    the pinned version or the check for updates fails, as the query for
    the latest release does without a network, the status bar item is
    left as it was: it is not shown at startup.  Otherwise the chain
    ends with [updateHugoStatus]. *)
Theorem startup_swallows_errors (h : Host) (w : World) :
  exists w',
    startup h w = (Ok tt, w')
    /\ match ensurePinnedHugoOnStartup h w with
       | (Throw _, _) => hugoStatusItem w' = hugoStatusItem w
       | (Ok _, w1) =>
           match checkHugoUpdateOnStartup h w1 with
           | (Throw _, _) => hugoStatusItem w' = hugoStatusItem w
           | (Ok _, w2) => w' = (updateHugoStatus h w2).2
           end
       end.
Proof.
  unfold startup, try_catch, bind.
  pose proof (ensurePinnedHugoOnStartup_keeps_status h w) as Hpin.
  destruct (ensurePinnedHugoOnStartup h w) as [[[]|e] w1]; cbn [snd] in Hpin.
  2:{ eexists. split; [reflexivity | exact Hpin]. }
  pose proof (checkHugoUpdateOnStartup_throwing h w1) as Hcheck.
  destruct (checkHugoUpdateOnStartup h w1) as [[[]|e] w2].
  2:{ eexists. split; [reflexivity|]. cbn. congruence. }
  destruct (updateHugoStatus_returns h w2) as (w3 & Hup). rewrite Hup.
  eexists. split; reflexivity.
Qed.

(** Hugo is installed, nothing is pinned and there is no network: the
    chain ends with the status bar item as it was. *)
Lemma startup_offline :
  exists w',
    startup demo_host empty_world = (Ok tt, w')
    /\ hugoStatusItem w' = hugoStatusItem empty_world
    /\ trace w' = [EvExecVersion "hugo"; EvExecVersion "hugo"; EvGetLatestVersion].
Proof. eexists. split; [vm_compute; reflexivity|]. split; reflexivity. Qed.

(** ** The page lies below the output directory *)

(** The path that the loop returns is made from the permalink of the
    first row that matches. *)
Lemma scan_rows_Ok (URL_pathname : jstr -> option jstr) (outDir contentRelPath : jstr)
    (idxPath idxPermalink : nat) (target : jstr) (rows : list jstr) (p : jstr) :
  scan_rows URL_pathname outDir contentRelPath idxPath idxPermalink target rows = Ok p ->
  exists permalink pathname,
    first_matching_row idxPath target rows ≫= row_column idxPermalink = Some permalink
    /\ URL_pathname permalink = Some pathname
    /\ p = path.join [outDir; path.join [strip_leading_slashes pathname; "index.html"]].
Proof.
  induction rows as [|line rest IH]; [discriminate|].
  rewrite scan_rows_cons, first_matching_row_cons.
  destruct (row_column idxPath line) as [col|] eqn:Hcol; [|discriminate].
  rewrite (row_matches_column idxPath target line col Hcol).
  destruct (bool_decide (normalize_backslashes col = target)); [|exact IH].
  unfold at_row. cbn [mbind option_bind].
  destruct (row_column idxPermalink line) as [[|c permalink]|]; try discriminate.
  destruct (URL_pathname (c :: permalink)) as [pathname|] eqn:Hurl; [|discriminate].
  intros [= <-]. exists (c :: permalink), pathname.
  split; [reflexivity|]. split; [exact Hurl | reflexivity].
Qed.

Lemma resolveHtmlPath_of_stdout_Ok (URL_pathname : jstr -> option jstr)
    (outDir contentRelPath stdout p : jstr) :
  resolveHtmlPath_of_stdout URL_pathname outDir contentRelPath stdout = Ok p ->
  exists permalink pathname,
    listed_permalink contentRelPath stdout = Some permalink
    /\ URL_pathname permalink = Some pathname
    /\ p = path.join [outDir; path.join [strip_leading_slashes pathname; "index.html"]].
Proof.
  unfold resolveHtmlPath_of_stdout, listed_permalink. cbv zeta.
  fold (listing_lines stdout). fold (listing_headers stdout).
  destruct (bool_decide _); [discriminate|].
  destruct (indexOf _ "path") as [idxPath|]; [|discriminate].
  destruct (indexOf _ "permalink") as [idxPermalink|]; [|discriminate].
  apply scan_rows_Ok.
Qed.

Lemma join_below_names (absolute : bool) (dirs : list jstr) (name outDir s : jstr) :
  named_path absolute dirs name outDir ->
  Forall name_segment (path.segments s) ->
  path.join [outDir; s; "index.html"]
  = outDir ++ "/" ++ intercalate "/" (path.segments s ++ ["index.html"]).
Proof.
  intros Hnamed Hnames.
  change [outDir; s; "index.html"] with ([outDir; s] ++ ["index.html"]).
  rewrite join_to_index.
  assert (Habs : join_absolute ([outDir; s] ++ ["index.html"]) = absolute).
  { cbn [app]. rewrite join_absolute_cons.
    pose proof (named_path_non_empty _ _ _ _ Hnamed) as Hne.
    destruct outDir; [congruence|]. cbn [non_empty].
    apply (named_path_absolute _ _ _ _ Hnamed). }
  rewrite Habs.
  assert (Hsegs : [outDir; s] ≫= path.segments = (dirs ++ [name]) ++ path.segments s).
  { cbn. rewrite (named_path_segments _ _ _ _ Hnamed), app_nil_r. reflexivity. }
  rewrite Hsegs, normalize_segs_app, (named_normal _ _ _ _ Hnamed).
  rewrite normalize_segs_names by exact Hnames.
  rewrite rev_app_distr, rev_involutive. cbn [rev]. rewrite rev_involutive.
  rewrite (named_eq _ _ _ _ Hnamed) at 1.
  rewrite <- !app_assoc. f_equal.
  rewrite (app_assoc dirs [name]).
  apply intercalate_app.
  - destruct dirs; discriminate.
  - destruct (path.segments s); discriminate.
Qed.

(** X25.  The page that [resolveHtmlPathByHugoList] returns lies below
    the output directory and is named [index.html]: the path is the
    output directory, the segments of the pathname of the permalink
    that the listing of Hugo gives for the document (the permalink
    column of the first data row whose path column is the target) and
    [index.html], with one slash between them.  This is so when the
    pathname has no segment [.] or [..], as is the case for the
    pathname of a URL. *)
Theorem resolveHtmlPath_below_outDir (h : Host) (w w' : World)
    (absolute : bool) (dirs : list jstr)
    (name hugo workspace outDir contentRelPath htmlPath : jstr) :
  named_path absolute dirs name outDir ->
  (forall permalink pathname,
     host_URL_pathname h permalink = Some pathname ->
     Forall name_segment (path.segments pathname)) ->
  resolveHtmlPathByHugoList h hugo workspace outDir contentRelPath w = (Ok htmlPath, w') ->
  exists stdout m permalink pathname,
    exec_hugo h w hugo ["--source"; workspace; "list"; "all"] = Some (stdout, m)
    /\ listed_permalink contentRelPath stdout = Some permalink
    /\ host_URL_pathname h permalink = Some pathname
    /\ htmlPath
       = outDir ++ "/" ++ intercalate "/" (path.segments pathname ++ ["index.html"])
    /\ startsWith htmlPath (outDir ++ "/") = true.
Proof.
  intros Hnamed Hurl Hrun.
  destruct (exec_hugo h w hugo ["--source"; workspace; "list"; "all"])
    as [[stdout m]|] eqn:Hexec.
  2:{ revert Hrun. unfold resolveHtmlPathByHugoList, execFileAsync.
      rewrite bind_assoc, bind_get_world, bind_assoc, bind_emit, Hexec. discriminate. }
  rewrite (resolveHtmlPathByHugoList_run h w hugo workspace outDir contentRelPath stdout m Hexec)
    in Hrun.
  injection Hrun as Hrun _.
  apply resolveHtmlPath_of_stdout_Ok in Hrun as (permalink & pathname & Hlisted & Hpath & ->).
  exists stdout, m, permalink, pathname.
  split; [reflexivity|]. split; [exact Hlisted|]. split; [exact Hpath|].
  assert (Heq : path.join [outDir; path.join [strip_leading_slashes pathname; "index.html"]]
                = outDir ++ "/" ++ intercalate "/" (path.segments pathname ++ ["index.html"])).
  { rewrite join_nested by apply strip_not_absolute.
    rewrite (join_below_names absolute dirs name outDir _ Hnamed).
    - rewrite segments_strip. reflexivity.
    - rewrite segments_strip. apply (Hurl permalink), Hpath. }
  split; [exact Heq|].
  rewrite Heq. apply startsWith_spec. eexists. rewrite <- app_assoc. reflexivity.
Qed.

(** The page of [posts/a.md] on the site of [listing_host]. *)
Lemma resolveHtmlPath_below_outDir_witness :
  listed_permalink "posts/a.md" demo_listing = Some ("https://example.org/posts/a/" : jstr)
  /\ host_URL_pathname listing_host "https://example.org/posts/a/" = Some ("/posts/a/" : jstr)
  /\ ("/s/run/public/posts/a/index.html" : jstr)
     = outDir listing_host ++ "/"
       ++ intercalate "/" (path.segments "/posts/a/" ++ ["index.html"])
  /\ startsWith "/s/run/public/posts/a/index.html" (outDir listing_host ++ "/") = true.
Proof.
  destruct (resolveHtmlPath_below_outDir listing_host empty_world
              (resolveHtmlPathByHugoList listing_host "hugo" "/w" (outDir listing_host)
                 "posts/a.md" empty_world).2
              (join_absolute ([runRoot listing_host] ++ ["public"]))
              (rev (path.normalize_segs
                      (negb (join_absolute ([runRoot listing_host] ++ ["public"]))) []
                      ([runRoot listing_host] ≫= path.segments)))
              "public" "hugo" "/w" (outDir listing_host) "posts/a.md"
              "/s/run/public/posts/a/index.html")
    as (stdout & m & permalink & pathname & Hexec & Hlisted & Hurl & Hpath & Hbelow).
  - apply (join_named [runRoot listing_host] "public").
    + split; [discriminate|]. apply (bool_decide_unpack _). vm_compute. exact I.
    + repeat split; discriminate.
  - intros permalink pathname. cbn [host_URL_pathname listing_host].
    case_bool_decide; [|discriminate]. intros [= <-].
    repeat constructor; discriminate.
  - vm_compute. reflexivity.
  - injection Hexec as <- _.
    vm_compute in Hlisted. injection Hlisted as <-.
    vm_compute in Hurl. injection Hurl as <-.
    split; [vm_compute; reflexivity|]. split; [vm_compute; reflexivity|].
    split; [exact Hpath | exact Hbelow].
Defined.

(** ** The copy writes one file *)

(** X26.  Between the moment Hugo is found and the build, [openPreview]
    writes one file, the copy of the document in the temporary content
    directory, and makes directories: every other file of the file
    system, those of the workspace among them, is as it was, and no
    file is removed. *)
Theorem openPreview_copy_writes_one_file (h : Host) (w w' : World) (job : PreviewJob) :
  openPreview_copy h w = (Ok job, w') ->
  forall q content,
    q <> job_dstMdPath job ->
    (fs w' !! q = Some (File content)
     <-> fs (ensureHugo h false w).2 !! q = Some (File content)).
Proof.
  intros Hrun q content Hq.
  destruct (openPreview_copy_inv h w w' job Hrun)
    as (doc & workspace & hugo & w0 & m1 & m2 & m3 & m4 & _ & _ & Hhugo & Hmk1 & Hmk2
        & _ & _ & _ & Hmk3 & Hwrite & Hfs).
  apply writeFileSync_ok in Hwrite as [-> _].
  rewrite Hfs, Hhugo. cbn [snd].
  rewrite lookup_insert_ne by congruence.
  rewrite (mkdirSync_files m2 m3 _ q content Hmk3).
  rewrite (mkdirSync_files m1 m2 _ q content Hmk2).
  apply (mkdirSync_files (fs w0) m1 _ q content Hmk1).
Qed.

(** The preview of [posts/a.md] on [demo_host]. *)
Lemma openPreview_copy_writes_one_file_witness :
  openPreview_copy demo_host empty_world = (Ok demo_job, demo_copied)
  /\ forall q content,
       q <> job_dstMdPath demo_job ->
       (fs demo_copied !! q = Some (File content)
        <-> fs (ensureHugo demo_host false empty_world).2 !! q = Some (File content)).
Proof.
  assert (Hrun : openPreview_copy demo_host empty_world = (Ok demo_job, demo_copied)).
  { vm_compute. reflexivity. }
  split; [exact Hrun|].
  exact (openPreview_copy_writes_one_file demo_host empty_world demo_copied demo_job Hrun).
Defined.

(** ** The server used one step at a time *)

Lemma filter_eq_self (p : nat) : filter (fun q => q = p) [p] = [p].
Proof. rewrite filter_cons_True by reflexivity. reflexivity. Qed.

Lemma filter_ne_self (p : nat) : filter (fun q => q <> p) [p] = [].
Proof. rewrite filter_cons_False by (intros H; apply H; reflexivity). reflexivity. Qed.

Lemma resume_one_child (o : option Server.Outcome) (alive0 : list nat) (spawned0 : nat) :
  alive0 = [] ->
  exists st',
    Server.run {| Server.hugoServerProcess := None; Server.alive := alive0;
                  Server.spawned := spawned0; Server.starting := 1;
                  Server.restarting := [] |} [resume_label o] = Some st'
    /\ one_child st'.
Proof.
  intros ->. destruct o as [[| |]|]; (eexists; split; [reflexivity|]); repeat split.
Qed.

Lemma operation_keeps_one_child (op : Operation) (st : Server.State) :
  one_child st ->
  exists st', Server.run st (operation_labels op st) = Some st' /\ one_child st'.
Proof.
  destruct st as [process alive0 spawned0 starting0 restarting0].
  intros (Hstarting & Hrestarting & Halive). cbn in Hstarting, Hrestarting, Halive. subst.
  destruct process as [p|]; destruct op as [o|  |o|]; cbn [operation_labels Server.hugoServerProcess].
  - eexists. split; [reflexivity|]. repeat split.
  - cbn [Server.run Server.enabled Server.step Server.stopHugoServer Server.set_process
         Server.hugoServerProcess Server.alive Server.spawned Server.starting
         Server.restarting].
    rewrite bool_decide_true by apply list_elem_of_here.
    unfold Server.on_exit. cbn [Server.restarting Server.alive Server.spawned Server.starting].
    rewrite filter_ne_self. cbn. eexists. split; [reflexivity|]. repeat split.
  - cbn [Server.run Server.enabled Server.step Server.restartHugoServer
         Server.hugoServerProcess Server.alive Server.spawned Server.starting
         Server.restarting].
    rewrite bool_decide_true by apply list_elem_of_here.
    unfold Server.on_exit. cbn [Server.restarting Server.alive Server.spawned Server.starting].
    rewrite filter_eq_self, !filter_ne_self.
    cbn [length Server.enter_times Server.startHugoServer_enter Server.hugoServerProcess
         Server.alive Server.spawned Server.starting Server.restarting].
    apply resume_one_child. reflexivity.
  - cbn [Server.run Server.enabled Server.step].
    rewrite bool_decide_true by apply list_elem_of_here.
    unfold Server.on_exit. cbn [Server.restarting Server.alive Server.spawned Server.starting].
    rewrite filter_ne_self. cbn. eexists. split; [reflexivity|]. repeat split.
  - cbn [Server.run Server.enabled Server.step Server.startHugoServer_enter
         Server.hugoServerProcess Server.alive Server.spawned Server.starting
         Server.restarting].
    apply resume_one_child. reflexivity.
  - eexists. split; [reflexivity|]. repeat split.
  - cbn [Server.run Server.enabled Server.step Server.restartHugoServer
         Server.startHugoServer_enter
         Server.hugoServerProcess Server.alive Server.spawned Server.starting
         Server.restarting].
    apply resume_one_child. reflexivity.
  - eexists. split; [reflexivity|]. repeat split.
Qed.

(** X27.  Used one step at a time, the server control keeps one child:
    when every start runs to its end before the next call and every
    child that is stopped exits before the next start, no call can get
    stuck, and after every operation the children alive are at most
    one, the one that [hugoServerProcess] holds.  The second child of a
    start needs calls that overlap. *)
Theorem sequential_operations_keep_one_child (ops : list Operation) :
  exists st,
    run_operations ops Server.init = Some st
    /\ one_child st
    /\ length (Server.alive st) <= 1.
Proof.
  assert (Hgen : forall st0, one_child st0 ->
            exists st, run_operations ops st0 = Some st /\ one_child st).
  { induction ops as [|op ops IH]; intros st0 Hinv.
    - exists st0. split; [reflexivity | exact Hinv].
    - cbn [run_operations].
      destruct (operation_keeps_one_child op st0 Hinv) as (st1 & -> & Hinv1).
      apply IH, Hinv1. }
  destruct (Hgen Server.init) as (st & Hrun & Hinv); [repeat split|].
  exists st. split; [exact Hrun|]. split; [exact Hinv|].
  destruct Hinv as (_ & _ & ->). destruct (Server.hugoServerProcess st); cbn; lia.
Qed.
